(** * Stonehenge: board, game state and minimax strategies

    A shallow embedding of [board.py], [stonehenge.py] and [strategy.py].

    Python objects that are shared and mutated are kept in explicit stores
    and addressed by index:
    - the [BoardNode]s of one board live in the board's [nodes] store; the
      layers, the label registry and the ley-lines hold indices into it, so
      marking a cell through the registry is seen by every ley-line;
    - [Board] and [StonehengeState] objects live in the [World]; a state
      holds the index of its board;
    - the [Tree] nodes of the iterative search live in a store that the
      work stack and the parents' [children] lists index.

    Methods that mutate their receiver return the receiver's new value
    next to their outcome; an outcome is a value, a raised Python
    exception, or the exhaustion of the fuel that bounds recursion and
    [while] loops. *)

From Stdlib Require Import ZArith QArith String Ascii Lia Bool Sorted.
From stdpp Require Import base list strings.

Open Scope string_scope.
Open Scope Z_scope.
Open Scope list_scope.

(** ** Outcomes *)

Inductive exn := KeyError | TypeError | ValueError | IndexError.

Inductive result (A : Type) :=
| Ok (a : A)
| Raise (e : exn)
| OutOfFuel.
Arguments Ok {A} a.
Arguments Raise {A} e.
Arguments OutOfFuel {A}.

Definition bind {A B} (m : result A) (f : A -> result B) : result B :=
  match m with
  | Ok a => f a
  | Raise e => Raise e
  | OutOfFuel => OutOfFuel
  end.

Notation "'do' x <- m ; k" := (bind m (fun x => k))
  (at level 10, x name, m at level 100, k at level 200).
Notation "'do' ' pat <- m ; k" :=
  (bind m (fun x => match x with pat => k end))
  (at level 10, pat pattern, m at level 100, k at level 200).

(** ** Python values and list primitives *)

(** [BoardNode.value] and the strategies' return value are
    [Union[int, str]]. *)
Inductive pyval :=
| VStr (s : string)
| VInt (n : Z).

Definition is_int (n : Z) (v : pyval) : bool :=
  match v with
  | VInt k => k =? n
  | VStr _ => false
  end.

(** [v == w] on these values: an integer never equals a string. *)
Definition pyval_eqb (v w : pyval) : bool :=
  match v, w with
  | VStr s, VStr s' => String.eqb s s'
  | VInt n, VInt n' => n =? n'
  | _, _ => false
  end.

(** [l[i]] with Python's negative indices. *)
Definition py_index {A} (l : list A) (i : Z) : result A :=
  let n := Z.of_nat (length l) in
  let k := if i <? 0 then i + n else i in
  if (0 <=? k) && (k <? n)
  then match l !! Z.to_nat k with Some a => Ok a | None => Raise IndexError end
  else Raise IndexError.

(** [max(l)]; [mx] is the maximum of two elements. *)
Definition py_max {A} (mx : A -> A -> A) (l : list A) : result A :=
  match l with
  | [] => Raise ValueError
  | x :: l' => Ok (foldl mx x l')
  end.

(** [s * n] on strings. *)
Fixpoint str_repeat (s : string) (n : nat) : string :=
  match n with
  | O => ""
  | S n' => s ++ str_repeat s n'
  end.

(** [range(a, b)] for naturals. *)
Definition range (a b : nat) : list nat := seq a (b - a).

(** A [dict] with string keys, in insertion order. *)
Fixpoint dict_get {V} (k : string) (d : list (string * V)) : option V :=
  match d with
  | [] => None
  | (k', v) :: d' => if String.eqb k k' then Some v else dict_get k d'
  end.

Fixpoint dict_set {V} (k : string) (v : V) (d : list (string * V))
  : list (string * V) :=
  match d with
  | [] => [(k, v)]
  | (k', v') :: d' =>
      if String.eqb k k' then (k', v) :: d' else (k', v') :: dict_set k v d'
  end.

(** ** BoardNode *)

Module BoardNode.

Record t := mk { value : pyval; child : option nat }.

(** [BoardNode()] *)
Definition init : t := mk (VStr "^") None.

Definition set_value (v : pyval) (self : t) : t := mk v (child self).
Definition set_child (c : option nat) (self : t) : t := mk (value self) c.

End BoardNode.

(** The object behind a node reference.  A reference held by a board
    always points into its store; the default is never read there. *)
Definition node_at (nodes : list BoardNode.t) (r : nat) : BoardNode.t :=
  default BoardNode.init (nodes !! r).

(** ** LeyLine *)

Module LeyLine.

Record t := mk { taken : option string; cells : list nat }.

(** [LeyLine(cells)] *)
Definition init (cells : list nat) : t := mk None cells.

(** The counting loop of [calculate_positions]. *)
Fixpoint count_cells (nodes : list BoardNode.t) (cells : list nat)
    (p1_number p2_number : Z) : Z * Z :=
  match cells with
  | [] => (p1_number, p2_number)
  | cell :: cells' =>
      let v := BoardNode.value (node_at nodes cell) in
      let p1_number := if is_int 1 v then p1_number + 1 else p1_number in
      let p2_number := if is_int 2 v then p2_number + 1 else p2_number in
      count_cells nodes cells' p1_number p2_number
  end.

(** [number >= 0.5 * len(cells)]: the product with the float [0.5] is
    exact, so the comparison is one of rationals. *)
Definition half_reached (number : Z) (len : nat) : bool :=
  Qle_bool ((1 # 2) * inject_Z (Z.of_nat len))%Q (inject_Z number).

Definition calculate_positions (nodes : list BoardNode.t) (self : t) : t :=
  match taken self with
  | None =>
      let '(p1_number, p2_number) := count_cells nodes (cells self) 0 0 in
      let self :=
        if half_reached p1_number (length (cells self))
        then mk (Some "p1") (cells self) else self in
      let self :=
        if half_reached p2_number (length (cells self))
        then mk (Some "p2") (cells self) else self in
      self
  | Some _ => self
  end.

(** The counting loop of [almost_owns]. *)
Fixpoint count_code (nodes : list BoardNode.t) (player_code : Z)
    (cells : list nat) (count : Z) : Z :=
  match cells with
  | [] => count
  | node :: cells' =>
      count_code nodes player_code cells'
        (if is_int player_code (BoardNode.value (node_at nodes node))
         then count + 1 else count)
  end.

(** [almost_owns(player)]; [//] is the floor division of integers. *)
Definition almost_owns (nodes : list BoardNode.t) (player : string) (self : t)
  : bool :=
  let player_code := if String.eqb player "p1" then 1 else 2 in
  let nodes_ := length (cells self) in
  let count := count_code nodes player_code (cells self) 0 in
  let count := if count / 1 =? count then count - 1 else count / 1 in
  half_reached count nodes_.

End LeyLine.

(** ** Board *)

Module Board.

(** [data] is the two-element list [[size, winner]]; [nodes] is the store
    of the board's [BoardNode] objects.  The registry maps a label to its
    node; the list of ley-lines that Python keeps next to the node is
    written by [generate_leys] and read by no method, and is left out. *)
Record t := mk {
  data_0 : Z;
  data_1 : option string;
  moves_history : list (string * string);
  nodes : list BoardNode.t;
  _content : list (list nat);
  node_reference : list (string * nat);
  upw_leys : list LeyLine.t;
  downw_leys : list LeyLine.t;
  horiz_leys : list LeyLine.t
}.

(** *** Construction *)

(** [BoardNode()]: a fresh object at the end of the store. *)
Definition alloc (nodes : list BoardNode.t) : list BoardNode.t * nat :=
  (nodes ++ [BoardNode.init], length nodes).

(** [for b in temp: b.child = BoardNode()] *)
Fixpoint set_children (temp : list nat) (nodes : list BoardNode.t)
  : list BoardNode.t :=
  match temp with
  | [] => nodes
  | b :: temp' =>
      let '(nodes, c) := alloc nodes in
      set_children temp'
        (<[b := BoardNode.set_child (Some c) (node_at nodes b)]> nodes)
  end.

(** [[b.child for b in res if b.child is not None]] *)
Definition children_of (nodes : list BoardNode.t) (res : list nat) : list nat :=
  omap (fun b => BoardNode.child (node_at nodes b)) res.

(** [generate_layers(res, layer)] on the pair of the node store and
    [_content]; every recursive call takes one unit of fuel. *)
Fixpoint generate_layers (fuel : nat) (size : Z) (res : list nat) (layer : Z)
    (st : list BoardNode.t * list (list nat))
  : result (list BoardNode.t * list (list nat)) :=
  match fuel with
  | O => OutOfFuel
  | S fuel' =>
      let '(nodes, content) := st in
      if layer =? 1 then
        let '(nodes, a) := alloc nodes in
        let '(nodes, b) := alloc nodes in
        let res := [a; b] in
        let content := content ++ [res] in
        if size >=? 0
        then generate_layers fuel' size res (layer + 2) (nodes, content)
        else Ok (nodes, content)
      else if layer <=? size + 2 then
        let '(temp, temp2, nodes) :=
          if size =? 1 then (Some res, Some [], nodes)
          else if layer <? size + 2 then
            let '(nodes, c) := alloc nodes in (Some res, Some [c], nodes)
          else (None, None, nodes) in
        let '(temp, temp2) :=
          if layer =? size + 2 then (Some (tail res), Some [])
          else (temp, temp2) in
        match temp, temp2 with
        | Some temp, Some temp2 =>
            let nodes := set_children temp nodes in
            let new_res := children_of nodes res ++ temp2 in
            generate_layers fuel' size new_res (layer + 1)
              (nodes, content ++ [new_res])
        | _, _ => Raise TypeError
        end
      else Ok (nodes, content)
  end.

Definition alphabet : list string :=
  ["A"; "B"; "C"; "D"; "E"; "F"; "G"; "H"; "I"; "J"; "K"; "L"; "M"; "N";
   "O"; "P"; "Q"; "R"; "S"; "T"; "U"; "V"; "W"; "X"; "Y"; "Z"].

(** The loop state of [name_layers]. *)
Record naming := mk_naming {
  index : nat;
  add_on : nat;
  named_nodes : list BoardNode.t;
  registry : list (string * nat)
}.

(** One pass of the inner loop body.  [index] is reset when it reaches
    the length of the alphabet, so the lookup is always in range. *)
Definition name_node (st : naming) (b : nat) : naming :=
  let '(index, add_on) :=
    if Nat.eqb (index st) (length alphabet)
    then (O, S (add_on st)) else (index st, add_on st) in
  let to_add := str_repeat "'" add_on in
  let name := (default "" (alphabet !! index) ++ to_add)%string in
  mk_naming (S index) add_on
    (<[b := BoardNode.set_value (VStr name) (node_at (named_nodes st) b)]>
       (named_nodes st))
    (dict_set name b (registry st)).

Definition name_layers (content : list (list nat)) (nodes : list BoardNode.t)
  : list BoardNode.t * list (string * nat) :=
  let st :=
    foldl (fun st l => foldl name_node st l) (mk_naming 0 0 nodes []) content in
  (named_nodes st, registry st).

(** [generate_leys(l)]; [None] is not iterable. *)
Definition generate_leys (l : option (list (list nat))) : result (list LeyLine.t) :=
  match l with
  | None => Raise TypeError
  | Some l => Ok (map LeyLine.init l)
  end.

(** [max_len_list(l)] *)
Definition max_len_list {A} (l : list (list A)) : nat :=
  fst (foldl
         (fun '(max_ind, max_res) i =>
            let len := Z.of_nat (length (default [] (l !! i))) in
            if len >? max_res then (i, len) else (max_ind, max_res))
         (O, -1) (range 0 (length l))).

(** [[x[index] for x in a if len(x) > index]] *)
Definition column {A} (a : list (list A)) (index : nat) : list A :=
  flat_map
    (fun x => if Nat.ltb index (length x) then option_list (x !! index) else [])
    a.

(** [top_to_line(a, max_width, index)]: [todo] counts the indices from
    [index] up to [max_width] that are still to be visited. *)
Fixpoint top_to_line_from {A} (a : list (list A)) (todo index : nat)
  : list (list A) :=
  match todo with
  | O => []
  | S todo' =>
      let k := column a index in
      (match k with [] => [] | _ => [k] end)
        ++ top_to_line_from a todo' (S index)
  end.

Definition top_to_line {A} (a : list (list A)) (max_width index : nat)
  : list (list A) :=
  top_to_line_from a (S max_width - index) index.

(** [complete_str2(count, length, res1, couple)] *)
Definition complete_str2 {A} (count length : Z) (res1 : list (list A))
    (couple : list A * nat) : result (list (list A)) :=
  if count >=? length then
    do row <- match res1 !! couple.2 with
          | Some row => Ok row | None => Raise IndexError end;
    do v <- py_index couple.1 count;
    Ok (<[couple.2 := row ++ [v]]> res1)
  else Ok res1.

(** The first loop of the downward branch of [adjoin]: it moves the
    layers of [n] to [j], longest first.  [counts] is [range(len(n))]. *)
Fixpoint longest_first {A} (counts : list nat) (n j : list (list A))
  : result (list (list A)) :=
  match counts with
  | [] => Ok j
  | _ :: counts' =>
      let temp := max_len_list n in
      match n !! temp with
      | Some x => longest_first counts' (delete temp n) (j ++ [x])
      | None => Raise IndexError
      end
  end.

(** [for s in j: self.complete_str2(count, -len(s), res1, (s, i))] *)
Fixpoint complete_row {A} (j : list (list A)) (count : Z) (i : nat)
    (res1 : list (list A)) : result (list (list A)) :=
  match j with
  | [] => Ok res1
  | s :: j' =>
      do res1 <- complete_str2 count (- Z.of_nat (length s)) res1 (s, i);
      complete_row j' count i res1
  end.

(** The second loop of the downward branch; [idxs] is
    [range(len(res1) - 1, 0, -1)]. *)
Fixpoint complete_rows {A} (idxs : list nat) (j : list (list A)) (count : Z)
    (res1 : list (list A)) : result (list (list A)) :=
  match idxs with
  | [] => Ok res1
  | i :: idxs' =>
      do res1 <- complete_row j count i res1;
      complete_rows idxs' j (count - 1) res1
  end.

(** The loop of the upward branch: [res1[i].append(l[-1][i - 1])]. *)
Fixpoint append_base {A} (idxs : list nat) (l : list (list A))
    (res1 : list (list A)) : result (list (list A)) :=
  match idxs with
  | [] => Ok res1
  | i :: idxs' =>
      do row <- match res1 !! i with
            | Some row => Ok row | None => Raise IndexError end;
      do base <- py_index l (-1);
      do v <- py_index base (Z.of_nat i - 1);
      append_base idxs' l (<[i := row ++ [v]]> res1)
  end.

(** [adjoin(l, mode)]; the result is [None] when no branch assigns
    [res1]. *)
Definition adjoin (size : Z) (l : list (list nat)) (mode : string)
  : result (option (list (list nat))) :=
  if size =? 0 then
    do l0 <- py_index l 0;
    Ok (Some (map (fun x => [x]) l0))
  else
    do res1 <-
      (if String.eqb mode "u" && (size >=? 1) then
         let upper := removelast l in
         do w <- py_max Nat.max (map length upper);
         let res1 := top_to_line upper w 0 in
         do res1 <- append_base (range 1 (length res1)) l res1;
         Ok (Some res1)
       else Ok None);
    if String.eqb mode "d" && (size >=? 1) then
      let lower := take 2 (rev l) in
      do w <- py_max Nat.max (map length lower);
      let res1 := top_to_line lower w 0 in
      let n := take (length l - 2) l in
      do j <- longest_first (range 0 (length n)) n [];
      do res1 <- complete_rows (rev (range 1 (length res1))) j (-1) res1;
      Ok (Some res1)
    else Ok res1.

(** [Board(size)], with the default [content]; the recursion of
    [generate_layers] gets [size + 2] units of fuel. *)
Definition init (size : Z) : result t :=
  do '(nodes, content) <- generate_layers (Z.to_nat size + 2) size [] 1 ([], []);
  let '(nodes, node_reference) := name_layers content nodes in
  do upw_diag <- adjoin size content "u";
  do downw_diag <- adjoin size content "d";
  do upw_leys <- generate_leys upw_diag;
  do downw_leys <- generate_leys downw_diag;
  do horiz_leys <- generate_leys (Some content);
  Ok (mk size None [] nodes content node_reference
        upw_leys downw_leys horiz_leys).

(** *** Methods *)

Definition set_data_1 (w : option string) (self : t) : t :=
  mk (data_0 self) w (moves_history self) (nodes self) (_content self)
    (node_reference self) (upw_leys self) (downw_leys self) (horiz_leys self).

Definition set_moves_history (h : list (string * string)) (self : t) : t :=
  mk (data_0 self) (data_1 self) h (nodes self) (_content self)
    (node_reference self) (upw_leys self) (downw_leys self) (horiz_leys self).

Definition set_nodes (ns : list BoardNode.t) (self : t) : t :=
  mk (data_0 self) (data_1 self) (moves_history self) ns (_content self)
    (node_reference self) (upw_leys self) (downw_leys self) (horiz_leys self).

Definition set_leys (u d h : list LeyLine.t) (self : t) : t :=
  mk (data_0 self) (data_1 self) (moves_history self) (nodes self)
    (_content self) (node_reference self) u d h.

(** The counting loops of [winner]. *)
Fixpoint count_leys (leys : list LeyLine.t) (p1_leys p2_leys : Z) : Z * Z :=
  match leys with
  | [] => (p1_leys, p2_leys)
  | x :: leys' =>
      let p1_leys :=
        match LeyLine.taken x with
        | Some p => if String.eqb p "p1" then p1_leys + 1 else p1_leys
        | None => p1_leys
        end in
      let p2_leys :=
        match LeyLine.taken x with
        | Some p => if String.eqb p "p2" then p2_leys + 1 else p2_leys
        | None => p2_leys
        end in
      count_leys leys' p1_leys p2_leys
  end.

Definition total_leys (self : t) : nat :=
  (length (upw_leys self) + length (upw_leys self)
   + length (_content self))%nat.

Definition claimed_leys (self : t) : Z * Z :=
  let '(p1_leys, p2_leys) := count_leys (upw_leys self) 0 0 in
  let '(p1_leys, p2_leys) := count_leys (downw_leys self) p1_leys p2_leys in
  count_leys (horiz_leys self) p1_leys p2_leys.

Definition winner (player : string) (self : t) : bool :=
  let total_leys := total_leys self in
  let '(p1_leys, p2_leys) := claimed_leys self in
  if String.eqb player "p1" && LeyLine.half_reached p1_leys total_leys
  then true
  else if String.eqb player "p2" && LeyLine.half_reached p2_leys total_leys
  then true
  else false.

Definition total_winner (player : string) (self : t) : bool :=
  match data_1 self with
  | Some p => String.eqb p player
  | None => false
  end.

Definition is_total_winner (player : string) (self : t) : bool :=
  match data_1 self with
  | Some p => String.eqb player p
  | None => false
  end.

Definition game_over (self : t) : bool :=
  match data_1 self with
  | Some _ => true
  | None => false
  end.

(** The three re-evaluation loops of [occupy_node]. *)
Definition calculate_all (self : t) : t :=
  let upw := map (LeyLine.calculate_positions (nodes self)) (upw_leys self) in
  let downw := map (LeyLine.calculate_positions (nodes self)) (downw_leys self) in
  let horiz := map (LeyLine.calculate_positions (nodes self)) (horiz_leys self) in
  set_leys upw downw horiz self.

(** [occupy_node(node, player)]: the receiver after the call, and the
    outcome.  The history is extended before the registry is consulted. *)
Definition occupy_node (node player : string) (self : t) : t * result unit :=
  let self := set_moves_history (moves_history self ++ [(node, player)]) self in
  match dict_get node (node_reference self) with
  | None => (self, Raise KeyError)
  | Some r =>
      let mark := if String.eqb player "p1" then 1 else 2 in
      let self :=
        set_nodes
          (<[r := BoardNode.set_value (VInt mark) (node_at (nodes self) r)]>
             (nodes self)) self in
      let self := calculate_all self in
      let self :=
        if winner player self && negb (game_over self)
        then set_data_1 (Some player) self else self in
      (self, Ok tt)
  end.

Definition occupation_possible (node : string) (self : t) : result bool :=
  match dict_get node (node_reference self) with
  | None => Raise KeyError
  | Some r =>
      let v := BoardNode.value (node_at (nodes self) r) in
      if is_int 1 v || is_int 2 v then Ok false else Ok true
  end.

(** The loop of [possible_variations] over the registry's keys. *)
Fixpoint free_nodes (keys : list string) (self : t) (res : list string)
  : result (list string) :=
  match keys with
  | [] => Ok res
  | node :: keys' =>
      do free <- occupation_possible node self;
      free_nodes keys' self (if free then res ++ [node] else res)
  end.

Definition possible_variations (self : t) : result (list string) :=
  if negb (game_over self)
  then free_nodes (map fst (node_reference self)) self []
  else Ok [].

(** The loops that [produce_copy] runs after each replayed move: the
    upward lines, then the downward lines twice. *)
Definition recalculate (self : t) : t :=
  let upw := map (LeyLine.calculate_positions (nodes self)) (upw_leys self) in
  let downw := map (LeyLine.calculate_positions (nodes self)) (downw_leys self) in
  let downw := map (LeyLine.calculate_positions (nodes self)) downw in
  set_leys upw downw (horiz_leys self) self.

Fixpoint replay (moves : list (string * string)) (new_board : t) : result t :=
  match moves with
  | [] => Ok new_board
  | move :: moves' =>
      let '(new_board, r) := occupy_node move.1 move.2 new_board in
      do _ <- r;
      replay moves' (recalculate new_board)
  end.

(** [produce_copy()]: the new board; the receiver is only read. *)
Definition produce_copy (self : t) : result t :=
  do new_board <- init (data_0 self);
  replay (moves_history self) new_board.

(** *** Helpers that no other method calls *)

(** [bottom_to_line(a, max_width, index)]: the first column under the
    strict bound, the rest through [top_to_line]. *)
Definition bottom_to_line {A} (a : list (list A)) (max_width index : nat)
  : list (list A) :=
  if Nat.ltb index max_width then
    let k := column a index in
    (match k with [] => [] | _ => [k] end)
      ++ top_to_line a max_width (S index)
  else [].

(** [find_with_value(l, value)]: the last node of [l] with that value,
    or [None]. *)
Definition find_with_value (nodes : list BoardNode.t) (l : list (list nat))
    (value : pyval) : option nat :=
  foldl
    (fun res k =>
       foldl
         (fun res u =>
            if pyval_eqb (BoardNode.value (node_at nodes u)) value
            then Some u else res)
         res k)
    None l.

(** [organize_in_structures(l1, l2)] *)
Definition organize_in_structures (nodes : list BoardNode.t)
    (l1 l2 : list (list nat)) : list (list (option nat)) :=
  map (fun x =>
         map (fun x2 =>
                find_with_value nodes l1 (BoardNode.value (node_at nodes x2)))
           x)
    l2.

(** [add_if(cell, i, result)]: the list [result] after the call. *)
Definition add_if (nodes : list BoardNode.t) (cell i : nat)
    (res : list nat) : list nat :=
  if pyval_eqb (BoardNode.value (node_at nodes cell))
       (BoardNode.value (node_at nodes i))
  then res ++ [i] else res.

(** [find_cells(cells, cont)] *)
Definition find_cells (nodes : list BoardNode.t) (cells : list nat)
    (cont : list (list nat)) : list nat :=
  foldl
    (fun res cell =>
       foldl (fun res x => foldl (fun res i => add_if nodes cell i res) res x)
         res cont)
    [] cells.

(** The loop of [generate_child_states]. *)
Fixpoint child_states (moves : list string) (player : string) (self : t)
    (states : list t) : result (list t) :=
  match moves with
  | [] => Ok states
  | move :: moves' =>
      do new_board <- produce_copy self;
      let '(new_board, r) := occupy_node move player new_board in
      do _ <- r;
      child_states moves' player self (states ++ [new_board])
  end.

(** [generate_child_states(player)]: the boards are new objects, the
    receiver is only read. *)
Definition generate_child_states (player : string) (self : t)
  : result (list t) :=
  do moves <- possible_variations self;
  child_states moves player self [].

End Board.

(** ** The object store *)

Module StonehengeState.

(** [board] is a reference into the world's [boards]. *)
Record t := mk { p1_turn : bool; size : Z; board : nat }.

End StonehengeState.

Module StonehengeGame.

Record t := mk { current_state : nat; board_size : Z }.

End StonehengeGame.

Module Tree.

(** [value] refers to a state, [children] to other trees. *)
Record t := mk {
  value : nat;
  children : list nat;
  highest_score : option Z;
  mov : string
}.

End Tree.

Record World := mkWorld {
  boards : list Board.t;
  states : list StonehengeState.t;
  trees : list Tree.t;
  game : StonehengeGame.t
}.

(** A computation on the store. *)
Definition M (A : Type) : Type := World -> World * result A.

Definition ret {A} (a : A) : M A := fun w => (w, Ok a).

Definition bindM {A B} (m : M A) (f : A -> M B) : M B :=
  fun w =>
    match m w with
    | (w', Ok a) => f a w'
    | (w', Raise e) => (w', Raise e)
    | (w', OutOfFuel) => (w', OutOfFuel)
    end.

Notation "'exec' x <- m ; k" := (bindM m (fun x => k))
  (at level 10, x name, m at level 100, k at level 200).
Notation "'exec' ' pat <- m ; k" :=
  (bindM m (fun x => match x with pat => k end))
  (at level 10, pat pattern, m at level 100, k at level 200).

Definition lift {A} (r : result A) : M A := fun w => (w, r).
Definition gets {A} (f : World -> A) : M A := fun w => (w, Ok (f w)).
Definition modify (f : World -> World) : M unit := fun w => (f w, Ok tt).

Fixpoint mapM {A B} (f : A -> M B) (l : list A) : M (list B) :=
  match l with
  | [] => ret []
  | x :: l' =>
      exec y <- f x;
      exec ys <- mapM f l';
      ret (y :: ys)
  end.

Definition no_board : Board.t := Board.mk 0 None [] [] [] [] [] [] [].
Definition no_state : StonehengeState.t := StonehengeState.mk false 0 0.
Definition no_tree : Tree.t := Tree.mk 0 [] None "".

(** The objects behind references. *)
Definition board_at (w : World) (r : nat) : Board.t :=
  default no_board (boards w !! r).
Definition state_at (w : World) (r : nat) : StonehengeState.t :=
  default no_state (states w !! r).
Definition tree_at (w : World) (r : nat) : Tree.t :=
  default no_tree (trees w !! r).

Definition set_boards (bs : list Board.t) (w : World) : World :=
  mkWorld bs (states w) (trees w) (game w).
Definition set_states (ss : list StonehengeState.t) (w : World) : World :=
  mkWorld (boards w) ss (trees w) (game w).
Definition set_trees (ts : list Tree.t) (w : World) : World :=
  mkWorld (boards w) (states w) ts (game w).
Definition set_game (g : StonehengeGame.t) (w : World) : World :=
  mkWorld (boards w) (states w) (trees w) g.

(** Object creation: the new object gets the next free reference. *)
Definition new_board (b : Board.t) : M nat :=
  fun w => (set_boards (boards w ++ [b]) w, Ok (length (boards w))).
Definition new_state (s : StonehengeState.t) : M nat :=
  fun w => (set_states (states w ++ [s]) w, Ok (length (states w))).
Definition new_tree (t : Tree.t) : M nat :=
  fun w => (set_trees (trees w ++ [t]) w, Ok (length (trees w))).

(** A [Board] method that mutates its receiver, run on the object [r]. *)
Definition on_board {A} (r : nat) (method : Board.t -> Board.t * result A)
  : M A :=
  fun w =>
    let '(b, res) := method (board_at w r) in
    (set_boards (<[r := b]> (boards w)) w, res).

(** ** stonehenge.py *)

Module Stonehenge.

Import StonehengeState StonehengeGame.

(** [StonehengeState(is_p1_turn, size)]; [GameState.__init__] stores
    [is_p1_turn] in [p1_turn]. *)
Definition StonehengeState_init (is_p1_turn : bool) (size : Z) : M nat :=
  exec b <- lift (Board.init size);
  exec board <- new_board b;
  new_state (StonehengeState.mk is_p1_turn size board).

Definition set_board (self board : nat) : M unit :=
  modify (fun w =>
    let s := state_at w self in
    set_states (<[self := StonehengeState.mk (p1_turn s) (size s) board]> (states w)) w).

Definition set_p1_turn (self : nat) (turn : bool) : M unit :=
  modify (fun w =>
    let s := state_at w self in
    set_states (<[self := StonehengeState.mk turn (size s) (board s)]> (states w)) w).

(** [self.board.possible_variations()] *)
Definition get_possible_moves (self : nat) : M (list string) :=
  fun w => (w, Board.possible_variations (board_at w (board (state_at w self)))).

(** [Board.produce_copy] as a method call on the board object [self]:
    the copy is a new object. *)
Definition produce_copy (self : nat) : M nat :=
  exec b <- gets (fun w => board_at w self);
  exec new_board_ <- lift (Board.produce_copy b);
  new_board new_board_.

Definition make_move (self : nat) (move : string) : M nat :=
  exec me <- gets (fun w => state_at w self);
  exec new_state <- StonehengeState_init (p1_turn me) (size me);
  exec me <- gets (fun w => state_at w self);
  exec copy <- produce_copy (board me);
  exec _ <- set_board new_state copy;
  exec ns <- gets (fun w => state_at w new_state);
  exec _ <-
    (if p1_turn ns
     then on_board (board ns) (Board.occupy_node move "p1")
     else on_board (board ns) (Board.occupy_node move "p2"));
  exec me <- gets (fun w => state_at w self);
  exec _ <- set_p1_turn new_state (negb (p1_turn me));
  ret new_state.

(** [StonehengeGame(p1_starts)]; the board size is what the user enters. *)
Definition StonehengeGame_init (p1_starts : bool) (board_size : Z) : M unit :=
  exec s <- StonehengeState_init p1_starts board_size;
  modify (set_game (StonehengeGame.mk s board_size)).

Definition set_current_state (s : nat) : M unit :=
  modify (fun w => set_game (StonehengeGame.mk s (board_size (game w))) w).

(** [game.is_over(state)] *)
Definition is_over (state : nat) (w : World) : bool :=
  Board.game_over (board_at w (board (state_at w state))).

(** [game.is_winner(player)] *)
Definition is_winner (player : string) (w : World) : bool :=
  Board.total_winner player
    (board_at w (board (state_at w (current_state (game w))))).

(** [shape_new_outcomes(new_children, other_player, new_outcomes)]: the
    list [new_outcomes] after the call. *)
Definition shape_new_outcomes (new_children : list nat) (other_player : string)
    (new_outcomes : list pyval) : M (list pyval) :=
  gets (fun w =>
    foldl
      (fun new_outcomes nc =>
         if Board.is_total_winner other_player
              (board_at w (board (state_at w nc)))
         then new_outcomes ++ [VStr other_player]
         else new_outcomes ++ [VInt 0])
      new_outcomes new_children).

(** The loop of [rough_outcome] over the children.  [grand_children],
    a dict with the keys 0, 1, 2, ... in this order, is the list of its
    values; [inl v] stands for the [return v] inside the loop. *)
Fixpoint rough_children (cur_player other_player : string)
    (children : list nat) (grand_children : list (list pyval))
  : M (Z + list (list pyval)) :=
  match children with
  | [] => ret (inr grand_children)
  | child :: children' =>
      exec won <-
        gets (fun w =>
          Board.is_total_winner cur_player
            (board_at w (board (state_at w child))));
      if won then ret (inl 1)
      else
        let new_outcomes := [] in
        exec new_moves <- get_possible_moves child;
        exec over <-
          gets (fun w =>
            Board.game_over (board_at w (board (state_at w child))));
        exec new_outcomes <-
          (if negb over && negb (match new_moves with [] => true | _ => false end)
           then
             exec new_children <- mapM (make_move child) new_moves;
             shape_new_outcomes new_children other_player new_outcomes
           else ret new_outcomes);
        rough_children cur_player other_player children'
          (grand_children ++ [new_outcomes])
  end.

(** [other_player in new_outcomes] *)
Definition contains (other_player : string) (new_outcomes : list pyval)
  : bool :=
  existsb (pyval_eqb (VStr other_player)) new_outcomes.

(** [rough_outcome()] *)
Definition rough_outcome (self : nat) : M Z :=
  exec me <- gets (fun w => state_at w self);
  let cur_player := if p1_turn me then "p1" else "p2" in
  let other_player := if String.eqb cur_player "p1" then "p2" else "p1" in
  exec over <- gets (fun w => Board.game_over (board_at w (board me)));
  if over then ret (-1)
  else
    exec moves <- get_possible_moves self;
    exec children <- mapM (make_move self) moves;
    exec r <- rough_children cur_player other_player children [];
    match r with
    | inl v => ret v
    | inr grand_children =>
        if forallb (contains other_player) grand_children then ret (-1)
        else if existsb (fun y => negb (contains other_player y)) grand_children
        then ret 0
        else ret 0
    end.

End Stonehenge.

(** The store before any object exists. *)
Definition empty_world : World :=
  mkWorld [] [] [] (StonehengeGame.mk 0 0).

(** ** strategy.py *)

Module Stack.

(** The top of the stack is the end of [_content]. *)
Record t := mk { _content : list nat }.

Definition init : t := mk [].

Definition add (value : nat) (self : t) : t := mk (_content self ++ [value]).

Definition is_empty (self : t) : bool :=
  Nat.eqb (length (_content self)) 0.

(** [remove()] is [self._content.pop()]. *)
Definition remove (self : t) : result (t * nat) :=
  match last (_content self) with
  | Some x => Ok (mk (removelast (_content self)), x)
  | None => Raise IndexError
  end.

Definition get_size (self : t) : nat := length (_content self).

(** [get_content()]: a copy of the list. *)
Definition get_content (self : t) : list nat := _content self.

End Stack.

Module Strategy.

Import StonehengeState StonehengeGame Stonehenge.

Definition out_of_fuel {A} : M A := lift OutOfFuel.

Definition player_of (turn : bool) : string := if turn then "p1" else "p2".

Definition other_of (cur_player : string) : string :=
  if String.eqb cur_player "p1" then "p2" else "p1".

(** [expander(game, cur_state)]; every call takes one unit of fuel. *)
Fixpoint expander (fuel : nat) (cur_state : nat) : M Z :=
  match fuel with
  | O => out_of_fuel
  | S fuel' =>
      exec _ <- set_current_state cur_state;
      exec st <- gets (fun w => state_at w cur_state);
      let cur_player := player_of (p1_turn st) in
      let other_player := other_of cur_player in
      exec over <- gets (is_over cur_state);
      if over then
        exec won <- gets (is_winner cur_player);
        if won then ret 1
        else
          exec lost <- gets (is_winner other_player);
          if lost then ret (-1) else ret 0
      else
        exec moves <- get_possible_moves cur_state;
        exec new_states <- mapM (make_move cur_state) moves;
        exec scores <-
          mapM (fun x => exec v <- expander fuel' x; ret (-1 * v)) new_states;
        lift (py_max Z.max scores)
  end.

(** The first loop of [recursive_minimax_strategy]. *)
Fixpoint resulting_pairs_loop (fuel : nat) (cur_state : nat)
    (moves : list string) (resulting_pairs : list (string * Z))
  : M (list (string * Z)) :=
  match moves with
  | [] => ret resulting_pairs
  | move :: moves' =>
      exec child <- make_move cur_state move;
      exec v <- expander fuel child;
      resulting_pairs_loop fuel cur_state moves'
        (dict_set move (-1 * v) resulting_pairs)
  end.

(** The second loop: the keys whose value is [maximum]. *)
Definition maximal_moves (resulting_pairs : list (string * Z)) (maximum : Z)
  : list string :=
  map fst (filter (fun p => p.2 = maximum) resulting_pairs).

(** [maximal[randint(0, len(maximal) - 1)]]; the random source is the
    argument [randint]. *)
Definition pick (randint : Z -> Z -> Z) (maximal : list string) : M pyval :=
  exec move <-
    lift (py_index maximal (randint 0 (Z.of_nat (length maximal) - 1)));
  ret (VStr move).

Definition recursive_minimax_strategy (randint : Z -> Z -> Z) (fuel : nat)
  : M pyval :=
  exec cur_state <- gets (fun w => current_state (game w));
  exec moves <- get_possible_moves cur_state;
  exec resulting_pairs <- resulting_pairs_loop fuel cur_state moves [];
  exec maximum <- lift (py_max Z.max (map snd resulting_pairs));
  exec _ <- set_current_state cur_state;
  let maximal := maximal_moves resulting_pairs maximum in
  match maximal with
  | _ :: _ => pick randint maximal
  | [] => ret (VInt 0)
  end.

(** The first half of [recursive_minimax_strategy]: [resulting_pairs] as
    it stands after the first loop. *)
Definition resulting_pairs (fuel : nat) : M (list (string * Z)) :=
  exec cur_state <- gets (fun w => current_state (game w));
  exec moves <- get_possible_moves cur_state;
  resulting_pairs_loop fuel cur_state moves [].

(** [[(-1) * y.highest_score for y in x.children]]; a score that is still
    [None] cannot be multiplied. *)
Definition negated_scores (x : nat) : M (list Z) :=
  exec xt <- gets (fun w => tree_at w x);
  mapM (fun y =>
          exec yt <- gets (fun w => tree_at w y);
          match Tree.highest_score yt with
          | Some v => ret (-1 * v)
          | None => lift (Raise TypeError)
          end)
       (Tree.children xt).

Definition set_highest_score (x : nat) (score : Z) : M unit :=
  modify (fun w =>
    let t := tree_at w x in
    set_trees
      (<[x := Tree.mk (Tree.value t) (Tree.children t) (Some score) (Tree.mov t)]>
         (trees w)) w).

Definition extend_children (x : nat) (new : list nat) : M unit :=
  modify (fun w =>
    let t := tree_at w x in
    set_trees
      (<[x := Tree.mk (Tree.value t) (Tree.children t ++ new)
                (Tree.highest_score t) (Tree.mov t)]>
         (trees w)) w).

(** [find_maximal(x)] *)
Definition find_maximal (x : nat) : M (list string) :=
  exec xt <- gets (fun w => tree_at w x);
  exec found <-
    mapM (fun z =>
            exec zt <- gets (fun w => tree_at w z);
            match Tree.highest_score zt with
            | Some v =>
                ret (if decide (Some (v * -1) = Tree.highest_score xt)
                     then [Tree.mov zt] else [])
            | None => lift (Raise TypeError)
            end)
         (Tree.children xt);
  ret (concat found).

(** The [while] loop of [iterative_minimax_strategy]; every pass takes
    one unit of fuel. *)
Fixpoint search_loop (randint : Z -> Z -> Z) (fuel : nat) (cur : nat)
    (s : Stack.t) : M pyval :=
  match fuel with
  | O => out_of_fuel
  | S fuel' =>
      if Stack.is_empty s then
        exec _ <- set_current_state cur;
        ret (VInt 0)
      else
        exec '(s, x) <- lift (Stack.remove s);
        exec xt <- gets (fun w => tree_at w x);
        let has_children :=
          match Tree.children xt with [] => false | _ => true end in
        if has_children && negb (String.eqb (Tree.mov xt) "Root") then
          exec scores <- negated_scores x;
          exec best <- lift (py_max Z.max scores);
          exec _ <- set_highest_score x best;
          search_loop randint fuel' cur s
        else if has_children && String.eqb (Tree.mov xt) "Root" then
          exec scores <- negated_scores x;
          exec best <- lift (py_max Z.max scores);
          exec _ <- set_highest_score x best;
          exec maximal <- find_maximal x;
          exec _ <- set_current_state cur;
          pick randint maximal
        else
          exec over <- gets (is_over (Tree.value xt));
          if over then
            exec st <- gets (fun w => state_at w (Tree.value xt));
            let cur_player := player_of (p1_turn st) in
            let other_player := other_of cur_player in
            exec _ <- set_current_state (Tree.value xt);
            exec won <- gets (is_winner cur_player);
            exec _ <-
              (if won then set_highest_score x 1
               else
                 exec lost <- gets (is_winner other_player);
                 if lost then set_highest_score x (-1)
                 else set_highest_score x 0);
            search_loop randint fuel' cur s
          else if negb has_children then
            exec moves <- get_possible_moves (Tree.value xt);
            exec new <-
              mapM (fun move =>
                      exec child <- make_move (Tree.value xt) move;
                      new_tree (Tree.mk child [] None move))
                   moves;
            exec _ <- extend_children x new;
            let s := Stack.add x s in
            let s := foldl (fun s n => Stack.add n s) s new in
            search_loop randint fuel' cur s
          else search_loop randint fuel' cur s
  end.

Definition iterative_minimax_strategy (randint : Z -> Z -> Z) (fuel : nat)
  : M pyval :=
  exec cur <- gets (fun w => current_state (game w));
  let s := Stack.init in
  exec t <- new_tree (Tree.mk cur [] None "Root");
  let s := Stack.add t s in
  search_loop randint fuel cur s.

(** The loop of [rough_outcome_strategy]. *)
Fixpoint rough_moves (current_state : nat) (moves : list string)
    (best_move : option string) (best_outcome : Z) : M (option string) :=
  match moves with
  | [] => ret best_move
  | move :: moves' =>
      exec new_state <- make_move current_state move;
      exec outcome <- rough_outcome new_state;
      let guessed_score := outcome * -1 in
      if guessed_score >? best_outcome
      then rough_moves current_state moves' (Some move) guessed_score
      else rough_moves current_state moves' best_move best_outcome
  end.

(** [rough_outcome_strategy(game)]; the result is [None] when the loop
    has not run. *)
Definition rough_outcome_strategy : M (option string) :=
  exec current_state <- gets (fun w => current_state (game w));
  exec moves <- get_possible_moves current_state;
  rough_moves current_state moves None (-2).

End Strategy.

(** * Specification vocabulary *)

(** The number of cells in [cells] that carry the mark [code]. *)
Fixpoint marks (nodes : list BoardNode.t) (code : Z) (cells : list nat) : Z :=
  match cells with
  | [] => 0
  | c :: cells' =>
      (if is_int code (BoardNode.value (node_at nodes c)) then 1 else 0)
      + marks nodes code cells'
  end.

(** The number of lines in [leys] that [player] owns. *)
Fixpoint owned (player : string) (leys : list LeyLine.t) : Z :=
  match leys with
  | [] => 0
  | x :: leys' =>
      (if decide (LeyLine.taken x = Some player) then 1 else 0)
      + owned player leys'
  end.

(** All ley-lines of a board. *)
Definition all_leys (b : Board.t) : list LeyLine.t :=
  Board.upw_leys b ++ Board.downw_leys b ++ Board.horiz_leys b.

(** [n >= 0.5 * d] over the rationals. *)
Definition at_least_half (n : Z) (d : nat) : Prop :=
  ((1 # 2) * inject_Z (Z.of_nat d) <= inject_Z n)%Q.

Definition is_player (player : string) : Prop :=
  player = "p1" \/ player = "p2".

(** The boards a program can hold: built by the constructor and then
    changed by calls of [occupy_node], whatever their arguments and
    whether they return or raise. *)
Inductive built : Board.t -> Prop :=
| built_init size b : Board.init size = Ok b -> built b
| built_occupy b node player :
    built b -> built (Board.occupy_node node player b).1.

(** What can happen to the ley-lines of a board. *)
Inductive action :=
| Occupy (node player : string)
| Evaluate.

Definition perform (b : Board.t) (a : action) : Board.t :=
  match a with
  | Occupy node player => (Board.occupy_node node player b).1
  | Evaluate => Board.calculate_all b
  end.

(** A line keeps its cells, and its owner if it has one. *)
Definition keeps_owner (l l' : LeyLine.t) : Prop :=
  LeyLine.cells l' = LeyLine.cells l
  /\ (LeyLine.taken l <> None -> LeyLine.taken l' = LeyLine.taken l).

Definition keeps_owners (b b' : Board.t) : Prop :=
  Forall2 keeps_owner (Board.upw_leys b) (Board.upw_leys b')
  /\ Forall2 keeps_owner (Board.downw_leys b) (Board.downw_leys b')
  /\ Forall2 keeps_owner (Board.horiz_leys b) (Board.horiz_leys b').

(** Sample objects: two marked cells, one for each player, and an
    unowned line through both; the fresh boards of size 0 and 1. *)
Definition two_marks : list BoardNode.t :=
  [BoardNode.mk (VInt 1) None; BoardNode.mk (VInt 2) None].

Definition shared_line : LeyLine.t := LeyLine.init [0%nat; 1%nat].

Definition board_of (size : Z) : Board.t :=
  match Board.init size with
  | Ok b => b
  | _ => no_board
  end.

(** A game that is over: on the board of size 1, player 1 has claimed A. *)
Definition finished_game : World :=
  ((exec _ <- Stonehenge.StonehengeGame_init true 1;
    exec s <- Stonehenge.make_move 0 "A";
    Stonehenge.set_current_state s) empty_world).1.

(** [plies k w0 s0 w s]: from the state [s0] in the store [w0], [k] legal
    moves made with [make_move] lead to the state [s] in the store [w]. *)
Inductive plies : nat -> World -> nat -> World -> nat -> Prop :=
| plies_O w s : plies 0 w s w s
| plies_S k w0 s0 w s moves move w' s' :
    plies k w0 s0 w s ->
    Stonehenge.get_possible_moves s w = (w, Ok moves) ->
    In move moves ->
    Stonehenge.make_move s move w = (w', Ok s') ->
    plies (S k) w0 s0 w' s'.

(** The value of every root move as the iterative search leaves it in the
    tree: the move of each child of [root] with its negated score. *)
Definition root_values (w : World) (root : nat) : list (string * Z) :=
  omap (fun c =>
          let t := tree_at w c in
          match Tree.highest_score t with
          | Some v => Some (Tree.mov t, -1 * v)
          | None => None
          end)
       (Tree.children (tree_at w root)).

(** The set from which [recursive_minimax_strategy] picks. *)
Definition recursive_maximal (pairs : list (string * Z)) : result (list string) :=
  do maximum <- py_max Z.max (map snd pairs);
  Ok (Strategy.maximal_moves pairs maximum).

(** [played size ms b]: [b] is the board of size [size] after the legal
    moves [ms]: each claims, for one of the two players, a label that
    [possible_variations] offers. *)
Inductive played (size : Z) : list (string * string) -> Board.t -> Prop :=
| played_init b : Board.init size = Ok b -> played size [] b
| played_move ms b node player moves :
    played size ms b ->
    Board.possible_variations b = Ok moves ->
    In node moves ->
    is_player player ->
    played size (ms ++ [(node, player)]) (Board.occupy_node node player b).1.

(** The states a game produces: objects of the store whose board is the
    board of their size after some legal moves. *)
Definition state_ok (w : World) (s : nat) : Prop :=
  (s < length (states w))%nat
  /\ (StonehengeState.board (state_at w s) < length (boards w))%nat
  /\ exists ms,
       played (StonehengeState.size (state_at w s)) ms
         (board_at w (StonehengeState.board (state_at w s))).

(** A layer as [generate_layers] needs it to build the next one: distinct
    nodes of the store that have no child yet. *)
Definition fresh_layer (nodes : list BoardNode.t) (res : list nat) : Prop :=
  NoDup res
  /\ Forall (fun b => (b < length nodes)%nat
                      /\ BoardNode.child (node_at nodes b) = None) res.

(** No node of the store carries a player's mark. *)
Definition unmarked (nodes : list BoardNode.t) : Prop :=
  forall r, exists s, BoardNode.value (node_at nodes r) = VStr s.

(** The widths of the layers of the board of size [n], for [n >= 1]. *)
Definition widths (n : nat) : list nat := 2%nat :: seq 3 (n - 1) ++ [n].

(** The greatest length in a list of lists. *)
Definition maxlen {A} (a : list (list A)) : nat :=
  foldr Nat.max 0%nat (map length a).

(** Every reference in the layers points into the store. *)
Definition valid (nodes : list BoardNode.t) (content : list (list nat)) : Prop :=
  Forall (Forall (fun r => (r < length nodes)%nat)) content.

(** The label that [name_layers] forms from a letter and a number of
    ticks. *)
Definition label (i a : nat) : string :=
  (default "" (Board.alphabet !! i) ++ str_repeat "'" a)%string.

(** What [name_layers] has achieved after it has named the nodes [done]:
    the registry lists them in order under distinct labels, each label
    earlier in the order of labels than the next one to be given. *)
Definition naming_inv (nodes : list BoardNode.t) (st : Board.naming)
    (done : list nat) : Prop :=
  (Board.index st <= 26)%nat
  /\ map snd (Board.registry st) = done
  /\ (forall k, In k (map fst (Board.registry st)) ->
        exists i a,
          k = label i a /\ (i < 26)%nat
          /\ (a < Board.add_on st
              \/ (a = Board.add_on st /\ i < Board.index st))%nat)
  /\ NoDup (map fst (Board.registry st))
  /\ length (Board.named_nodes st) = length nodes
  /\ unmarked (Board.named_nodes st).

(** Rows of cells as [adjoin] builds them: no row is empty and every
    cell comes from [pool]. *)
Definition rows_ok {A} (pool : list A) (rows : list (list A)) : Prop :=
  Forall (fun row => row <> [] /\ Forall (fun v => In v pool) row) rows.

(** The part of a board that never changes: the layers are there, the
    registry has distinct labels and points into the store, every
    ley-line is a non-empty row of registered cells, there are at least
    as many downward as upward lines, and one horizontal line for each
    layer. *)
Definition geometry (b : Board.t) : Prop :=
  Board._content b <> []
  /\ NoDup (map fst (Board.node_reference b))
  /\ Forall (fun e => (e.2 < length (Board.nodes b))%nat) (Board.node_reference b)
  /\ Forall (fun x =>
               LeyLine.cells x <> []
               /\ Forall (fun c => In c (map snd (Board.node_reference b)))
                    (LeyLine.cells x))
       (all_leys b)
  /\ (length (Board.upw_leys b) <= length (Board.downw_leys b))%nat
  /\ length (Board.horiz_leys b) = length (Board._content b).

(** A board on which nothing has happened yet. *)
Definition untouched (b : Board.t) : Prop :=
  unmarked (Board.nodes b)
  /\ Forall (fun x => LeyLine.taken x = None) (all_leys b)
  /\ Board.data_1 b = None
  /\ Board.moves_history b = [].

(** A cell value that is a player's mark. *)
Definition is_marked (v : pyval) : bool := is_int 1 v || is_int 2 v.

(** The number of registered cells that are claimed. *)
Fixpoint claimed_cells (nodes : list BoardNode.t) (reg : list (string * nat))
  : nat :=
  match reg with
  | [] => O
  | e :: reg' =>
      ((if is_marked (BoardNode.value (node_at nodes e.2)) then 1 else 0)
       + claimed_cells nodes reg')%nat
  end.

(** The mark that [occupy_node] writes for [player]. *)
Definition mark_of (player : string) : Z :=
  if String.eqb player "p1" then 1 else 2.

(** What holds of a board between two moves: an unowned line has no
    player at the threshold, owners are the two players, and while there
    is no winner no player owns half of the total. *)
Definition play_inv (b : Board.t) : Prop :=
  Forall (fun x =>
            LeyLine.taken x = None ->
            ~ at_least_half (marks (Board.nodes b) 1 (LeyLine.cells x))
                (length (LeyLine.cells x))
            /\ ~ at_least_half (marks (Board.nodes b) 2 (LeyLine.cells x))
                   (length (LeyLine.cells x)))
    (all_leys b)
  /\ Forall (fun x =>
               LeyLine.taken x = None \/ LeyLine.taken x = Some "p1"
               \/ LeyLine.taken x = Some "p2")
       (all_leys b)
  /\ (Board.data_1 b = None ->
      ~ at_least_half (owned "p1" (all_leys b)) (Board.total_leys b)
      /\ ~ at_least_half (owned "p2" (all_leys b)) (Board.total_leys b)).

(** [n] calls of [remove], with the values they return, in order. *)
Fixpoint pops (n : nat) (s : Stack.t) : result (Stack.t * list nat) :=
  match n with
  | O => Ok (s, [])
  | S n' =>
      do '(s, x) <- Stack.remove s;
      do '(s, xs) <- pops n' s;
      Ok (s, x :: xs)
  end.

(** The cells in a list of layers. *)
Definition cell_count (content : list (list nat)) : nat :=
  length (concat content).

#[global] Instance pyval_eq_dec : EqDecision pyval.
Proof. solve_decision. Defined.

(** The value of the node behind a reference. *)
Definition value_at (nodes : list BoardNode.t) (u : nat) : pyval :=
  BoardNode.value (node_at nodes u).

(** The nodes of [l] whose value is [v], in the order of [l]. *)
Definition with_value (nodes : list BoardNode.t) (v : pyval) (l : list nat)
  : list nat :=
  List.filter (fun u => pyval_eqb (value_at nodes u) v) l.

(** The label of the [k]-th cell that is named: the letters in turn,
    with one more tick each time the alphabet is used up. *)
Definition nth_label (k : nat) : string := label (k mod 26) (k / 26).

(** What [name_layers] has achieved after [n] cells, as to the labels. *)
Definition labelled (st : Board.naming) (n : nat) : Prop :=
  map fst (Board.registry st) = map nth_label (seq 0 n)
  /\ (n = 0%nat /\ Board.index st = 0%nat /\ Board.add_on st = 0%nat
      \/ (0 < n)%nat /\ Board.index st = S ((n - 1) mod 26)
         /\ Board.add_on st = ((n - 1) / 26)%nat).

(** [grows w w']: the store [w'] has the objects of [w], unchanged, and
    maybe more states and boards; the game has its board size still. *)
Definition grows (w w' : World) : Prop :=
  states w `prefix_of` states w'
  /\ boards w `prefix_of` boards w'
  /\ trees w' = trees w
  /\ StonehengeGame.board_size (game w') = StonehengeGame.board_size (game w).

(** The state [s] of the store is a state of the game, with the turn
    [turn] and the board [b]. *)
Definition is_state (w : World) (s : nat) (turn : bool) (b : Board.t) : Prop :=
  state_ok w s
  /\ StonehengeState.p1_turn (state_at w s) = turn
  /\ board_at w (StonehengeState.board (state_at w s)) = b.

(** The moves that a board offers. *)
Definition moves_of (b : Board.t) : list string :=
  match Board.possible_variations b with
  | Ok moves => moves
  | _ => []
  end.

(** The board after [player] has claimed [m]. *)
Definition after (player : string) (b : Board.t) (m : string) : Board.t :=
  (Board.occupy_node m player b).1.

(** The move [m] makes [player] the winner. *)
Definition wins_with (player : string) (b : Board.t) (m : string) : bool :=
  Board.is_total_winner player (after player b m).

(** The value of [rough_outcome] in terms of the board alone: lost when
    the game is over, won when a move wins at once, lost when the
    opponent has a winning answer to every move, and open otherwise. *)
Definition rough_value (turn : bool) (b : Board.t) : Z :=
  let cur := Strategy.player_of turn in
  let other := Strategy.player_of (negb turn) in
  if Board.game_over b then -1
  else if existsb (wins_with cur b) (moves_of b) then 1
  else if forallb
            (fun m => existsb (wins_with other (after cur b m))
                        (moves_of (after cur b m)))
            (moves_of b)
  then -1
  else 0.

(** The guess of [rough_outcome_strategy] for a move: the rough value
    of the state it leads to, negated. *)
Definition guessed_score (turn : bool) (b : Board.t) (m : string) : Z :=
  rough_value (negb turn) (after (Strategy.player_of turn) b m) * -1.

(** A state in the course of a game: if its board has a winner, it is
    the player who has just moved. *)
Definition in_play (w : World) (s : nat) : Prop :=
  exists turn b,
    is_state w s turn b
    /\ forall p, Board.data_1 b = Some p -> p = Strategy.player_of (negb turn).

(** What [shape_new_outcomes] records for a board on which [other] is
    to move: for each move, whether it wins at once. *)
Definition answers (other : string) (b : Board.t) : list pyval :=
  map (fun m => if wins_with other b m then VStr other else VInt 0)
    (moves_of b).

(** The move that the loop of [rough_outcome_strategy] settles on:
    the first of the moves with the greatest guess. *)
Fixpoint best_of (score : string -> Z) (moves : list string)
    (best_move : option string) (best_outcome : Z) : option string :=
  match moves with
  | [] => best_move
  | move :: moves' =>
      if score move >? best_outcome
      then best_of score moves' (Some move) (score move)
      else best_of score moves' best_move best_outcome
  end.

(** The number of cells of a board that are not claimed. *)
Definition free_cells (b : Board.t) : nat :=
  (length (Board.node_reference b)
   - claimed_cells (Board.nodes b) (Board.node_reference b))%nat.

(** The length of the [i]-th list of [l]. *)
Definition len_at {A} (l : list (list A)) (i : nat) : nat :=
  length (default [] (l !! i)).

(** Lists in the order of their lengths, the longest first. *)
Definition longest_to_shortest {A} (j : list (list A)) : Prop :=
  StronglySorted (fun x y => (length y <= length x)%nat) j.





(** [reaches w w']: the store [w'] has the states and boards of [w],
    unchanged, and all its trees, which may have changed; the game has
    its board size still. *)
Definition reaches (w w' : World) : Prop :=
  states w `prefix_of` states w'
  /\ boards w `prefix_of` boards w'
  /\ (length (trees w) <= length (trees w'))%nat
  /\ StonehengeGame.board_size (game w') = StonehengeGame.board_size (game w).




(** * Verification *)

(** ** Arithmetic of the thresholds *)

Lemma half_reached_spec number len :
  LeyLine.half_reached number len = true <-> at_least_half number len.
Proof. unfold LeyLine.half_reached, at_least_half. apply Qle_bool_iff. Qed.

Lemma at_least_half_Z number len :
  at_least_half number len <-> Z.of_nat len <= 2 * number.
Proof.
  unfold at_least_half, Qle. cbn.
  rewrite Z.mul_1_r. destruct (Z.of_nat len); cbn; lia.
Qed.

Lemma half_reached_Z number len :
  LeyLine.half_reached number len = true <-> Z.of_nat len <= 2 * number.
Proof. rewrite half_reached_spec. apply at_least_half_Z. Qed.

Lemma half_reached_false number len :
  LeyLine.half_reached number len = false <-> 2 * number < Z.of_nat len.
Proof.
  destruct (LeyLine.half_reached number len) eqn:E.
  - apply half_reached_Z in E. split; [discriminate | lia].
  - split; [intros _ | reflexivity].
    destruct (Z.lt_ge_cases (2 * number) (Z.of_nat len)) as [H | H]; [exact H |].
    apply half_reached_Z in H. congruence.
Qed.

(** ** Ley-line evaluation *)

Lemma count_cells_marks nodes cells p1 p2 :
  LeyLine.count_cells nodes cells p1 p2
  = (p1 + marks nodes 1 cells, p2 + marks nodes 2 cells).
Proof.
  revert p1 p2. induction cells as [| c cells IH]; intros p1 p2; cbn.
  - f_equal; lia.
  - rewrite IH.
    destruct (is_int 1 _), (is_int 2 _); f_equal; lia.
Qed.

Lemma calculate_positions_cells nodes l :
  LeyLine.cells (LeyLine.calculate_positions nodes l) = LeyLine.cells l.
Proof.
  unfold LeyLine.calculate_positions.
  destruct (LeyLine.taken l); [reflexivity |].
  rewrite count_cells_marks.
  repeat (destruct (LeyLine.half_reached _ _); cbn); reflexivity.
Qed.

Lemma calculate_positions_owned nodes l :
  LeyLine.taken l <> None -> LeyLine.calculate_positions nodes l = l.
Proof.
  unfold LeyLine.calculate_positions.
  destruct (LeyLine.taken l); [reflexivity | congruence].
Qed.

Lemma calculate_positions_keeps nodes l :
  keeps_owner l (LeyLine.calculate_positions nodes l).
Proof.
  split; [apply calculate_positions_cells |].
  intros H. now rewrite calculate_positions_owned.
Qed.

Lemma calculate_positions_unowned nodes l :
  LeyLine.taken l = None ->
  LeyLine.taken (LeyLine.calculate_positions nodes l)
  = if LeyLine.half_reached (marks nodes 2 (LeyLine.cells l))
         (length (LeyLine.cells l))
    then Some "p2"
    else if LeyLine.half_reached (marks nodes 1 (LeyLine.cells l))
              (length (LeyLine.cells l))
         then Some "p1" else None.
Proof.
  intros H. unfold LeyLine.calculate_positions. rewrite H.
  rewrite count_cells_marks, !Z.add_0_l.
  destruct (LeyLine.half_reached (marks nodes 1 _) _) eqn:E1; cbn;
    destruct (LeyLine.half_reached (marks nodes 2 _) _) eqn:E2; cbn;
    rewrite ?E2; cbn; congruence.
Qed.

(** C4, as the code has it: an owned line is left alone; an unowned line
    goes to player 2 exactly when player 2 marks at least half of the
    cells, and to player 1 exactly when player 1 does and player 2 does
    not.  The threshold [c >= n / 2] is the one over the rationals, that
    is [n <= 2 * c]. *)
Theorem calculate_positions_assigns (nodes : list BoardNode.t) (l : LeyLine.t) :
  let n := length (LeyLine.cells l) in
  let c1 := marks nodes 1 (LeyLine.cells l) in
  let c2 := marks nodes 2 (LeyLine.cells l) in
  let l' := LeyLine.calculate_positions nodes l in
  (LeyLine.taken l = None /\ LeyLine.taken l' = Some "p2"
   <-> LeyLine.taken l = None /\ at_least_half c2 n)
  /\ (LeyLine.taken l = None /\ LeyLine.taken l' = Some "p1"
      <-> LeyLine.taken l = None /\ at_least_half c1 n /\ ~ at_least_half c2 n)
  /\ (LeyLine.taken l = None /\ LeyLine.taken l' = None
      <-> LeyLine.taken l = None /\ ~ at_least_half c1 n /\ ~ at_least_half c2 n)
  /\ (is_Some (LeyLine.taken l) <-> is_Some (LeyLine.taken l) /\ l' = l)
  /\ (at_least_half c1 n <-> Z.of_nat n <= 2 * c1)
  /\ (at_least_half c2 n <-> Z.of_nat n <= 2 * c2).
Proof.
  intros n c1 c2 l'.
  pose proof (calculate_positions_unowned nodes l) as Hun.
  fold n c1 c2 l' in Hun.
  split; [| split; [| split; [| split; [| split]]]];
    try apply at_least_half_Z.
  4:{ split; [intros Hs; split; [exact Hs |] | intros [Hs _]; exact Hs].
      apply calculate_positions_owned. destruct Hs as [p Hp]. congruence. }
  all: rewrite <- !half_reached_spec;
    split; intros [Hn H]; (split; [exact Hn |]);
    rewrite ?(Hun Hn) in *;
    destruct (LeyLine.half_reached c2 n), (LeyLine.half_reached c1 n);
    try discriminate; try reflexivity; intuition congruence.
Qed.

(** C4 as stated fails: on an unowned line where both players reach the
    threshold in the same evaluation, player 1 does not get the line. *)
Lemma calculate_positions_both_reach :
  ~ (LeyLine.taken shared_line = None ->
     at_least_half (marks two_marks 1 (LeyLine.cells shared_line)) 2 ->
     at_least_half (marks two_marks 2 (LeyLine.cells shared_line)) 2 ->
     LeyLine.taken (LeyLine.calculate_positions two_marks shared_line)
     = Some "p1").
Proof.
  intros H.
  assert (E : LeyLine.taken (LeyLine.calculate_positions two_marks shared_line)
              = Some "p2") by reflexivity.
  rewrite H in E; [discriminate | reflexivity | |];
    apply at_least_half_Z; cbn; lia.
Qed.

(** ** Ley-lines keep their owner *)

Lemma keeps_owner_refl l : keeps_owner l l.
Proof. split; auto. Qed.

Lemma keeps_owner_trans l1 l2 l3 :
  keeps_owner l1 l2 -> keeps_owner l2 l3 -> keeps_owner l1 l3.
Proof.
  intros [C1 T1] [C2 T2]. split; [congruence |].
  intros H. rewrite T2; rewrite T1; auto.
Qed.

Lemma keeps_owner_all_refl ls : Forall2 keeps_owner ls ls.
Proof. induction ls; constructor; auto using keeps_owner_refl. Qed.

Lemma keeps_owner_all_trans ls1 ls2 ls3 :
  Forall2 keeps_owner ls1 ls2 -> Forall2 keeps_owner ls2 ls3 ->
  Forall2 keeps_owner ls1 ls3.
Proof.
  intros H. revert ls3. induction H; intros ls3 H3; inversion H3; subst;
    constructor; eauto using keeps_owner_trans.
Qed.

Lemma keeps_owner_map nodes ls :
  Forall2 keeps_owner ls (map (LeyLine.calculate_positions nodes) ls).
Proof.
  induction ls; cbn; constructor; auto using calculate_positions_keeps.
Qed.

Lemma keeps_owners_refl b : keeps_owners b b.
Proof. repeat split; apply keeps_owner_all_refl. Qed.

Lemma keeps_owners_trans b1 b2 b3 :
  keeps_owners b1 b2 -> keeps_owners b2 b3 -> keeps_owners b1 b3.
Proof.
  intros (U1 & D1 & H1) (U2 & D2 & H2).
  repeat split; eauto using keeps_owner_all_trans.
Qed.

Lemma calculate_all_keeps b : keeps_owners b (Board.calculate_all b).
Proof. repeat split; cbn; apply keeps_owner_map. Qed.

Lemma occupy_node_keeps node player b :
  keeps_owners b (Board.occupy_node node player b).1.
Proof.
  unfold Board.occupy_node. cbn.
  destruct (dict_get node (Board.node_reference b)) as [r |]; cbn.
  - match goal with |- context [if ?c then _ else _] => destruct c end;
      repeat split; cbn; apply keeps_owner_map.
  - repeat split; cbn; apply keeps_owner_all_refl.
Qed.

(** C5: once a ley-line has an owner, neither a re-evaluation of the line
    nor any sequence of [occupy_node] calls and re-evaluations of the
    board changes it. *)
Theorem owner_never_changes (nodes : list BoardNode.t) (l : LeyLine.t)
    (b : Board.t) (actions : list action) :
  keeps_owner l (LeyLine.calculate_positions nodes l)
  /\ keeps_owners b (foldl perform b actions).
Proof.
  split; [apply calculate_positions_keeps |].
  revert b. induction actions as [| a actions IH]; intros b; cbn.
  - apply keeps_owners_refl.
  - eapply keeps_owners_trans; [| apply IH].
    destruct a; cbn; auto using occupy_node_keeps, calculate_all_keeps.
Qed.

(** ** The failing path of [occupy_node] *)

Lemma dict_get_None {V} k (d : list (string * V)) :
  dict_get k d = None <-> ~ In k (map fst d).
Proof.
  induction d as [| [k' v] d IH]; cbn.
  - tauto.
  - destruct (String.eqb_spec k k') as [-> | Hne].
    + split; [discriminate | tauto].
    + rewrite IH. split; [intros H [E | Hin]; congruence || tauto | tauto].
Qed.

(** C10: for a label that is not in the registry, [occupy_node] raises
    [KeyError] after it has extended the history: the board is left as it
    was except for one more history entry, for a move no cell has seen. *)
Theorem occupy_node_unknown_label (b : Board.t) (node player : string) :
  ~ In node (map fst (Board.node_reference b)) ->
  Board.occupy_node node player b
  = (Board.set_moves_history (Board.moves_history b ++ [(node, player)]) b,
     Raise KeyError)
  /\ Board.nodes (Board.occupy_node node player b).1 = Board.nodes b
  /\ Board.moves_history (Board.occupy_node node player b).1
     = Board.moves_history b ++ [(node, player)].
Proof.
  intros H. apply dict_get_None in H.
  unfold Board.occupy_node. cbn. rewrite H. auto.
Qed.

Lemma occupy_node_unknown_label_witness :
  ~ In "C" (map fst (Board.node_reference (board_of 0)))
  /\ Board.occupy_node "C" "p1" (board_of 0)
     = (Board.set_moves_history [("C", "p1")] (board_of 0), Raise KeyError).
Proof.
  assert (H : ~ In "C" (map fst (Board.node_reference (board_of 0)))).
  { vm_compute. intros [H | [H | []]]; discriminate. }
  split; [exact H |].
  exact (proj1 (occupy_node_unknown_label (board_of 0) "C" "p1" H)).
Defined.

(** ** What the constructor and [occupy_node] leave fixed *)

Lemma bind_Ok {A B} (m : result A) (f : A -> result B) b :
  bind m f = Ok b -> exists a, m = Ok a /\ f a = Ok b.
Proof. destruct m; cbn; intros H; try discriminate. eauto. Qed.

Lemma generate_leys_Ok l leys :
  Board.generate_leys l = Ok leys ->
  exists rows, l = Some rows /\ leys = map LeyLine.init rows.
Proof. destruct l; cbn; intros H; inversion H; eauto. Qed.

(** The shape of a constructed board. *)
Lemma init_inv size b :
  Board.init size = Ok b ->
  exists nodes0 content upw downw,
    Board.generate_layers (Z.to_nat size + 2) size [] 1 ([], [])
    = Ok (nodes0, content)
    /\ Board.adjoin size content "u" = Ok (Some upw)
    /\ Board.adjoin size content "d" = Ok (Some downw)
    /\ b = Board.mk size None [] (Board.name_layers content nodes0).1 content
             (Board.name_layers content nodes0).2
             (map LeyLine.init upw) (map LeyLine.init downw)
             (map LeyLine.init content).
Proof.
  unfold Board.init. intros H.
  apply bind_Ok in H as ([nodes0 content] & Hg & H).
  destruct (Board.name_layers content nodes0) as [nodes registry] eqn:Hn.
  apply bind_Ok in H as (u & Hu & H).
  apply bind_Ok in H as (d & Hd & H).
  apply bind_Ok in H as (ul & Hul & H).
  apply bind_Ok in H as (dl & Hdl & H).
  apply bind_Ok in H as (hl & Hhl & H).
  apply generate_leys_Ok in Hul as (upw & -> & ->).
  apply generate_leys_Ok in Hdl as (downw & -> & ->).
  apply generate_leys_Ok in Hhl as (rows & Hr & ->).
  inversion Hr; subst rows. inversion H; subst b.
  exists nodes0, content, upw, downw. rewrite Hn. cbn. repeat split; assumption.
Qed.

Lemma init_horiz_length size b :
  Board.init size = Ok b ->
  length (Board.horiz_leys b) = length (Board._content b).
Proof.
  intros H. apply init_inv in H as (? & ? & ? & ? & _ & _ & _ & ->).
  cbn. apply length_map.
Qed.

(** [occupy_node] changes marks, owners, the winner and the history, and
    nothing else. *)
Lemma occupy_node_static node player b :
  let b' := (Board.occupy_node node player b).1 in
  Board.data_0 b' = Board.data_0 b
  /\ Board._content b' = Board._content b
  /\ Board.node_reference b' = Board.node_reference b
  /\ map LeyLine.cells (Board.upw_leys b') = map LeyLine.cells (Board.upw_leys b)
  /\ map LeyLine.cells (Board.downw_leys b')
     = map LeyLine.cells (Board.downw_leys b)
  /\ map LeyLine.cells (Board.horiz_leys b')
     = map LeyLine.cells (Board.horiz_leys b)
  /\ Board.moves_history b' = Board.moves_history b ++ [(node, player)].
Proof.
  assert (Hm : forall nodes ls,
             map LeyLine.cells (map (LeyLine.calculate_positions nodes) ls)
             = map LeyLine.cells ls).
  { intros nodes ls. rewrite map_map. apply map_ext.
    intros l. apply calculate_positions_cells. }
  unfold Board.occupy_node. cbn.
  destruct (dict_get node (Board.node_reference b)) as [r |]; cbn.
  - match goal with |- context [if ?c then _ else _] => destruct c end;
      cbn; rewrite !Hm; auto 10.
  - auto 10.
Qed.

Lemma built_horiz_length b :
  built b -> length (Board.horiz_leys b) = length (Board._content b).
Proof.
  induction 1 as [size b H | b node player _ IH].
  - eapply init_horiz_length; eauto.
  - destruct (occupy_node_static node player b) as (_ & Hc & _ & _ & _ & Hh & _).
    rewrite Hc, <- IH, <- (length_map LeyLine.cells), Hh.
    apply length_map.
Qed.

(** ** The winner check *)

Lemma count_leys_owned leys p1 p2 :
  Board.count_leys leys p1 p2 = (p1 + owned "p1" leys, p2 + owned "p2" leys).
Proof.
  revert p1 p2. induction leys as [| x leys IH]; intros p1 p2; cbn.
  - f_equal; lia.
  - rewrite IH. destruct (LeyLine.taken x) as [p |].
    + destruct (String.eqb_spec p "p1") as [E1 | E1],
               (String.eqb_spec p "p2") as [E2 | E2];
        destruct (decide (Some p = Some "p1")) as [D1 | D1],
                 (decide (Some p = Some "p2")) as [D2 | D2];
        try congruence; f_equal; lia.
    + repeat (destruct (decide _) as [E | E]; [discriminate |]). f_equal; lia.
Qed.

Lemma owned_app player ls1 ls2 :
  owned player (ls1 ++ ls2) = owned player ls1 + owned player ls2.
Proof. induction ls1; cbn; lia. Qed.

Lemma claimed_leys_owned b :
  Board.claimed_leys b = (owned "p1" (all_leys b), owned "p2" (all_leys b)).
Proof.
  unfold Board.claimed_leys, all_leys.
  rewrite !count_leys_owned, !owned_app. f_equal; lia.
Qed.

Lemma winner_spec player b :
  is_player player ->
  Board.winner player b
  = LeyLine.half_reached (owned player (all_leys b)) (Board.total_leys b).
Proof.
  unfold Board.winner. rewrite claimed_leys_owned.
  intros [-> | ->]; cbn;
    destruct (LeyLine.half_reached _ _); reflexivity.
Qed.

(** C3: the total that the winner check uses is twice the number of
    upward lines plus the number of horizontal lines, and a player is the
    winner exactly when the number of lines the player owns is at least
    half of that total. *)
Theorem winner_threshold (b : Board.t) :
  built b ->
  Z.of_nat (Board.total_leys b)
  = 2 * Z.of_nat (length (Board.upw_leys b))
    + Z.of_nat (length (Board.horiz_leys b))
  /\ forall player,
       is_player player ->
       (Board.winner player b = true
        <-> at_least_half (owned player (all_leys b)) (Board.total_leys b)).
Proof.
  intros Hb. split.
  - unfold Board.total_leys. rewrite (built_horiz_length b Hb). lia.
  - intros player Hp. rewrite (winner_spec player b Hp).
    apply half_reached_spec.
Qed.

Lemma winner_threshold_witness :
  built (board_of 1)
  /\ Z.of_nat (Board.total_leys (board_of 1)) = 6
  /\ Board.winner "p1" (board_of 1) = false.
Proof.
  assert (Hb : built (board_of 1)) by (apply (built_init 1); reflexivity).
  split; [exact Hb |].
  split.
  - rewrite (proj1 (winner_threshold (board_of 1) Hb)). reflexivity.
  - reflexivity.
Defined.

(** ** The smallest boards *)

(** C6 as stated fails: the board of size 0 does not have the cells and
    the moves A, B, C. *)
Lemma size_0_not_three_cells :
  ~ (exists b,
        Board.init 0 = Ok b
        /\ map fst (Board.node_reference b) = ["A"; "B"; "C"]
        /\ Board.possible_variations b = Ok ["A"; "B"; "C"]).
Proof.
  intros (b & Hb & Hk & _).
  vm_compute in Hb. inversion Hb; subst b. discriminate Hk.
Qed.

(** C6, as the code has it: a fresh board of size 0 has exactly the two
    cells A and B and the moves [A, B]; once A is claimed for player 1,
    [occupation_possible('A')] is false; once both cells are claimed for
    player 1, player 1 is the total winner.  The board with the three
    cells A, B, C is the one of size 1, and there too claiming A for
    player 1 blocks A, and claiming all three cells for player 1 makes
    player 1 the total winner. *)
Theorem size_0_scenario :
  (exists b,
      Board.init 0 = Ok b
      /\ length (Board.nodes b) = 2%nat
      /\ Board.node_reference b = [("A", 0%nat); ("B", 1%nat)]
      /\ Board.possible_variations b = Ok ["A"; "B"]
      /\ Board.occupation_possible "A" (perform b (Occupy "A" "p1")) = Ok false
      /\ Board.total_winner "p1"
           (foldl perform b [Occupy "A" "p1"; Occupy "B" "p1"]) = true)
  /\ (exists b,
         Board.init 1 = Ok b
         /\ length (Board.nodes b) = 3%nat
         /\ Board.node_reference b = [("A", 0%nat); ("B", 1%nat); ("C", 2%nat)]
         /\ Board.possible_variations b = Ok ["A"; "B"; "C"]
         /\ Board.occupation_possible "A" (perform b (Occupy "A" "p1"))
            = Ok false
         /\ Board.total_winner "p1"
              (foldl perform b
                 [Occupy "A" "p1"; Occupy "B" "p1"; Occupy "C" "p1"]) = true).
Proof.
  split; eexists; (split; [vm_compute; reflexivity |]);
    repeat split; vm_compute; reflexivity.
Qed.

(** ** Search over a game that is over *)

Section Terminal.

Import Stonehenge Strategy.

Lemma possible_variations_over b :
  Board.game_over b = true -> Board.possible_variations b = Ok [].
Proof. unfold Board.possible_variations. now intros ->. Qed.

Lemma get_possible_moves_over s w :
  is_over s w = true -> get_possible_moves s w = (w, Ok []).
Proof.
  unfold is_over, get_possible_moves. intros H.
  now rewrite possible_variations_over.
Qed.

(** The recursive form stops at [max] of no values. *)
Lemma recursive_on_terminal randint fuel w :
  is_over (StonehengeGame.current_state (game w)) w = true ->
  recursive_minimax_strategy randint fuel w = (w, Raise ValueError).
Proof.
  intros H. unfold recursive_minimax_strategy, bindM, gets.
  rewrite (get_possible_moves_over _ _ H). reflexivity.
Qed.

Lemma tree_at_new w t :
  tree_at (set_trees (trees w ++ [t]) w) (length (trees w)) = t.
Proof.
  unfold tree_at. cbn. rewrite lookup_app_r by lia.
  now rewrite Nat.sub_diag.
Qed.

Lemma bindM_gets {A B} (f : World -> A) (k : A -> M B) w :
  bindM (gets f) k w = k (f w) w.
Proof. reflexivity. Qed.

Lemma bindM_modify {B} (f : World -> World) (k : unit -> M B) w :
  bindM (modify f) k w = k tt (f w).
Proof. reflexivity. Qed.

Lemma bindM_lift_Ok {A B} (a : A) (k : A -> M B) w :
  bindM (lift (Ok a)) k w = k a w.
Proof. reflexivity. Qed.

Lemma bindM_new_tree {B} t (k : nat -> M B) w :
  bindM (new_tree t) k w = k (length (trees w)) (set_trees (trees w ++ [t]) w).
Proof. reflexivity. Qed.

(** One pass of the loop over an unexpanded node whose game is over. *)
Lemma search_loop_scores_leaf randint fuel cur s s' x w :
  Stack.remove s = Ok (s', x) ->
  Tree.children (tree_at w x) = [] ->
  is_over (Tree.value (tree_at w x)) w = true ->
  exists w',
    search_loop randint (S fuel) cur s w = search_loop randint fuel cur s' w'
    /\ boards w' = boards w /\ states w' = states w
    /\ StonehengeGame.board_size (game w') = StonehengeGame.board_size (game w).
Proof.
  intros Hs Hc Ho.
  assert (He : Stack.is_empty s = false).
  { destruct s as [c]. unfold Stack.remove in Hs. unfold Stack.is_empty. cbn in *.
    destruct c; [discriminate | reflexivity]. }
  cbn [search_loop]. rewrite He, Hs, bindM_lift_Ok, bindM_gets, Hc.
  cbn [andb]. rewrite bindM_gets, Ho, bindM_gets.
  unfold set_current_state. rewrite bindM_modify, bindM_gets.
  destruct (is_winner _ _).
  - unfold set_highest_score. rewrite bindM_modify. eexists; split; [reflexivity |].
    cbn. auto.
  - unfold bindM at 1.
    rewrite bindM_gets.
    destruct (is_winner _ _); unfold set_highest_score, modify;
      eexists; (split; [reflexivity |]); cbn; auto.
Qed.

Lemma search_loop_empty randint fuel cur w :
  search_loop randint (S fuel) cur (Stack.mk []) w
  = (set_game (StonehengeGame.mk cur (StonehengeGame.board_size (game w))) w,
     Ok (VInt 0)).
Proof. reflexivity. Qed.

(** The iterative form scores the root and leaves the loop with [0]. *)
Lemma iterative_on_terminal randint fuel w :
  is_over (StonehengeGame.current_state (game w)) w = true ->
  (iterative_minimax_strategy randint (S (S fuel)) w).2 = Ok (VInt 0)
  /\ game (iterative_minimax_strategy randint (S (S fuel)) w).1 = game w.
Proof.
  intros H.
  set (cur := StonehengeGame.current_state (game w)) in *.
  set (w1 := set_trees (trees w ++ [Tree.mk cur [] None "Root"]) w).
  assert (Ht : tree_at w1 (length (trees w)) = Tree.mk cur [] None "Root")
    by apply tree_at_new.
  unfold iterative_minimax_strategy.
  rewrite bindM_gets, bindM_new_tree. fold cur. fold w1.
  destruct (search_loop_scores_leaf randint (S fuel) cur
              (Stack.add (length (trees w)) Stack.init) (Stack.mk [])
              (length (trees w)) w1) as (w' & -> & _ & _ & Hg).
  - reflexivity.
  - now rewrite Ht.
  - rewrite Ht. exact H.
  - rewrite search_loop_empty. cbn. rewrite Hg. subst cur w1. cbn.
    destruct (game w); auto.
Qed.

(** C2 at a game that is over (size 1, player 1 has claimed A): the
    iterative form returns the sentinel [0]; the recursive form raises
    [ValueError] from [max] of an empty sequence, before it reaches its
    own [return 0]. *)
Theorem recursive_raises_on_finished_game :
  is_over (StonehengeGame.current_state (game finished_game)) finished_game = true
  /\ (get_possible_moves (StonehengeGame.current_state (game finished_game))
        finished_game).2 = Ok []
  /\ (forall randint fuel,
        (recursive_minimax_strategy randint fuel finished_game).2
        = Raise ValueError)
  /\ (forall randint fuel,
        (iterative_minimax_strategy randint (S (S fuel)) finished_game).2
        = Ok (VInt 0)).
Proof.
  assert (H : is_over (StonehengeGame.current_state (game finished_game))
                finished_game = true) by (vm_compute; reflexivity).
  split; [exact H |]. split; [| split].
  - now rewrite (get_possible_moves_over _ _ H).
  - intros randint fuel. now rewrite (recursive_on_terminal randint fuel _ H).
  - intros randint fuel. apply (iterative_on_terminal randint fuel _ H).
Qed.

End Terminal.

(** ** Agreement of the two searches on the boards of size 0 and 1 *)

Section Agreement.

Import Stonehenge Strategy.

Lemma plies_O_inv w0 s0 w s : plies 0 w0 s0 w s -> w = w0 /\ s = s0.
Proof. inversion 1; auto. Qed.

Lemma plies_S_inv k w0 s0 w' s' :
  plies (S k) w0 s0 w' s' ->
  exists w s moves move,
    plies k w0 s0 w s
    /\ get_possible_moves s w = (w, Ok moves)
    /\ In move moves
    /\ make_move s move w = (w', Ok s').
Proof. inversion 1; subst; eauto 10. Qed.

(** On these boards the first move already ends the game. *)
Lemma first_ply_ends size p1_starts w0 w s :
  size = 0 \/ size = 1 ->
  StonehengeGame_init p1_starts size empty_world = (w0, Ok tt) ->
  plies 1 w0 (StonehengeGame.current_state (game w0)) w s ->
  is_over s w = true.
Proof.
  intros Hsize Hinit Hp.
  apply plies_S_inv in Hp as (w1 & s1 & moves & move & Hp & Hm & Hin & Hmv).
  apply plies_O_inv in Hp as [-> ->].
  destruct Hsize as [-> | ->], p1_starts;
    vm_compute in Hinit; inversion Hinit; subst w0; clear Hinit;
    vm_compute in Hm; inversion Hm; subst moves; clear Hm;
    repeat (destruct Hin as [<- | Hin]; [| try contradiction]);
    vm_compute in Hmv; inversion Hmv; subst; reflexivity.
Qed.

Lemma only_the_start size p1_starts k w0 w s :
  size = 0 \/ size = 1 ->
  StonehengeGame_init p1_starts size empty_world = (w0, Ok tt) ->
  plies k w0 (StonehengeGame.current_state (game w0)) w s ->
  (k <= 2)%nat ->
  is_over s w = false ->
  w = w0 /\ s = StonehengeGame.current_state (game w0).
Proof.
  intros Hsize Hinit Hp Hk Hover.
  destruct k as [| [| [| k]]]; [| | | lia].
  - now apply plies_O_inv in Hp.
  - rewrite (first_ply_ends size p1_starts w0 w s) in Hover by assumption.
    discriminate.
  - apply plies_S_inv in Hp as (w1 & s1 & moves & move & Hp & Hm & Hin & _).
    apply (first_ply_ends size p1_starts) in Hp; [| assumption ..].
    rewrite (get_possible_moves_over _ _ Hp) in Hm.
    inversion Hm; subst moves. contradiction.
Qed.

Lemma pick_world randint maximal w : (pick randint maximal w).1 = w.
Proof. unfold pick, bindM, lift. destruct (py_index _ _); reflexivity. Qed.

Lemma pick_result randint maximal w w' :
  (pick randint maximal w).2 = (pick randint maximal w').2.
Proof. unfold pick, bindM, lift. destruct (py_index _ _); reflexivity. Qed.

(** C1: for a game whose current state is a state of a board of size 0
    or 1 that is not over and lies within two plies of the start, the two
    searches give every root move the same value (the recursive one in
    [resulting_pairs], the iterative one in the scores of the root's
    children), select the same maximal moves, return the same move for the
    same random draw, and leave the game at its current state. *)
Theorem search_agreement (size : Z) (p1_starts : bool) (k : nat)
    (w0 w : World) (s : nat) :
  size = 0 \/ size = 1 ->
  StonehengeGame_init p1_starts size empty_world = (w0, Ok tt) ->
  plies k w0 (StonehengeGame.current_state (game w0)) w s ->
  (k <= 2)%nat ->
  is_over s w = false ->
  let g := (set_current_state s w).1 in
  exists pairs maximal,
    recursive_maximal pairs = Ok maximal
    /\ forall randint extra,
         let rec := recursive_minimax_strategy randint (1 + extra) g in
         let it := iterative_minimax_strategy randint (5 + extra) g in
         (resulting_pairs (1 + extra) g).2 = Ok pairs
         /\ root_values it.1 (length (trees g)) = pairs
         /\ (find_maximal (length (trees g)) it.1).2 = Ok maximal
         /\ rec.2 = (pick randint maximal g).2
         /\ it.2 = (pick randint maximal g).2
         /\ game rec.1 = game g
         /\ game it.1 = game g.
Proof.
  intros Hsize Hinit Hp Hk Hover g.
  destruct (only_the_start size p1_starts k w0 w s) as [-> ->]; try assumption.
  destruct Hsize as [-> | ->];
    [exists [("A", 1); ("B", 1)], ["A"; "B"]
    | exists [("A", 1); ("B", 1); ("C", 1)], ["A"; "B"; "C"]];
    (split; [reflexivity |]); intros randint extra;
    destruct p1_starts; vm_compute in Hinit; inversion Hinit; subst w0;
    clear Hinit Hp Hover;
    match goal with
    | |- let rec := _ in let it := _ in _ /\ _ = ?pairs /\ _ = Ok ?maximal /\ _ =>
        intros rec it;
        assert (Er : rec
                     = pick randint maximal
                         (recursive_minimax_strategy (fun _ _ => 0) 1 g).1)
          by (vm_compute; reflexivity);
        assert (Ei : it
                     = pick randint maximal
                         (iterative_minimax_strategy (fun _ _ => 0) 5 g).1)
          by (vm_compute; reflexivity);
        rewrite Er, Ei, !pick_world;
        (split; [| split; [| split; [| split; [| split; [| split]]]]]);
        try apply pick_result; vm_compute; reflexivity
    end.
Qed.

Lemma search_agreement_witness :
  exists pairs maximal,
    recursive_maximal pairs = Ok maximal
    /\ (resulting_pairs 1
          (set_current_state 0 (StonehengeGame_init true 1 empty_world).1).1).2
       = Ok pairs
    /\ root_values
         (iterative_minimax_strategy (fun _ _ => 0) 5
            (set_current_state 0 (StonehengeGame_init true 1 empty_world).1).1).1
         0
       = pairs.
Proof.
  destruct (search_agreement 1 true 0
              (StonehengeGame_init true 1 empty_world).1
              (StonehengeGame_init true 1 empty_world).1 0%nat)
    as (pairs & maximal & Hmax & H).
  - right; reflexivity.
  - reflexivity.
  - apply plies_O.
  - lia.
  - reflexivity.
  - exists pairs, maximal. split; [exact Hmax |].
    destruct (H (fun _ _ => 0) 0%nat) as (Hp & Hr & _).
    split; [exact Hp | exact Hr].
Defined.

End Agreement.

(** ** Copying a board by replaying its history *)

Lemma calculate_positions_idem nodes l :
  LeyLine.calculate_positions nodes (LeyLine.calculate_positions nodes l)
  = LeyLine.calculate_positions nodes l.
Proof.
  destruct (LeyLine.taken (LeyLine.calculate_positions nodes l)) eqn:E.
  - apply calculate_positions_owned. congruence.
  - assert (El : LeyLine.calculate_positions nodes l = l).
    { revert E. unfold LeyLine.calculate_positions.
      destruct (LeyLine.taken l); [reflexivity |].
      rewrite count_cells_marks.
      repeat (destruct (LeyLine.half_reached _ _); cbn);
        try discriminate; reflexivity. }
    now rewrite !El.
Qed.

Lemma calculate_positions_map_idem nodes ls :
  map (LeyLine.calculate_positions nodes)
    (map (LeyLine.calculate_positions nodes) ls)
  = map (LeyLine.calculate_positions nodes) ls.
Proof.
  rewrite map_map. apply map_ext. intros l. apply calculate_positions_idem.
Qed.

(** The re-evaluation that [produce_copy] adds after a replayed move
    changes nothing. *)
Lemma recalculate_occupy_node node player b :
  Board.recalculate (Board.occupy_node node player b).1
  = (Board.occupy_node node player b).1
  \/ (Board.occupy_node node player b).2 = Raise KeyError.
Proof.
  unfold Board.occupy_node. cbn.
  destruct (dict_get node (Board.node_reference b)) as [r |]; [left | now right].
  unfold Board.recalculate.
  match goal with |- context [if ?c then _ else _] => destruct c end;
    cbn; rewrite !calculate_positions_map_idem; reflexivity.
Qed.

Lemma occupy_node_Ok node player b :
  In node (map fst (Board.node_reference b)) ->
  (Board.occupy_node node player b).2 = Ok tt.
Proof.
  intros H. unfold Board.occupy_node. cbn.
  destruct (dict_get node (Board.node_reference b)) eqn:E; [reflexivity |].
  apply dict_get_None in E. contradiction.
Qed.

Lemma replay_app ms1 ms2 b :
  Board.replay (ms1 ++ ms2) b
  = do b1 <- Board.replay ms1 b; Board.replay ms2 b1.
Proof.
  revert b. induction ms1 as [| m ms1 IH]; intros b; cbn; [reflexivity |].
  destruct (Board.occupy_node m.1 m.2 b) as [b' [[] | e |]]; cbn; auto.
Qed.

Lemma replay_one node player b :
  In node (map fst (Board.node_reference b)) ->
  Board.replay [(node, player)] b = Ok (Board.occupy_node node player b).1.
Proof.
  intros H. cbn.
  pose proof (occupy_node_Ok node player b H) as Hok.
  destruct (recalculate_occupy_node node player b) as [Hr | Hr];
    [| congruence].
  destruct (Board.occupy_node node player b) as [b' r]. cbn in *.
  subst r. cbn. now rewrite Hr.
Qed.

(** What [possible_variations] offers is in the registry. *)
Lemma free_nodes_In keys b acc res node :
  Board.free_nodes keys b acc = Ok res -> In node res ->
  In node acc \/ In node keys.
Proof.
  revert acc. induction keys as [| k keys IH]; intros acc H Hin; cbn in H.
  - inversion H; subst. auto.
  - apply bind_Ok in H as (free & _ & H).
    destruct (IH _ H Hin) as [Ha | Hk]; [| right; right; exact Hk].
    destruct free; [| left; exact Ha].
    apply in_app_or in Ha as [Ha | [<- | []]];
      [left; exact Ha | right; left; reflexivity].
Qed.

Lemma possible_variations_In b moves node :
  Board.possible_variations b = Ok moves -> In node moves ->
  In node (map fst (Board.node_reference b)).
Proof.
  unfold Board.possible_variations.
  destruct (negb (Board.game_over b)); intros H Hin.
  - destruct (free_nodes_In _ _ _ _ _ H Hin) as [[] | Hk]. exact Hk.
  - inversion H; subst. contradiction.
Qed.

(** A board that legal moves have produced is the replay of its own
    history on a fresh board of its size. *)
Lemma played_replay size ms b :
  played size ms b ->
  Board.data_0 b = size
  /\ Board.moves_history b = ms
  /\ exists b0, Board.init size = Ok b0 /\ Board.replay ms b0 = Ok b.
Proof.
  induction 1 as [b H | ms b node player moves Hp (Hsz & Hh & b0 & H0 & Hr) Hm Hin _].
  - apply init_inv in H as Hi. destruct Hi as (? & ? & ? & ? & _ & _ & _ & ->).
    cbn. eauto.
  - destruct (occupy_node_static node player b) as (Hd & _ & _ & _ & _ & _ & Hhist).
    repeat split; [congruence | congruence |].
    exists b0. split; [exact H0 |].
    rewrite replay_app, Hr. cbn [bind].
    apply replay_one. eapply possible_variations_In; eauto.
Qed.

Lemma produce_copy_played size ms b :
  played size ms b -> Board.produce_copy b = Ok b.
Proof.
  intros H. apply played_replay in H as (Hs & Hh & b0 & H0 & Hr).
  unfold Board.produce_copy. now rewrite Hs, H0, Hh.
Qed.

(** ** [make_move] *)

Section MakeMove.

Import StonehengeState Stonehenge Strategy.

Lemma bindM_run {A B} (m : M A) (k : A -> M B) w w1 a :
  m w = (w1, Ok a) -> bindM m k w = k a w1.
Proof. intros H. unfold bindM. now rewrite H. Qed.

Lemma lookup_end {A} (l : list A) x l2 : (l ++ x :: l2) !! length l = Some x.
Proof. now apply list_lookup_middle. Qed.

Lemma insert_end {A} (l : list A) x y l2 :
  <[length l := y]> (l ++ x :: l2) = l ++ y :: l2.
Proof.
  replace (length l) with (length l + 0)%nat at 1 by lia.
  now rewrite insert_app_r.
Qed.

Lemma StonehengeState_init_run p sz w b0 :
  Board.init sz = Ok b0 ->
  StonehengeState_init p sz w
  = (mkWorld (boards w ++ [b0])
       (states w ++ [StonehengeState.mk p sz (length (boards w))])
       (trees w) (game w),
     Ok (length (states w))).
Proof. intros H. unfold StonehengeState_init, bindM, lift. now rewrite H. Qed.

(** The store after [make_move]: the board that the constructor gives
    the new state, the copy with the move applied, and the new state are
    new objects; no old object is written. *)
Lemma make_move_run w s move b0 :
  let st := state_at w s in
  let b := board_at w (board st) in
  let player := player_of (p1_turn st) in
  (s < length (states w))%nat ->
  (board st < length (boards w))%nat ->
  Board.init (size st) = Ok b0 ->
  Board.produce_copy b = Ok b ->
  (Board.occupy_node move player b).2 = Ok tt ->
  make_move s move w
  = (mkWorld (boards w ++ [b0; (Board.occupy_node move player b).1])
       (states w
        ++ [StonehengeState.mk (negb (p1_turn st)) (size st)
              (S (length (boards w)))])
       (trees w) (game w),
     Ok (length (states w))).
Proof.
  intros st b player Hs Hb Hinit Hcopy Hocc.
  assert (Es : forall bs t, state_at (mkWorld bs (states w ++ t) (trees w) (game w)) s = st).
  { intros. unfold state_at. cbn. now rewrite lookup_app_l. }
  assert (En : forall bs x,
             state_at (mkWorld bs (states w ++ [x]) (trees w) (game w))
               (length (states w)) = x).
  { intros. unfold state_at. cbn. now rewrite lookup_end. }
  set (n := length (states w)). set (c := length (boards w)).
  set (w1 := mkWorld (boards w ++ [b0])
               (states w ++ [StonehengeState.mk (p1_turn st) (size st) c])
               (trees w) (game w)).
  set (w2 := mkWorld (boards w ++ [b0; b])
               (states w ++ [StonehengeState.mk (p1_turn st) (size st) c])
               (trees w) (game w)).
  set (w3 := mkWorld (boards w ++ [b0; b])
               (states w ++ [StonehengeState.mk (p1_turn st) (size st) (S c)])
               (trees w) (game w)).
  set (b' := (Board.occupy_node move player b).1).
  set (w4 := mkWorld (boards w ++ [b0; b'])
               (states w ++ [StonehengeState.mk (p1_turn st) (size st) (S c)])
               (trees w) (game w)).
  assert (S2 : produce_copy (board st) w1 = (w2, Ok (S c))).
  { unfold produce_copy. rewrite bindM_gets.
    replace (board_at w1 (board st)) with b
      by (unfold board_at, w1; cbn; now rewrite lookup_app_l).
    fold b. rewrite Hcopy, bindM_lift_Ok. unfold new_board, w1, w2, set_boards.
    cbn. rewrite <- app_assoc, length_app. cbn. do 2 f_equal. subst c. lia. }
  assert (S3 : set_board n (S c) w2 = (w3, Ok tt)).
  { unfold set_board, modify, w2, w3, set_states. subst n. rewrite En. cbn.
    now rewrite insert_end. }
  assert (S4 : on_board (S c) (Board.occupy_node move player) w3 = (w4, Ok tt)).
  { unfold on_board.
    replace (board_at w3 (S c)) with b.
    2:{ unfold board_at, w3. cbn. subst c.
        change (boards w ++ [b0; b]) with (boards w ++ [b0] ++ [b]).
        rewrite app_assoc.
        replace (S (length (boards w))) with (length (boards w ++ [b0]))
          by (rewrite length_app; cbn; lia).
        now rewrite lookup_end. }
    fold b'. destruct (Board.occupy_node move player b) as [bb r] eqn:E.
    cbn in Hocc. subst r. unfold w3, w4, set_boards. cbn. subst b' c.
    change (boards w ++ [b0; b]) with (boards w ++ [b0] ++ [b]).
    change (boards w ++ [b0; bb]) with (boards w ++ [b0] ++ [bb]).
    rewrite !app_assoc.
    replace (S (length (boards w))) with (length (boards w ++ [b0]))
      by (rewrite length_app; cbn; lia).
    now rewrite insert_end. }
  assert (E1 : state_at w1 s = st) by apply Es.
  assert (E3 : state_at w3 n
               = StonehengeState.mk (p1_turn st) (size st) (S c)) by apply En.
  assert (E4 : state_at w4 s = st) by apply Es.
  unfold make_move. rewrite bindM_gets. fold st.
  rewrite (bindM_run _ _ _ _ _ (StonehengeState_init_run _ _ w b0 Hinit)).
  fold n c w1. rewrite bindM_gets, E1.
  rewrite (bindM_run _ _ _ _ _ S2), (bindM_run _ _ _ _ _ S3).
  rewrite bindM_gets, E3. cbn [p1_turn board].
  replace (if p1_turn st
           then on_board (S c) (Board.occupy_node move "p1")
           else on_board (S c) (Board.occupy_node move "p2"))
    with (on_board (S c) (Board.occupy_node move player))
    by (unfold player, player_of; destruct (p1_turn st); reflexivity).
  rewrite (bindM_run _ _ _ _ _ S4). rewrite bindM_gets, E4.
  unfold set_p1_turn. rewrite bindM_modify. unfold ret.
  replace (state_at w4 n) with (StonehengeState.mk (p1_turn st) (size st) (S c))
    by (symmetry; apply En).
  unfold w4, set_states. subst n. cbn. now rewrite insert_end.
Qed.

(** C7: for a state that the game has produced and a move that is legal
    on it, [make_move] returns a new state and writes no object that was
    there before; the board of the new state has the history of the old
    state's board followed by one entry, the move for the player whose
    turn it was, and the turn of the new state is the other player's. *)
Theorem make_move_history (w : World) (s : nat) (moves : list string)
    (move : string) :
  state_ok w s ->
  (get_possible_moves s w).2 = Ok moves ->
  In move moves ->
  exists w' s',
    make_move s move w = (w', Ok s')
    /\ (forall r, (r < length (states w))%nat -> states w' !! r = states w !! r)
    /\ (forall r, (r < length (boards w))%nat -> boards w' !! r = boards w !! r)
    /\ trees w' = trees w
    /\ game w' = game w
    /\ Board.moves_history (board_at w' (board (state_at w' s')))
       = Board.moves_history (board_at w (board (state_at w s)))
         ++ [(move, player_of (p1_turn (state_at w s)))]
    /\ p1_turn (state_at w' s') = negb (p1_turn (state_at w s))
    /\ state_ok w' s
    /\ state_ok w' s'.
Proof.
  intros (Hs & Hb & ms & Hp) Hm Hin.
  set (st := state_at w s) in *. set (b := board_at w (board st)) in *.
  set (player := player_of (p1_turn st)).
  unfold get_possible_moves in Hm. cbn in Hm. fold st b in Hm.
  pose proof (possible_variations_In b moves move Hm Hin) as Hkey.
  pose proof (produce_copy_played _ _ _ Hp) as Hcopy.
  destruct (played_replay _ _ _ Hp) as (_ & _ & b0 & H0 & _).
  pose proof (occupy_node_Ok move player b Hkey) as Hocc.
  pose proof (make_move_run w s move b0 Hs Hb H0 Hcopy Hocc) as Hrun.
  fold st b player in Hrun.
  set (b' := (Board.occupy_node move player b).1) in *.
  set (w' := mkWorld (boards w ++ [b0; b'])
               (states w ++ [StonehengeState.mk (negb (p1_turn st)) (size st)
                               (S (length (boards w)))])
               (trees w) (game w)) in *.
  assert (En : state_at w' (length (states w))
               = StonehengeState.mk (negb (p1_turn st)) (size st)
                   (S (length (boards w)))).
  { unfold state_at, w'. cbn. now rewrite lookup_end. }
  assert (Eb : board_at w' (S (length (boards w))) = b').
  { unfold board_at, w'. cbn.
    change (boards w ++ [b0; b']) with (boards w ++ [b0] ++ [b']).
    rewrite app_assoc.
    replace (S (length (boards w))) with (length (boards w ++ [b0]))
      by (rewrite length_app; cbn; lia).
    now rewrite lookup_end. }
  assert (Es : state_at w' s = st)
    by (unfold state_at, w'; cbn; now rewrite lookup_app_l).
  assert (Eo : board_at w' (board st) = b)
    by (unfold board_at, w'; cbn; now rewrite lookup_app_l).
  exists w', (length (states w)).
  split; [exact Hrun |].
  split; [intros r Hr; unfold w'; cbn; now rewrite lookup_app_l |].
  split; [intros r Hr; unfold w'; cbn; now rewrite lookup_app_l |].
  split; [reflexivity |]. split; [reflexivity |].
  rewrite En. cbn [board p1_turn]. rewrite Eb.
  split; [apply (occupy_node_static move player b) |].
  split; [reflexivity |].
  split.
  - unfold state_ok. rewrite Es, Eo. unfold w'. cbn. rewrite !length_app. cbn.
    repeat split; [lia | lia |]. exists ms. exact Hp.
  - unfold state_ok. rewrite En. cbn [board size]. rewrite Eb.
    unfold w'. cbn. rewrite !length_app. cbn.
    repeat split; [lia | lia |].
    exists (ms ++ [(move, player)]).
    apply (played_move _ ms b move player moves); try assumption.
    unfold player, player_of, is_player. destruct (p1_turn st); auto.
Qed.

Lemma make_move_history_witness :
  exists w' s',
    make_move 0 "A" (StonehengeGame_init true 1 empty_world).1 = (w', Ok s')
    /\ Board.moves_history (board_at w' (board (state_at w' s')))
       = [("A", "p1")]
    /\ p1_turn (state_at w' s') = false.
Proof.
  destruct (make_move_history (StonehengeGame_init true 1 empty_world).1 0%nat
              ["A"; "B"; "C"] "A")
    as (w' & s' & Hrun & _ & _ & _ & _ & Hh & Ht & _).
  - split; [vm_compute; lia |]. split; [vm_compute; lia |].
    exists []. apply played_init. reflexivity.
  - reflexivity.
  - left; reflexivity.
  - exists w', s'. auto.
Defined.

End MakeMove.

(** ** The layers of a board of any size *)

Section Layers.

Import Board.

Lemma node_at_app_l nodes l r :
  (r < length nodes)%nat -> node_at (nodes ++ l) r = node_at nodes r.
Proof. intros H. unfold node_at. now rewrite lookup_app_l. Qed.

Lemma node_at_ge nodes r :
  (length nodes <= r)%nat -> node_at nodes r = BoardNode.init.
Proof. intros H. unfold node_at. now rewrite lookup_ge_None_2. Qed.

Lemma node_at_insert nodes r x :
  (r < length nodes)%nat -> node_at (<[r := x]> nodes) r = x.
Proof. intros H. unfold node_at. now rewrite list_lookup_insert_eq. Qed.

Lemma node_at_insert_ne nodes r r' x :
  r <> r' -> node_at (<[r := x]> nodes) r' = node_at nodes r'.
Proof. intros H. unfold node_at. now rewrite list_lookup_insert_ne. Qed.

Lemma node_at_snoc nodes x : node_at (nodes ++ [x]) (length nodes) = x.
Proof. unfold node_at. now rewrite lookup_end. Qed.

(** [set_children] gives the nodes of [temp] the next free references, in
    order, and touches nothing else. *)
Lemma set_children_spec temp :
  forall nodes,
    NoDup temp ->
    Forall (fun b => (b < length nodes)%nat) temp ->
    let nodes' := set_children temp nodes in
    length nodes' = (length nodes + length temp)%nat
    /\ children_of nodes' temp = seq (length nodes) (length temp)
    /\ (forall r, ~ In r temp -> (r < length nodes)%nat ->
                  node_at nodes' r = node_at nodes r)
    /\ (forall r, (length nodes <= r)%nat -> node_at nodes' r = BoardNode.init).
Proof.
  induction temp as [| b temp IH]; intros nodes Hnd Hlt; cbn.
  - repeat split; auto using node_at_ge.
  - inversion Hnd as [| ? ? Hb Hnd']; subst.
    inversion Hlt as [| ? ? Hbl Hlt']; subst.
    set (nodes1 := nodes ++ [BoardNode.init]).
    set (nodesb := <[b := BoardNode.set_child (Some (length nodes))
                             (node_at nodes1 b)]> nodes1).
    assert (Hl1 : length nodes1 = S (length nodes))
      by (unfold nodes1; rewrite length_app; cbn; lia).
    assert (Hlb : length nodesb = S (length nodes))
      by (unfold nodesb; now rewrite length_insert).
    destruct (IH nodesb Hnd') as (Hlen & Hch & Hold & Hnew).
    { eapply Forall_impl; [exact Hlt' |]. cbn. intros; lia. }
    assert (Hbn : node_at (set_children temp nodesb) b
                  = BoardNode.set_child (Some (length nodes)) (node_at nodes1 b)).
    { rewrite Hold; [| rewrite <- list_elem_of_In in *; exact Hb
                     | rewrite <- ?list_elem_of_In; lia].
      unfold nodesb. apply node_at_insert. lia. }
    repeat split.
    + rewrite Hlen, Hlb. lia.
    + unfold children_of in *. cbn. rewrite Hbn. cbn.
      rewrite Hch, Hlb. reflexivity.
    + intros r Hr Hrl.
      rewrite Hold; [| tauto | lia].
      unfold nodesb. rewrite node_at_insert_ne by (intros ->; tauto).
      unfold nodes1. now apply node_at_app_l.
    + intros r Hr.
      destruct (decide (r = length nodes)) as [-> | Hne].
      * rewrite Hold; [| | lia].
        -- unfold nodesb. rewrite node_at_insert_ne by lia.
           unfold nodes1. apply node_at_snoc.
        -- intros Hin. rewrite Forall_forall in Hlt'.
           apply list_elem_of_In in Hin. specialize (Hlt' _ Hin). lia.
      * apply Hnew. lia.
Qed.

Lemma unmarked_alloc nodes :
  unmarked nodes -> unmarked (nodes ++ [BoardNode.init]).
Proof.
  intros Hu r.
  destruct (lt_eq_lt_dec r (length nodes)) as [[H | ->] | H].
  - rewrite node_at_app_l by assumption. apply Hu.
  - rewrite node_at_snoc. now exists "^".
  - rewrite node_at_ge; [now exists "^" |]. rewrite length_app. cbn. lia.
Qed.

Lemma unmarked_set_child nodes b c :
  unmarked nodes ->
  unmarked (<[b := BoardNode.set_child c (node_at nodes b)]> nodes).
Proof.
  intros Hu r.
  destruct (decide (b = r)) as [<- | Hne].
  - destruct (decide (b < length nodes)%nat).
    + rewrite node_at_insert by assumption. apply Hu.
    + unfold node_at. rewrite list_insert_ge by lia. apply Hu.
  - rewrite node_at_insert_ne by assumption. apply Hu.
Qed.

Lemma set_children_values temp :
  forall nodes, unmarked nodes -> unmarked (set_children temp nodes).
Proof.
  induction temp as [| b temp IH]; intros nodes Hu; cbn; [exact Hu |].
  apply IH. now apply unmarked_set_child, unmarked_alloc.
Qed.

(** The three ways in which a call of [generate_layers] proceeds. *)
Lemma generate_layers_first fuel size res nodes content :
  0 <= size ->
  generate_layers (S fuel) size res 1 (nodes, content)
  = generate_layers fuel size [length nodes; S (length nodes)] 3
      (nodes ++ [BoardNode.init; BoardNode.init],
       content ++ [[length nodes; S (length nodes)]]).
Proof.
  intros H. cbn [generate_layers]. cbn [Z.eqb alloc].
  destruct (Z.geb_spec size 0) as [_ | Hn]; [| lia].
  rewrite <- app_assoc, length_app. cbn.
  now replace (length nodes + 1)%nat with (S (length nodes)) by lia.
Qed.

Lemma generate_layers_middle fuel size res layer nodes content :
  size <> 1 -> layer <> 1 -> layer < size + 2 ->
  generate_layers (S fuel) size res layer (nodes, content)
  = let nodes2 := set_children res (nodes ++ [BoardNode.init]) in
    let new_res := children_of nodes2 res ++ [length nodes] in
    generate_layers fuel size new_res (layer + 1)
      (nodes2, content ++ [new_res]).
Proof.
  intros Hs Hl Hlt. cbn [generate_layers].
  rewrite (proj2 (Z.eqb_neq layer 1) Hl), (proj2 (Z.leb_le layer (size + 2)))
    by lia.
  rewrite (proj2 (Z.eqb_neq size 1) Hs), (proj2 (Z.ltb_lt layer (size + 2)) Hlt).
  rewrite (proj2 (Z.eqb_neq layer (size + 2))) by lia.
  reflexivity.
Qed.

Lemma generate_layers_last fuel size res layer nodes content :
  layer <> 1 -> layer = size + 2 ->
  generate_layers (S fuel) size res layer (nodes, content)
  = let nodes2 := set_children (tail res) nodes in
    let new_res := children_of nodes2 res ++ [] in
    generate_layers fuel size new_res (layer + 1)
      (nodes2, content ++ [new_res]).
Proof.
  intros Hl He. cbn [generate_layers].
  rewrite (proj2 (Z.eqb_neq layer 1) Hl), (proj2 (Z.leb_le layer (size + 2)))
    by lia.
  rewrite (proj2 (Z.eqb_eq layer (size + 2)) He).
  rewrite (proj2 (Z.ltb_ge layer (size + 2))) by lia.
  destruct (size =? 1); reflexivity.
Qed.

Lemma generate_layers_stop fuel size res layer st :
  layer <> 1 -> size + 2 < layer ->
  generate_layers (S fuel) size res layer st = Ok st.
Proof.
  intros Hl Hlt. destruct st as [nodes content]. cbn [generate_layers].
  rewrite (proj2 (Z.eqb_neq layer 1) Hl).
  now rewrite (proj2 (Z.leb_gt layer (size + 2))) by lia.
Qed.

Lemma fresh_layer_lt nodes res :
  fresh_layer nodes res -> Forall (fun b => (b < length nodes)%nat) res.
Proof. intros [_ H]. eapply Forall_impl; [exact H |]. cbn. tauto. Qed.

(** A layer in the middle of the board: every node of the previous layer
    gets a child, and one more node is added at the end. *)
Lemma middle_layer nodes res :
  fresh_layer nodes res ->
  let nodes2 := set_children res (nodes ++ [BoardNode.init]) in
  let new_res := children_of nodes2 res ++ [length nodes] in
  fresh_layer nodes2 new_res
  /\ length new_res = S (length res)
  /\ (length nodes <= length nodes2)%nat.
Proof.
  intros Hf nodes2 new_res.
  pose proof (fresh_layer_lt _ _ Hf) as Hlt. destruct Hf as [Hnd _].
  destruct (set_children_spec res (nodes ++ [BoardNode.init]) Hnd)
    as (Hlen & Hch & Hold & Hnew).
  { eapply Forall_impl; [exact Hlt |]. cbn. intros. rewrite length_app. lia. }
  fold nodes2 in Hlen, Hch, Hold, Hnew.
  rewrite length_app in Hlen, Hch, Hnew. cbn in Hlen, Hch, Hnew.
  assert (Hc : node_at nodes2 (length nodes) = BoardNode.init).
  { rewrite Hold.
    - apply node_at_snoc.
    - intros Hin. rewrite Forall_forall in Hlt.
      apply list_elem_of_In in Hin. specialize (Hlt _ Hin). lia.
    - rewrite length_app. cbn. lia. }
  unfold new_res. rewrite Hch.
  split; [split |].
  - apply NoDup_app. split; [apply NoDup_seq |].
    split; [| apply NoDup_singleton].
    intros x Hx Hx'. apply elem_of_seq in Hx.
    apply list_elem_of_singleton in Hx'. lia.
  - apply Forall_app. split.
    + apply Forall_forall. intros x Hx. apply elem_of_seq in Hx.
      split; [lia |]. rewrite Hnew by lia. reflexivity.
    + repeat constructor; [lia |]. now rewrite Hc.
  - rewrite length_app, length_seq. cbn. lia.
Qed.

(** The last layer: every node of the previous layer but the first gets
    a child. *)
Lemma last_layer nodes res :
  fresh_layer nodes res ->
  let nodes2 := set_children (tail res) nodes in
  let new_res := children_of nodes2 res ++ [] in
  Forall (fun b => (b < length nodes2)%nat) new_res
  /\ length new_res = (length res - 1)%nat
  /\ (length nodes <= length nodes2)%nat.
Proof.
  intros Hf nodes2 new_res.
  pose proof (fresh_layer_lt _ _ Hf) as Hlt. destruct Hf as [Hnd Hf].
  destruct res as [| h t].
  - cbn. repeat split; auto.
  - cbn [tail] in nodes2.
    inversion Hnd as [| ? ? Hh Hnd']; subst.
    inversion Hlt as [| ? ? Hhl Hlt']; subst.
    inversion Hf as [| ? ? [_ Hhc] _]; subst.
    destruct (set_children_spec t nodes Hnd' Hlt') as (Hlen & Hch & Hold & _).
    fold nodes2 in Hlen, Hch, Hold.
    assert (E : new_res = seq (length nodes) (length t)).
    { unfold new_res, children_of. cbn.
      rewrite Hold; [| rewrite <- list_elem_of_In; exact Hh | exact Hhl].
      rewrite Hhc. unfold children_of in Hch. rewrite Hch.
      apply app_nil_r. }
    rewrite E, length_seq. cbn.
    repeat split; [| lia | lia].
    apply Forall_forall. intros x Hx. apply elem_of_seq in Hx. lia.
Qed.

Lemma set_children_unmarked_alloc res nodes :
  unmarked nodes -> unmarked (set_children res (nodes ++ [BoardNode.init])).
Proof. intros H. now apply set_children_values, unmarked_alloc. Qed.

Lemma valid_mono nodes nodes' content :
  valid nodes content -> (length nodes <= length nodes')%nat ->
  valid nodes' content.
Proof.
  intros H Hle. eapply Forall_impl; [exact H |]. cbn. intros l Hl.
  eapply Forall_impl; [exact Hl |]. cbn. intros. lia.
Qed.

Lemma valid_snoc nodes content l :
  valid nodes content -> Forall (fun r => (r < length nodes)%nat) l ->
  valid nodes (content ++ [l]).
Proof. intros H Hl. apply Forall_app. split; [exact H | now constructor]. Qed.

(** From layer [L >= 3] on, [d] more middle layers and the last layer are
    built. *)
Lemma generate_layers_rest size d :
  2 <= size ->
  forall fuel L res nodes content,
    L = size + 2 - Z.of_nat d -> 3 <= L -> (d + 2 <= fuel)%nat ->
    fresh_layer nodes res -> length res = Z.to_nat (L - 1) ->
    unmarked nodes -> valid nodes content ->
    exists nodes' content',
      generate_layers fuel size res L (nodes, content)
      = Ok (nodes', content ++ content')
      /\ map length content' = seq (Z.to_nat L) d ++ [Z.to_nat size]
      /\ unmarked nodes' /\ valid nodes' (content ++ content').
Proof.
  intros Hsize. induction d as [| d IH];
    intros fuel L res nodes content HL H3 Hfuel Hf Hlen Hu Hv.
  - destruct fuel as [| [| fuel]]; try lia.
    rewrite generate_layers_last by lia. cbv zeta.
    rewrite generate_layers_stop by lia.
    destruct (last_layer nodes res Hf) as (Hlt & Hl & Hle).
    eexists _, [_]. split; [reflexivity |].
    split; [| split].
    + cbn [map seq app]. rewrite Hl, Hlen. do 2 f_equal. lia.
    + now apply set_children_values.
    + apply valid_snoc; [eapply valid_mono; eauto | exact Hlt].
  - destruct fuel as [| fuel]; try lia.
    rewrite generate_layers_middle by lia. cbv zeta.
    destruct (middle_layer nodes res Hf) as (Hf2 & Hl & Hle).
    edestruct (IH fuel (L + 1)) as (nodes' & content' & Hg & Hw & Hu' & Hv');
      [lia | lia | lia | exact Hf2 | | | |].
    + rewrite Hl, Hlen. lia.
    + now apply set_children_unmarked_alloc.
    + apply valid_snoc; [eapply valid_mono; eauto |].
      apply (fresh_layer_lt _ _ Hf2).
    + rewrite Hg. eexists nodes', (_ :: content').
      rewrite <- app_assoc in *. cbn [app] in *.
      split; [reflexivity |]. split; [| split; assumption].
      cbn [map seq app]. rewrite Hw, Hl, Hlen. f_equal; [lia |].
      do 2 f_equal. lia.
Qed.

(** The layers of the board of size [size >= 2]. *)
Lemma generate_layers_shape size :
  2 <= size ->
  exists nodes content,
    generate_layers (Z.to_nat size + 2) size [] 1 ([], [])
    = Ok (nodes, content)
    /\ map length content = widths (Z.to_nat size)
    /\ unmarked nodes /\ valid nodes content.
Proof.
  intros Hsize.
  replace (Z.to_nat size + 2)%nat with (S (Z.to_nat size + 1)) by lia.
  rewrite generate_layers_first by lia. cbn [length app].
  edestruct (generate_layers_rest size (Z.to_nat size - 1) Hsize
               (Z.to_nat size + 1) 3 [0; 1]%nat
               [BoardNode.init; BoardNode.init] [[0; 1]%nat])
    as (nodes' & content' & Hg & Hw & Hu & Hv); try lia.
  - split; [refine (bool_decide_unpack _ _); vm_compute; exact I |].
    repeat constructor.
  - reflexivity.
  - intros [| [| r]]; now exists "^".
  - repeat constructor.
  - exists nodes', ([0; 1]%nat :: content').
    split; [exact Hg |]. split; [| split; assumption].
    cbn [map length]. rewrite Hw. unfold widths. reflexivity.
Qed.

End Layers.

(** ** The labels *)

Section Labels.

Import Board.

Lemma alphabet_NoDup : NoDup alphabet.
Proof. refine (bool_decide_unpack _ _). vm_compute. exact I. Qed.

Lemma alphabet_letters :
  Forall (fun s => exists c, s = String c EmptyString) alphabet.
Proof. repeat constructor; eexists; reflexivity. Qed.

Lemma alphabet_lookup i :
  (i < 26)%nat -> exists c, alphabet !! i = Some (String c EmptyString).
Proof.
  intros H. destruct (lookup_lt_is_Some_2 alphabet i H) as [s Hs].
  pose proof alphabet_letters as Hl. rewrite Forall_forall in Hl.
  destruct (Hl s) as [c ->]; [| eauto].
  eapply list_elem_of_lookup_2; eauto.
Qed.

Lemma str_repeat_length a : String.length (str_repeat "'" a) = a.
Proof.
  induction a as [| a IH]; [reflexivity |].
  change (S (String.length (str_repeat "'" a)) = S a). now f_equal.
Qed.

Lemma label_inj i a i' a' :
  (i < 26)%nat -> (i' < 26)%nat -> label i a = label i' a' ->
  i = i' /\ a = a'.
Proof.
  intros Hi Hi' H. unfold label in H.
  destruct (alphabet_lookup i Hi) as [c Hc].
  destruct (alphabet_lookup i' Hi') as [c' Hc'].
  rewrite Hc, Hc' in H.
  change (String c (str_repeat "'" a) = String c' (str_repeat "'" a')) in H.
  inversion H as [[Hcc Ht]]. subst c'.
  split.
  - eapply NoDup_lookup; eauto using alphabet_NoDup.
  - rewrite <- (str_repeat_length a), <- (str_repeat_length a'). congruence.
Qed.

Lemma dict_set_fresh {V} k (v : V) d :
  ~ In k (map fst d) -> dict_set k v d = d ++ [(k, v)].
Proof.
  induction d as [| [k' v'] d IH]; cbn; intros H; [reflexivity |].
  destruct (String.eqb_spec k k') as [-> | _]; [tauto |].
  rewrite IH; tauto.
Qed.

Lemma unmarked_set_value nodes b s :
  unmarked nodes ->
  unmarked (<[b := BoardNode.set_value (VStr s) (node_at nodes b)]> nodes).
Proof.
  intros Hu r.
  destruct (decide (b = r)) as [<- | Hne].
  - destruct (decide (b < length nodes)%nat).
    + rewrite node_at_insert by assumption. now exists s.
    + unfold node_at. rewrite list_insert_ge by lia. apply Hu.
  - rewrite node_at_insert_ne by assumption. apply Hu.
Qed.

Lemma name_node_inv nodes st done b :
  naming_inv nodes st done -> naming_inv nodes (name_node st b) (done ++ [b]).
Proof.
  intros (Hi & Hs & Hk & Hnd & Hl & Hu).
  unfold name_node.
  change (length alphabet) with 26%nat.
  set (ia := if Nat.eqb (index st) 26 then (O, S (add_on st))
             else (index st, add_on st)).
  assert (Hia : (ia.1 < 26)%nat
                /\ forall i a, (i < 26)%nat ->
                     (a < add_on st \/ a = add_on st /\ i < index st)%nat ->
                     (a < ia.2 \/ a = ia.2 /\ i < ia.1)%nat).
  { unfold ia. destruct (Nat.eqb_spec (index st) 26); cbn; split; intros; lia. }
  destruct ia as [i' a']. cbn [fst snd] in Hia. destruct Hia as [Hi' Hlex].
  fold (label i' a').
  assert (Hfresh : ~ In (label i' a') (map fst (registry st))).
  { intros Hin. destruct (Hk _ Hin) as (i & a & E & Hi26 & Ha).
    apply label_inj in E as [-> ->]; try assumption.
    specialize (Hlex _ _ Hi26 Ha). lia. }
  unfold naming_inv. cbn [index add_on named_nodes registry].
  rewrite dict_set_fresh by assumption.
  rewrite !map_app. cbn [map fst snd].
  split; [lia |]. split; [congruence |]. split; [| split; [| split]].
  - intros k Hin. apply in_app_or in Hin as [Hin | [<- | []]].
    + destruct (Hk _ Hin) as (i & a & E & Hi26 & Ha).
      exists i, a. specialize (Hlex _ _ Hi26 Ha). repeat split; auto; lia.
    + exists i', a'. repeat split; auto; lia.
  - apply NoDup_app. split; [exact Hnd |].
    split; [| apply NoDup_singleton].
    intros x Hx Hx'. apply list_elem_of_singleton in Hx'. subst x.
    apply list_elem_of_In in Hx. contradiction.
  - now rewrite length_insert.
  - now apply unmarked_set_value.
Qed.

Lemma name_row_inv nodes l :
  forall st done,
    naming_inv nodes st done ->
    naming_inv nodes (foldl name_node st l) (done ++ l).
Proof.
  induction l as [| b l IH]; intros st done H; cbn.
  - now rewrite app_nil_r.
  - replace (done ++ b :: l) with ((done ++ [b]) ++ l)
      by (now rewrite <- app_assoc).
    apply IH. now apply name_node_inv.
Qed.

Lemma name_rows_inv nodes content :
  forall st done,
    naming_inv nodes st done ->
    naming_inv nodes (foldl (fun st l => foldl name_node st l) st content)
      (done ++ concat content).
Proof.
  induction content as [| l content IH]; intros st done H; cbn.
  - now rewrite app_nil_r.
  - rewrite app_assoc. apply IH. now apply name_row_inv.
Qed.

(** [name_layers] registers every node of the layers, in order, under a
    label of its own. *)
Lemma name_layers_spec content nodes :
  unmarked nodes ->
  map snd (name_layers content nodes).2 = concat content
  /\ NoDup (map fst (name_layers content nodes).2)
  /\ length (name_layers content nodes).1 = length nodes
  /\ unmarked (name_layers content nodes).1.
Proof.
  intros Hu.
  destruct (name_rows_inv nodes content (mk_naming 0 0 nodes []) [])
    as (_ & Hs & _ & Hnd & Hl & Hu').
  { repeat split; cbn; auto; try lia; try contradiction. constructor. }
  unfold name_layers. cbn. auto.
Qed.

End Labels.

(** ** The diagonals *)

Section Diagonals.

Import Board.

Context {A : Type}.
Implicit Types (a l rows j n : list (list A)) (s row pool : list A).

Lemma foldl_max_foldr x (l : list nat) :
  foldl Nat.max x l = Nat.max x (foldr Nat.max 0%nat l).
Proof.
  revert x. induction l as [| y l IH]; intros x; cbn; [lia |].
  rewrite IH. lia.
Qed.

Lemma py_max_maxlen a :
  a <> [] -> py_max Nat.max (map length a) = Ok (maxlen a).
Proof.
  destruct a as [| x a]; [congruence |]. intros _. cbn.
  now rewrite foldl_max_foldr.
Qed.

Lemma py_index_nonneg (l : list A) k :
  0 <= k < Z.of_nat (length l) ->
  exists v, py_index l k = Ok v /\ In v l.
Proof.
  intros H. unfold py_index.
  destruct (Z.ltb_spec k 0) as [? | _]; [lia |].
  destruct (Z.leb_spec 0 k) as [_ | ?]; [| lia].
  destruct (Z.ltb_spec k (Z.of_nat (length l))) as [_ | ?]; [| lia]. cbn.
  destruct (lookup_lt_is_Some_2 l (Z.to_nat k)) as [v Hv]; [lia |].
  rewrite Hv. exists v. split; [reflexivity |].
  apply list_elem_of_In. eapply list_elem_of_lookup_2; eauto.
Qed.

Lemma py_index_neg (l : list A) k :
  - Z.of_nat (length l) <= k < 0 ->
  exists v, py_index l k = Ok v /\ In v l.
Proof.
  intros H. unfold py_index.
  destruct (Z.ltb_spec k 0) as [_ | ?]; [| lia].
  destruct (Z.leb_spec 0 (k + Z.of_nat (length l))) as [_ | ?]; [| lia].
  destruct (Z.ltb_spec (k + Z.of_nat (length l)) (Z.of_nat (length l)))
    as [_ | ?]; [| lia]. cbn.
  destruct (lookup_lt_is_Some_2 l (Z.to_nat (k + Z.of_nat (length l))))
    as [v Hv]; [lia |].
  rewrite Hv. exists v. split; [reflexivity |].
  apply list_elem_of_In. eapply list_elem_of_lookup_2; eauto.
Qed.

Lemma In_concat x l : In x l -> forall v, In v x -> In v (concat l).
Proof.
  intros Hx v Hv. apply in_concat. eauto.
Qed.

(** *** Columns *)

Lemma column_In a i v : In v (column a i) -> In v (concat a).
Proof.
  unfold column. intros H. apply in_flat_map in H as (x & Hx & Hv).
  destruct (Nat.ltb i (length x)); [| contradiction].
  destruct (x !! i) as [y |] eqn:E; [| contradiction].
  destruct Hv as [<- | []].
  apply (In_concat x a Hx). apply list_elem_of_In.
  eapply list_elem_of_lookup_2; eauto.
Qed.

Lemma column_nil a i : column a i = [] <-> (maxlen a <= i)%nat.
Proof.
  unfold column, maxlen. induction a as [| x a IH]; cbn -[Nat.ltb].
  - split; [lia | reflexivity].
  - destruct (Nat.ltb_spec i (length x)) as [Hlt | Hge].
    + destruct (lookup_lt_is_Some_2 x i Hlt) as [y Hy]. rewrite Hy. cbn.
      split; [discriminate | lia].
    + cbn. rewrite IH. lia.
Qed.

Lemma top_to_line_from_length a todo :
  forall index,
    length (top_to_line_from a todo index)
    = Nat.min todo (maxlen a - index).
Proof.
  induction todo as [| todo IH]; intros index; cbn [top_to_line_from];
    [reflexivity |].
  rewrite length_app, IH.
  destruct (column a index) eqn:E.
  - apply column_nil in E. cbn [length]. lia.
  - assert (~ (maxlen a <= index)%nat)
      by (rewrite <- column_nil; congruence).
    cbn [length]. lia.
Qed.

Lemma top_to_line_length a :
  length (top_to_line a (maxlen a) 0) = maxlen a.
Proof. unfold top_to_line. rewrite top_to_line_from_length. lia. Qed.

Lemma top_to_line_from_ok a todo :
  forall index, rows_ok (concat a) (top_to_line_from a todo index).
Proof.
  induction todo as [| todo IH]; intros index; cbn; [constructor |].
  apply Forall_app. split; [| apply IH].
  destruct (column a index) eqn:E; constructor; [| constructor].
  split; [discriminate |]. rewrite <- E.
  apply Forall_forall. intros v Hv. apply list_elem_of_In in Hv.
  eapply column_In; eauto.
Qed.

(** *** Appending to a row *)

Lemma rows_ok_insert pool rows i row v :
  rows_ok pool rows -> rows !! i = Some row -> In v pool ->
  rows_ok pool (<[i := row ++ [v]]> rows).
Proof.
  unfold rows_ok. intros H Hi Hv. apply Forall_insert; [exact H |].
  rewrite Forall_forall in H.
  destruct (H row) as [_ Hrow]; [eapply list_elem_of_lookup_2; eauto |].
  split; [destruct row; discriminate |].
  apply Forall_app. split; [exact Hrow | now repeat constructor].
Qed.

Lemma rows_ok_weaken pool pool' rows :
  rows_ok pool rows -> (forall v, In v pool -> In v pool') ->
  rows_ok pool' rows.
Proof.
  unfold rows_ok. intros H Hp.
  eapply Forall_impl; [exact H |]. cbn. intros row [Hn Hr].
  split; [exact Hn |]. eapply Forall_impl; [exact Hr | exact Hp].
Qed.

(** *** The loops of [adjoin] *)

Lemma py_index_last l base : last l = Some base -> py_index l (-1) = Ok base.
Proof.
  intros H. pose proof H as Hl. rewrite last_lookup in Hl.
  assert (length l <> 0%nat)
    by (intros E; apply length_zero_iff_nil in E; subst; discriminate).
  unfold py_index. cbn [Z.ltb Z.compare].
  destruct (Z.leb_spec 0 (-1 + Z.of_nat (length l))) as [_ | ?]; [| lia].
  destruct (Z.ltb_spec (-1 + Z.of_nat (length l)) (Z.of_nat (length l)))
    as [_ | ?]; [| lia]. cbn.
  replace (Z.to_nat (-1 + Z.of_nat (length l))) with (pred (length l)) by lia.
  now rewrite Hl.
Qed.

Lemma append_base_ok pool l base idxs :
  last l = Some base ->
  (forall v, In v base -> In v pool) ->
  forall rows,
    rows_ok pool rows ->
    Forall (fun i => (1 <= i < length rows)%nat /\ (i - 1 < length base)%nat)
      idxs ->
    exists rows',
      append_base idxs l rows = Ok rows'
      /\ length rows' = length rows /\ rows_ok pool rows'.
Proof.
  intros Hl Hp. induction idxs as [| i idxs IH]; intros rows Hr Hi; cbn.
  - eauto.
  - inversion Hi as [| ? ? [Hi1 Hi2] Hi']; subst.
    destruct (lookup_lt_is_Some_2 rows i) as [row Hrow]; [lia |].
    rewrite Hrow. cbn [bind]. rewrite (py_index_last l base Hl). cbn [bind].
    destruct (py_index_nonneg base (Z.of_nat i - 1)) as (v & -> & Hv); [lia |].
    cbn [bind].
    destruct (IH (<[i := row ++ [v]]> rows)) as (rows' & -> & Hlen & Hok).
    + eapply rows_ok_insert; eauto.
    + rewrite length_insert. exact Hi'.
    + rewrite length_insert in Hlen. eauto.
Qed.

Lemma max_len_list_lt n : n <> [] -> (max_len_list n < length n)%nat.
Proof.
  intros Hn. unfold max_len_list.
  assert (H0 : (0 < length n)%nat) by (destruct n; [congruence | cbn; lia]).
  assert (H : forall idxs st,
             Forall (fun i => (i < length n)%nat) idxs ->
             (st.1 < length n)%nat ->
             ((foldl
                 (fun '(max_ind, max_res) i =>
                    let len := Z.of_nat (length (default [] (n !! i))) in
                    if len >? max_res then (i, len) else (max_ind, max_res))
                 st idxs).1 < length n)%nat).
  { induction idxs as [| i idxs IH]; intros [mi mr] Hf Hst; cbn; [exact Hst |].
    inversion Hf; subst. apply IH; [assumption |].
    destruct (_ >? mr); cbn; [assumption | exact Hst]. }
  apply H; [| cbn; lia].
  apply Forall_forall. intros i Hi. unfold range in Hi.
  apply elem_of_seq in Hi. lia.
Qed.

Lemma longest_first_ok counts :
  forall n j,
    (length counts <= length n)%nat ->
    exists j',
      longest_first counts n j = Ok j'
      /\ forall s, In s j' -> In s j \/ In s n.
Proof.
  induction counts as [| c counts IH]; intros n j Hlen; cbn.
  - eauto.
  - cbn in Hlen.
    assert (Hn : n <> []) by (destruct n; [cbn in Hlen; lia | congruence]).
    pose proof (max_len_list_lt n Hn) as Hlt.
    destruct (lookup_lt_is_Some_2 n _ Hlt) as [x Hx]. rewrite Hx.
    destruct (IH (delete (max_len_list n) n) (j ++ [x])) as (j' & -> & Hj).
    { rewrite length_delete by eauto. lia. }
    exists j'. split; [reflexivity |]. intros s Hs.
    destruct (Hj s Hs) as [Hin | Hin].
    + apply in_app_or in Hin as [Hin | [<- | []]]; [now left | right].
      apply list_elem_of_In. eapply list_elem_of_lookup_2; eauto.
    + right. apply list_elem_of_In. apply list_elem_of_In in Hin.
      eapply list_elem_of_delete_inv; eauto.
Qed.

Lemma complete_str2_ok pool rows i s count :
  rows_ok pool rows -> (i < length rows)%nat -> count < 0 ->
  (forall v, In v s -> In v pool) ->
  exists rows',
    complete_str2 count (- Z.of_nat (length s)) rows (s, i) = Ok rows'
    /\ length rows' = length rows /\ rows_ok pool rows'.
Proof.
  intros Hr Hi Hc Hs. unfold complete_str2. cbn [fst snd].
  destruct (Z.geb_spec count (- Z.of_nat (length s))) as [Hge | _]; [| eauto].
  destruct (lookup_lt_is_Some_2 rows i Hi) as [row Hrow].
  rewrite Hrow. cbn [bind].
  destruct (py_index_neg s count) as (v & -> & Hv); [lia |]. cbn [bind].
  eexists. split; [reflexivity |]. rewrite length_insert.
  split; [reflexivity |]. eapply rows_ok_insert; eauto.
Qed.

Lemma complete_row_ok pool j :
  (forall s, In s j -> forall v, In v s -> In v pool) ->
  forall rows i count,
    rows_ok pool rows -> (i < length rows)%nat -> count < 0 ->
    exists rows',
      complete_row j count i rows = Ok rows'
      /\ length rows' = length rows /\ rows_ok pool rows'.
Proof.
  induction j as [| s j IH]; intros Hj rows i count Hr Hi Hc; cbn.
  - eauto.
  - destruct (complete_str2_ok pool rows i s count)
      as (rows1 & -> & Hl1 & Hr1); auto.
    { apply Hj. now left. }
    cbn [bind].
    destruct (IH (fun s' Hs' => Hj s' (or_intror Hs')) rows1 i count)
      as (rows' & -> & Hl & Hr'); auto; [lia |].
    exists rows'. repeat split; auto. lia.
Qed.

Lemma complete_rows_ok pool j idxs :
  (forall s, In s j -> forall v, In v s -> In v pool) ->
  forall rows count,
    rows_ok pool rows ->
    Forall (fun i => (i < length rows)%nat) idxs -> count < 0 ->
    exists rows',
      complete_rows idxs j count rows = Ok rows'
      /\ length rows' = length rows /\ rows_ok pool rows'.
Proof.
  intros Hj. induction idxs as [| i idxs IH]; intros rows count Hr Hi Hc; cbn.
  - eauto.
  - inversion Hi; subst.
    destruct (complete_row_ok pool j Hj rows i count)
      as (rows1 & -> & Hl1 & Hr1); auto.
    cbn [bind].
    destruct (IH rows1 (count - 1)) as (rows' & -> & Hl & Hr'); auto;
      [now rewrite Hl1 | lia |].
    exists rows'. repeat split; auto. lia.
Qed.

End Diagonals.

Section Adjoin.

Import Board.

Lemma In_concat_app_l (l1 l2 : list (list nat)) v :
  In v (concat l1) -> In v (concat (l1 ++ l2)).
Proof. rewrite concat_app. intros H. apply in_or_app. now left. Qed.

(** The upward diagonals of a board of size at least 1. *)
Lemma adjoin_u_ok size upper base :
  1 <= size -> upper <> [] ->
  (maxlen upper <= length base + 1)%nat ->
  exists rows,
    adjoin size (upper ++ [base]) "u" = Ok (Some rows)
    /\ length rows = maxlen upper
    /\ rows_ok (concat (upper ++ [base])) rows.
Proof.
  intros Hsize Hu Hw. unfold adjoin.
  destruct (Z.eqb_spec size 0) as [? | _]; [lia |].
  destruct (Z.geb_spec size 1) as [_ | ?]; [| lia].
  cbn [String.eqb Ascii.eqb Bool.eqb andb].
  rewrite removelast_last, (py_max_maxlen upper Hu). cbn [bind].
  rewrite top_to_line_length.
  destruct (append_base_ok (concat (upper ++ [base])) (upper ++ [base]) base
              (range 1 (maxlen upper)) (last_snoc base upper))
    with (rows := top_to_line upper (maxlen upper) 0)
    as (rows & -> & Hl & Hr).
  - intros v Hv. rewrite concat_app. apply in_or_app. right. cbn.
    now rewrite app_nil_r.
  - eapply rows_ok_weaken; [apply top_to_line_from_ok |].
    apply In_concat_app_l.
  - rewrite top_to_line_length. apply Forall_forall. intros i Hi.
    unfold range in Hi. apply elem_of_seq in Hi. lia.
  - cbn [bind]. rewrite top_to_line_length in Hl. eauto.
Qed.

(** The downward diagonals of a board of size at least 1. *)
Lemma adjoin_d_ok size l :
  1 <= size -> l <> [] ->
  exists rows,
    adjoin size l "d" = Ok (Some rows)
    /\ length rows = maxlen (take 2 (rev l))
    /\ rows_ok (concat l) rows.
Proof.
  intros Hsize Hl. unfold adjoin.
  destruct (Z.eqb_spec size 0) as [? | _]; [lia |].
  destruct (Z.geb_spec size 1) as [_ | ?]; [| lia].
  cbn [String.eqb Ascii.eqb Bool.eqb andb bind].
  assert (Hlow : take 2 (rev l) <> []).
  { destruct (rev l) as [| x r] eqn:E; [| discriminate].
    apply (f_equal (@rev _)) in E. rewrite rev_involutive in E. now subst. }
  rewrite (py_max_maxlen _ Hlow). cbn [bind].
  rewrite top_to_line_length.
  destruct (longest_first_ok (range 0 (length (take (length l - 2) l)))
              (take (length l - 2) l) []) as (j & -> & Hj).
  { unfold range. rewrite length_seq. lia. }
  cbn [bind].
  assert (Hpool : forall s, In s j -> forall v, In v s -> In v (concat l)).
  { intros s Hs v Hv. destruct (Hj s Hs) as [[] | Hin].
    apply (In_concat s l); [| exact Hv].
    apply list_elem_of_In. apply list_elem_of_In in Hin.
    eapply subseteq_take; eauto. }
  destruct (complete_rows_ok (concat l) j
              (rev (range 1 (maxlen (take 2 (rev l))))) Hpool
              (top_to_line (take 2 (rev l)) (maxlen (take 2 (rev l))) 0) (-1))
    as (rows & -> & Hlen & Hr).
  - eapply rows_ok_weaken; [apply top_to_line_from_ok |].
    intros v Hv. apply in_concat in Hv as (x & Hx & Hv).
    apply (In_concat x l); [| exact Hv].
    apply in_rev. apply list_elem_of_In.
    apply list_elem_of_In in Hx. eapply subseteq_take; eauto.
  - rewrite top_to_line_length. apply Forall_forall. intros i Hi.
    apply list_elem_of_In, in_rev, list_elem_of_In in Hi.
    unfold range in Hi. apply elem_of_seq in Hi. lia.
  - lia.
  - rewrite top_to_line_length in Hlen. eauto.
Qed.

End Adjoin.

(** ** The constructor at every size *)

Section Constructor.

Import Board.

Lemma maxlen_seq k :
  foldr Nat.max 0%nat (seq 3 k) = match k with O => O | S _ => (k + 2)%nat end.
Proof.
  induction k as [| k IH]; [reflexivity |].
  rewrite seq_S, foldr_app. cbn [foldr].
  assert (H : forall l x, foldr Nat.max x l = Nat.max x (foldr Nat.max 0%nat l)).
  { induction l as [| y l IHl]; intros x; cbn; [lia |]. rewrite IHl. lia. }
  rewrite H, IH. destruct k; cbn; lia.
Qed.

(** The layers of a board of size [N >= 2], split at the base. *)
Lemma widths_split (content : list (list nat)) N :
  (2 <= N)%nat -> map length content = widths N ->
  exists upper base,
    content = upper ++ [base]
    /\ upper <> []
    /\ length base = N
    /\ maxlen upper = S N
    /\ maxlen (take 2 (rev content)) = S N
    /\ Forall (fun l => l <> []) content.
Proof.
  intros HN Hw. unfold widths in Hw.
  assert (Hne : Forall (fun l : list nat => l <> []) content).
  { apply Forall_forall. intros l Hl Hnil. subst l.
    apply list_elem_of_In in Hl.
    apply (in_map length) in Hl. rewrite Hw in Hl. cbn in Hl.
    destruct Hl as [Hl | Hl]; [discriminate |].
    apply in_app_or in Hl as [Hl | [Hl | []]]; [| lia].
    apply in_seq in Hl. lia. }
  destruct (exists_last (l := content)) as (upper & base & ->).
  { intros ->. discriminate. }
  rewrite map_app in Hw. cbn [map] in Hw.
  change (2%nat :: seq 3 (N - 1) ++ [N]) with ((2%nat :: seq 3 (N - 1)) ++ [N])
    in Hw.
  apply app_inj_tail in Hw as [Hu Hb].
  assert (Hmax : maxlen upper = S N).
  { unfold maxlen. rewrite Hu. cbn [foldr]. rewrite maxlen_seq.
    destruct (N - 1)%nat eqn:E; lia. }
  destruct (exists_last (l := upper)) as (upper' & pen & ->).
  { intros ->. discriminate. }
  assert (Hpen : length pen = S N).
  { rewrite map_app in Hu. cbn [map] in Hu.
    destruct (N - 1)%nat as [| k] eqn:E; [lia |].
    rewrite seq_S in Hu.
    change (2%nat :: seq 3 k ++ [(3 + k)%nat])
      with ((2%nat :: seq 3 k) ++ [(3 + k)%nat]) in Hu.
    apply app_inj_tail in Hu as [_ Hp]. lia. }
  exists (upper' ++ [pen]), base.
  split; [reflexivity |]. split; [destruct upper'; discriminate |].
  split; [exact Hb |]. split; [exact Hmax |]. split; [| exact Hne].
  rewrite !rev_app_distr. cbn. unfold maxlen. cbn.
  change (take 0 (rev upper')) with (@nil (list nat)). cbn. lia.
Qed.

Lemma rows_ok_cells pool rows :
  rows_ok pool rows ->
  Forall (fun x => LeyLine.cells x <> []
                   /\ Forall (fun c => In c pool) (LeyLine.cells x))
    (map LeyLine.init rows).
Proof. intros H. apply Forall_map. exact H. Qed.

Lemma layers_rows_ok (content : list (list nat)) :
  Forall (fun l => l <> []) content -> rows_ok (concat content) content.
Proof.
  intros H. apply Forall_forall. intros l Hl. rewrite Forall_forall in H.
  split; [now apply H |].
  apply Forall_forall. intros v Hv.
  apply list_elem_of_In in Hl, Hv. eapply In_concat; eauto.
Qed.

Lemma init_untouched_leys rows :
  Forall (fun x => LeyLine.taken x = None) (map LeyLine.init rows).
Proof. apply Forall_map. apply Forall_forall. reflexivity. Qed.

(** The board of size [size >= 2]. *)
Lemma init_large size :
  2 <= size -> exists b, init size = Ok b /\ geometry b /\ untouched b.
Proof.
  intros Hsize.
  destruct (generate_layers_shape size Hsize)
    as (nodes0 & content & Hg & Hw & Hu & Hv).
  destruct (widths_split content (Z.to_nat size))
    as (upper & base & Hc & Hun & Hb & Hmu & Hmd & Hne); [lia | exact Hw |].
  destruct (name_layers_spec content nodes0 Hu) as (Hs & Hnd & Hl & Hu').
  destruct (adjoin_u_ok size upper base) as (upw & Hau & Hlu & Hru);
    [lia | exact Hun | lia |].
  destruct (adjoin_d_ok size content) as (downw & Had & Hld & Hrd);
    [lia | subst content; destruct upper; discriminate |].
  rewrite <- Hc in Hau, Hru.
  destruct (name_layers content nodes0) as [nodes registry] eqn:Hn.
  cbn [fst snd] in Hs, Hnd, Hl, Hu'.
  exists (mk size None [] nodes content registry (map LeyLine.init upw)
            (map LeyLine.init downw) (map LeyLine.init content)).
  split; [| split].
  - unfold init. rewrite Hg. cbn [bind]. rewrite Hn, Hau, Had. reflexivity.
  - unfold geometry, all_leys. cbn.
    split; [subst content; destruct upper; discriminate |].
    split; [exact Hnd |].
    split; [| split; [| split]].
    + apply Forall_forall. intros e He.
      assert (Hin : In e.2 (concat content)).
      { rewrite <- Hs. apply in_map. now apply list_elem_of_In. }
      apply in_concat in Hin as (l & Hl' & Hin).
      unfold valid in Hv. rewrite Forall_forall in Hv.
      apply list_elem_of_In in Hl'. specialize (Hv l Hl').
      rewrite Forall_forall in Hv. apply list_elem_of_In in Hin.
      rewrite Hl. now apply Hv.
    + rewrite Hs. rewrite !Forall_app. repeat split.
      * now apply rows_ok_cells.
      * now apply rows_ok_cells.
      * now apply rows_ok_cells, layers_rows_ok.
    + rewrite !length_map. lia.
    + now rewrite length_map.
  - unfold untouched, all_leys. cbn.
    repeat split; auto.
    rewrite !Forall_app. repeat split; apply init_untouched_leys.
Qed.

(** The boards of size 0 and 1. *)
Lemma init_small size :
  size = 0 \/ size = 1 ->
  exists b, init size = Ok b /\ geometry b /\ untouched b.
Proof.
  intros [-> | ->]; eexists; (split; [vm_compute; reflexivity |]);
    (split; [unfold geometry | unfold untouched]); cbn.
  all: repeat split; try discriminate; try reflexivity;
    try (refine (bool_decide_unpack _ _); vm_compute; exact I);
    try (repeat constructor; cbn; try discriminate; try lia; tauto).
  all: intros [| [| [| r]]]; eexists; reflexivity.
Qed.

Lemma init_total size :
  0 <= size -> exists b, init size = Ok b /\ geometry b /\ untouched b.
Proof.
  intros H.
  destruct (Z.eq_dec size 0) as [-> | H0]; [apply init_small; auto |].
  destruct (Z.eq_dec size 1) as [-> | H1]; [apply init_small; auto |].
  apply init_large. lia.
Qed.

(** A negative size: [adjoin] returns [None], which [generate_leys]
    cannot iterate over. *)
Lemma init_negative size : size < 0 -> init size = Raise TypeError.
Proof. destruct size; try lia. intros _. reflexivity. Qed.

Lemma init_data_0 size b : init size = Ok b -> data_0 b = size.
Proof.
  intros H. apply init_inv in H as (? & ? & ? & ? & _ & _ & _ & ->).
  reflexivity.
Qed.

(** C8: the constructor returns a board for every size that is not
    negative, and for a negative size it raises (a [TypeError]) and
    returns no board. *)
Theorem construction_total (size : Z) :
  (0 <= size
   /\ exists b, init size = Ok b /\ data_0 b = size /\ geometry b /\ untouched b)
  \/ (size < 0 /\ init size = Raise TypeError).
Proof.
  destruct (Z.lt_ge_cases size 0) as [Hneg | Hpos].
  - right. split; [exact Hneg |]. now apply init_negative.
  - left. split; [exact Hpos |].
    destruct (init_total size Hpos) as (b & Hb & Hg & Hu).
    exists b. split; [exact Hb |]. split; [now apply init_data_0 |].
    split; assumption.
Qed.

End Constructor.

(** ** Every legal play ends with a winner *)

Section Play.

Import Board.

(** *** A legal move, spelled out *)

Lemma free_nodes_free keys b acc res node :
  free_nodes keys b acc = Ok res -> In node res ->
  In node acc \/ occupation_possible node b = Ok true.
Proof.
  revert acc. induction keys as [| k keys IH]; intros acc H Hin; cbn in H.
  - inversion H; subst. auto.
  - apply bind_Ok in H as (free & Hf & H).
    destruct (IH _ H Hin) as [Ha | Hk]; [| auto].
    destruct free; [| auto].
    apply in_app_or in Ha as [Ha | [<- | []]]; auto.
Qed.

Lemma legal_move b moves node :
  possible_variations b = Ok moves -> In node moves ->
  data_1 b = None
  /\ exists r,
       dict_get node (node_reference b) = Some r
       /\ is_marked (BoardNode.value (node_at (nodes b) r)) = false.
Proof.
  unfold possible_variations, game_over.
  destruct (data_1 b) eqn:E; cbn; intros H Hin.
  - inversion H; subst. contradiction.
  - split; [reflexivity |].
    destruct (free_nodes_free _ _ _ _ _ H Hin) as [[] | Ho].
    unfold occupation_possible in Ho.
    destruct (dict_get node (node_reference b)) as [r |]; [| discriminate].
    exists r. split; [reflexivity |]. unfold is_marked.
    destruct (_ || _); [discriminate | reflexivity].
Qed.

(** The board after [occupy_node] on a registered label. *)
Lemma occupy_node_registered node player b r :
  dict_get node (node_reference b) = Some r ->
  let b' := (occupy_node node player b).1 in
  let nodes' :=
    <[r := BoardNode.set_value (VInt (mark_of player)) (node_at (nodes b) r)]>
      (nodes b) in
  nodes b' = nodes'
  /\ upw_leys b' = map (LeyLine.calculate_positions nodes') (upw_leys b)
  /\ downw_leys b' = map (LeyLine.calculate_positions nodes') (downw_leys b)
  /\ horiz_leys b' = map (LeyLine.calculate_positions nodes') (horiz_leys b)
  /\ (data_1 b' = data_1 b
      \/ data_1 b = None /\ data_1 b' = Some player)
  /\ (data_1 b' = None -> winner player b' = false).
Proof.
  intros Hr. unfold occupy_node. cbn. rewrite Hr. cbn. fold (mark_of player).
  match goal with |- context [if ?c then _ else _] => destruct c eqn:E end;
    cbn; repeat split; auto.
  - right. apply andb_prop in E as [_ E]. unfold game_over in E. cbn in E.
    destruct (data_1 b); [discriminate | auto].
  - discriminate.
  - intros Hn. unfold game_over in E. cbn in E. rewrite Hn in E. cbn in E.
    rewrite andb_true_r in E. exact E.
Qed.

(** *** Marks and owners after a move *)

Lemma is_int_marked code v :
  code = 1 \/ code = 2 -> is_marked v = false -> is_int code v = false.
Proof.
  unfold is_marked. intros [-> | ->] H; apply orb_false_elim in H; tauto.
Qed.

Lemma node_at_marked nodes r mark c :
  node_at (<[r := BoardNode.set_value (VInt mark) (node_at nodes r)]> nodes) c
  = if decide (c = r /\ (r < length nodes)%nat)
    then BoardNode.set_value (VInt mark) (node_at nodes r)
    else node_at nodes c.
Proof.
  destruct (decide _) as [[-> Hr] | Hn].
  - now apply node_at_insert.
  - destruct (decide (r = c)) as [-> | Hne].
    + unfold node_at. rewrite list_insert_ge by lia. reflexivity.
    + now apply node_at_insert_ne.
Qed.

(** Marking a free cell leaves the counts of the other mark alone. *)
Lemma marks_other nodes r mark q cells :
  is_int q (BoardNode.value (node_at nodes r)) = false -> q <> mark ->
  marks (<[r := BoardNode.set_value (VInt mark) (node_at nodes r)]> nodes)
    q cells
  = marks nodes q cells.
Proof.
  intros Hfree Hq. induction cells as [| c cells IH]; cbn; [reflexivity |].
  rewrite IH, node_at_marked.
  destruct (decide _) as [[-> _] | _]; [| reflexivity].
  cbn. rewrite Hfree. destruct (Z.eqb_spec mark q); [congruence | reflexivity].
Qed.

Lemma claimed_cells_step nodes r mark reg :
  mark = 1 \/ mark = 2 ->
  is_marked (BoardNode.value (node_at nodes r)) = false ->
  (r < length nodes)%nat ->
  let nodes' :=
    <[r := BoardNode.set_value (VInt mark) (node_at nodes r)]> nodes in
  (claimed_cells nodes reg <= claimed_cells nodes' reg)%nat
  /\ (In r (map snd reg) ->
      (S (claimed_cells nodes reg) <= claimed_cells nodes' reg)%nat).
Proof.
  intros Hm Hfree Hr nodes'.
  induction reg as [| e reg [IH1 IH2]]; cbn; [split; [lia | tauto] |].
  unfold nodes' at 1 3. rewrite !node_at_marked.
  destruct (decide (e.2 = r /\ (r < length nodes)%nat)) as [[-> _] | Hn].
  - rewrite Hfree. cbn.
    assert (is_marked (VInt mark) = true) as ->
      by (destruct Hm as [-> | ->]; reflexivity).
    split; [lia | intros _; lia].
  - split; [lia |]. intros [He | Hin]; [tauto |]. specialize (IH2 Hin). lia.
Qed.

Lemma marks_all nodes cells :
  Forall (fun c => is_marked (BoardNode.value (node_at nodes c)) = true) cells ->
  marks nodes 1 cells + marks nodes 2 cells = Z.of_nat (length cells).
Proof.
  induction 1 as [| c cells Hc _ IH]; cbn [marks length]; [reflexivity |].
  unfold is_marked in Hc.
  destruct (BoardNode.value (node_at nodes c)) as [s | k]; [discriminate |].
  cbn in *. destruct (Z.eqb_spec k 1), (Z.eqb_spec k 2); try discriminate; lia.
Qed.

Lemma claimed_cells_all nodes reg :
  (length reg <= claimed_cells nodes reg)%nat ->
  Forall (fun c => is_marked (BoardNode.value (node_at nodes c)) = true)
    (map snd reg).
Proof.
  assert (Hle : forall reg, (claimed_cells nodes reg <= length reg)%nat).
  { induction reg0 as [| e reg0 IH]; cbn; [lia |].
    destruct (is_marked _); lia. }
  induction reg as [| e reg IH]; cbn; intros H; constructor.
  - specialize (Hle reg). destruct (is_marked _); [reflexivity | lia].
  - apply IH. specialize (Hle reg). destruct (is_marked _); lia.
Qed.

Lemma owned_total ls :
  Forall (fun x => LeyLine.taken x = None \/ LeyLine.taken x = Some "p1"
                   \/ LeyLine.taken x = Some "p2") ls ->
  Forall (fun x => LeyLine.taken x <> None) ls ->
  owned "p1" ls + owned "p2" ls = Z.of_nat (length ls).
Proof.
  induction 1 as [| x ls Hx _ IH]; intros Hn; cbn [owned length];
    [reflexivity |].
  inversion Hn as [| ? ? Hxn Hn']; subst. specialize (IH Hn').
  destruct Hx as [Hx | [Hx | Hx]]; [congruence | |]; rewrite Hx;
    repeat (destruct (decide _) as [? | ?]; try congruence); lia.
Qed.

(** A line on which player [q] is below the threshold does not go to
    [q]. *)
Lemma calculate_positions_not_assigned nodes x q code :
  q = "p1" /\ code = 1 \/ q = "p2" /\ code = 2 ->
  LeyLine.taken x = None ->
  ~ at_least_half (marks nodes code (LeyLine.cells x))
      (length (LeyLine.cells x)) ->
  LeyLine.taken (LeyLine.calculate_positions nodes x) <> Some q.
Proof.
  intros Hq Hn Hh. rewrite (calculate_positions_unowned nodes x Hn).
  rewrite <- half_reached_spec in Hh.
  destruct Hq as [[-> ->] | [-> ->]];
    destruct (LeyLine.half_reached (marks nodes 2 (LeyLine.cells x))
                (length (LeyLine.cells x))) eqn:E2;
    destruct (LeyLine.half_reached (marks nodes 1 (LeyLine.cells x))
                (length (LeyLine.cells x))) eqn:E1;
    congruence.
Qed.

Lemma owned_not_assigned nodes q code ls :
  q = "p1" /\ code = 1 \/ q = "p2" /\ code = 2 ->
  Forall (fun x =>
            LeyLine.taken x = None ->
            ~ at_least_half (marks nodes code (LeyLine.cells x))
                (length (LeyLine.cells x))) ls ->
  owned q (map (LeyLine.calculate_positions nodes) ls) = owned q ls.
Proof.
  intros Hq. induction 1 as [| x ls Hx _ IH]; cbn [map owned]; [reflexivity |].
  rewrite IH. f_equal.
  destruct (LeyLine.taken x) as [p |] eqn:E.
  - rewrite calculate_positions_owned by congruence. now rewrite E.
  - pose proof (calculate_positions_not_assigned nodes x q code Hq E (Hx eq_refl)).
    destruct (decide (_ = Some q)); [contradiction |].
    destruct (decide (None = Some q)); [discriminate | reflexivity].
Qed.

(** *** The geometry stays *)

Lemma occupy_node_nodes_length node player b :
  length (nodes (occupy_node node player b).1) = length (nodes b).
Proof.
  unfold occupy_node. cbn.
  destruct (dict_get node (node_reference b)); cbn; [| reflexivity].
  match goal with |- context [if ?c then _ else _] => destruct c end;
    cbn; apply length_insert.
Qed.

Lemma all_leys_cells node player b :
  map LeyLine.cells (all_leys (occupy_node node player b).1)
  = map LeyLine.cells (all_leys b).
Proof.
  destruct (occupy_node_static node player b) as (_ & _ & _ & Hu & Hd & Hh & _).
  unfold all_leys. rewrite !map_app. congruence.
Qed.

Lemma geometry_occupy node player b :
  geometry b -> geometry (occupy_node node player b).1.
Proof.
  intros (Hc & Hnd & Hv & Hl & Hud & Hh).
  destruct (occupy_node_static node player b)
    as (_ & Ec & Er & Eu & Ed & Eh & _).
  pose proof (all_leys_cells node player b) as Ea.
  unfold geometry. rewrite Ec, Er, occupy_node_nodes_length.
  repeat split; try assumption.
  - apply (Forall_map LeyLine.cells
             (fun cs => cs <> []
                        /\ Forall (fun c => In c (map snd (node_reference b))) cs)).
    rewrite Ea. now apply Forall_map.
  - rewrite <- (length_map LeyLine.cells (upw_leys _)), Eu, length_map.
    rewrite <- (length_map LeyLine.cells (downw_leys _)), Ed, length_map.
    exact Hud.
  - rewrite <- (length_map LeyLine.cells (horiz_leys _)), Eh, length_map.
    exact Hh.
Qed.

Lemma played_geometry size ms b :
  0 <= size -> played size ms b -> geometry b.
Proof.
  intros Hsize. induction 1 as [b H | ms b node player moves _ IH _ _ _].
  - destruct (init_total size Hsize) as (b' & Hb' & Hg & _). congruence.
  - now apply geometry_occupy.
Qed.

(** *** The invariant of a play *)

Lemma marks_unmarked nodes code cells :
  unmarked nodes -> marks nodes code cells = 0.
Proof.
  intros Hu. induction cells as [| c cells IH]; cbn; [reflexivity |].
  destruct (Hu c) as [s ->]. cbn. exact IH.
Qed.

Lemma owned_none q ls :
  Forall (fun x => LeyLine.taken x = None) ls -> owned q ls = 0.
Proof.
  induction 1 as [| x ls Hx _ IH]; cbn; [reflexivity |].
  rewrite Hx, IH. destruct (decide _); [discriminate | reflexivity].
Qed.

Lemma untouched_play_inv b : geometry b -> untouched b -> play_inv b.
Proof.
  intros (Hc & _ & _ & Hl & _ & _) (Hu & Ht & Hd & _).
  split; [| split].
  - eapply Forall_impl; [exact Hl |]. cbn. intros x [Hne _] _.
    rewrite !marks_unmarked by assumption. rewrite !at_least_half_Z.
    destruct (LeyLine.cells x); [congruence | cbn; lia].
  - eapply Forall_impl; [exact Ht |]. cbn. auto.
  - intros _. rewrite !owned_none by assumption. rewrite !at_least_half_Z.
    unfold total_leys. destruct (_content b); [congruence |].
    rewrite !Nat2Z.inj_add. cbn [length]. lia.
Qed.

Lemma all_leys_registered node player b r :
  dict_get node (node_reference b) = Some r ->
  all_leys (occupy_node node player b).1
  = map (LeyLine.calculate_positions (nodes (occupy_node node player b).1))
      (all_leys b).
Proof.
  intros Hr.
  destruct (occupy_node_registered node player b r Hr)
    as (En & Eu & Ed & Eh & _).
  unfold all_leys. rewrite Eu, Ed, Eh, En, !map_app. reflexivity.
Qed.

Lemma total_leys_occupy node player b :
  total_leys (occupy_node node player b).1 = total_leys b.
Proof.
  destruct (occupy_node_static node player b) as (_ & Ec & _ & Eu & _).
  unfold total_leys.
  rewrite Ec, <- (length_map LeyLine.cells (upw_leys _)), Eu, length_map.
  reflexivity.
Qed.

Lemma play_inv_step node player b r :
  play_inv b -> is_player player ->
  dict_get node (node_reference b) = Some r ->
  is_marked (BoardNode.value (node_at (nodes b) r)) = false ->
  play_inv (occupy_node node player b).1.
Proof.
  intros (H1 & H5 & H2) Hp Hr Hfree.
  pose proof (all_leys_registered node player b r Hr) as Ea.
  destruct (occupy_node_registered node player b r Hr)
    as (En & _ & _ & _ & Hd & Hw).
  set (b' := (occupy_node node player b).1) in *.
  unfold play_inv. rewrite Ea.
  split; [| split].
  - apply Forall_map. apply Forall_forall. intros x _ Hnone.
    rewrite calculate_positions_cells.
    assert (Hx : LeyLine.taken x = None).
    { destruct (LeyLine.taken x) eqn:E; [| reflexivity].
      rewrite calculate_positions_owned in Hnone by congruence. congruence. }
    rewrite (calculate_positions_unowned _ _ Hx) in Hnone.
    rewrite <- !half_reached_spec.
    destruct (LeyLine.half_reached (marks (nodes b') 2 (LeyLine.cells x))
                (length (LeyLine.cells x)));
      destruct (LeyLine.half_reached (marks (nodes b') 1 (LeyLine.cells x))
                  (length (LeyLine.cells x)));
      try discriminate. split; discriminate.
  - apply Forall_map. eapply Forall_impl; [exact H5 |]. cbn. intros x Hx.
    destruct (LeyLine.taken x) eqn:E.
    + rewrite calculate_positions_owned by congruence. now rewrite E.
    + rewrite (calculate_positions_unowned _ _ E).
      repeat (destruct (LeyLine.half_reached _ _)); auto.
  - intros Hnone.
    assert (Hb : data_1 b = None) by (destruct Hd as [<- | [? ?]]; congruence).
    destruct (H2 Hb) as [Hp1 Hp2].
    specialize (Hw Hnone). rewrite (winner_spec player b' Hp) in Hw.
    apply half_reached_false in Hw.
    pose proof (total_leys_occupy node player b) as Et. fold b' in Et.
    rewrite Et in *.
    assert (Hmine : ~ at_least_half (owned player (all_leys b')) (total_leys b))
      by (rewrite at_least_half_Z; lia).
    rewrite Ea in Hmine.
    assert (Hother : forall q code,
               q = "p1" /\ code = 1 \/ q = "p2" /\ code = 2 ->
               code <> mark_of player ->
               owned q (map (LeyLine.calculate_positions (nodes b')) (all_leys b))
               = owned q (all_leys b)).
    { intros q code Hq Hc. eapply owned_not_assigned; [exact Hq |].
      eapply Forall_impl; [exact H1 |]. cbn. intros x Hx Hn.
      destruct (Hx Hn) as [Hx1 Hx2].
      rewrite En, marks_other.
      - destruct Hq as [[_ ->] | [_ ->]]; assumption.
      - apply is_int_marked; [| exact Hfree].
        destruct Hq as [[_ ->] | [_ ->]]; auto.
      - exact Hc. }
    destruct Hp as [-> | ->].
    + split; [exact Hmine |].
      rewrite (Hother "p2" 2); [exact Hp2 | auto | discriminate].
    + split; [| exact Hmine].
      rewrite (Hother "p1" 1); [exact Hp1 | auto | discriminate].
Qed.

Lemma dict_get_Some_In {V} k (v : V) d :
  dict_get k d = Some v -> In (k, v) d.
Proof.
  induction d as [| [k' v'] d IH]; cbn; [discriminate |].
  destruct (String.eqb_spec k k') as [-> | _].
  - intros H. inversion H. now left.
  - intros H. right. now apply IH.
Qed.

Lemma dict_get_NoDup {V} k (v : V) d :
  NoDup (map fst d) -> In (k, v) d -> dict_get k d = Some v.
Proof.
  induction d as [| [k' v'] d IH]; cbn; [tauto |].
  intros Hnd [He | Hin].
  - inversion He; subst. now rewrite String.eqb_refl.
  - apply NoDup_cons in Hnd as [Hk Hnd].
    destruct (String.eqb_spec k k') as [-> | _]; [| now apply IH].
    exfalso. apply Hk. apply list_elem_of_In.
    apply (in_map fst) in Hin. exact Hin.
Qed.

Lemma played_inv size ms b :
  0 <= size -> played size ms b ->
  play_inv b /\ (length ms <= claimed_cells (nodes b) (node_reference b))%nat.
Proof.
  intros Hsize.
  induction 1 as [b H | ms b node player moves Hp [IH Hlen] Hm Hin Hpl].
  - destruct (init_total size Hsize) as (b' & Hb' & Hg & Hu).
    assert (b' = b) as -> by congruence.
    split; [now apply untouched_play_inv | cbn; lia].
  - pose proof (played_geometry size ms b Hsize Hp) as Hg.
    destruct (legal_move b moves node Hm Hin) as (_ & r & Hr & Hfree).
    split; [eapply play_inv_step; eauto |].
    destruct (occupy_node_registered node player b r Hr) as (En & _).
    destruct (occupy_node_static node player b) as (_ & _ & Er & _).
    rewrite En, Er, length_app. cbn [length].
    destruct Hg as (_ & _ & Hv & _).
    pose proof (dict_get_Some_In _ _ _ Hr) as Hinr.
    rewrite Forall_forall in Hv.
    pose proof (Hv _ (proj2 (list_elem_of_In _ _) Hinr)) as Hrl. cbn in Hrl.
    destruct (claimed_cells_step (nodes b) r (mark_of player) (node_reference b))
      as [_ Hs]; try assumption.
    { unfold mark_of. destruct (String.eqb player "p1"); auto. }
    specialize (Hs (in_map snd _ _ Hinr)). cbn in Hs. lia.
Qed.

(** When every cell is claimed there is a winner. *)
Lemma all_claimed_over b :
  geometry b -> play_inv b ->
  (length (node_reference b) <= claimed_cells (nodes b) (node_reference b))%nat ->
  data_1 b <> None.
Proof.
  intros (_ & _ & _ & Hl & Hud & Hh) (H1 & H5 & H2) Hall Hnone.
  apply claimed_cells_all in Hall. rewrite Forall_forall in Hall.
  assert (Hown : Forall (fun x => LeyLine.taken x <> None) (all_leys b)).
  { apply Forall_forall. intros x Hx Hn.
    rewrite Forall_forall in H1, Hl.
    destruct (H1 x Hx Hn) as [Hc1 Hc2]. destruct (Hl x Hx) as [_ Hreg].
    assert (Hm : marks (nodes b) 1 (LeyLine.cells x)
                 + marks (nodes b) 2 (LeyLine.cells x)
                 = Z.of_nat (length (LeyLine.cells x))).
    { apply marks_all. eapply Forall_impl; [exact Hreg |]. cbn.
      intros c Hc. apply Hall. now apply list_elem_of_In. }
    rewrite at_least_half_Z in Hc1, Hc2. lia. }
  pose proof (owned_total (all_leys b) H5 Hown) as Ht.
  destruct (H2 Hnone) as [Hp1 Hp2].
  rewrite at_least_half_Z in Hp1, Hp2.
  unfold total_leys, all_leys in *. rewrite !length_app in Ht. lia.
Qed.

(** Every label of the registry is looked at, and a free one is kept. *)
Lemma free_nodes_total keys b :
  (forall k, In k keys -> In k (map fst (node_reference b))) ->
  forall acc,
  exists res,
    free_nodes keys b acc = Ok res
    /\ (forall k, In k acc -> In k res)
    /\ (forall k, In k keys -> occupation_possible k b = Ok true -> In k res).
Proof.
  induction keys as [| k keys IH]; intros Hk acc; cbn.
  - exists acc. repeat split; auto. contradiction.
  - assert (Ho : exists free, occupation_possible k b = Ok free).
    { unfold occupation_possible.
      destruct (dict_get k (node_reference b)) eqn:E.
      - destruct (_ || _); eauto.
      - apply dict_get_None in E. exfalso. apply E, Hk. now left. }
    destruct Ho as [free Ho]. rewrite Ho. cbn [bind].
    destruct (IH (fun k' H' => Hk k' (or_intror H'))
                (if free then acc ++ [k] else acc))
      as (res & -> & Hacc & Hkeys).
    exists res. split; [reflexivity |]. split.
    + intros k' Hk'. apply Hacc. destruct free; [| exact Hk'].
      apply in_or_app. now left.
    + intros k' [<- | Hk'] Hfree; [| now apply Hkeys].
      apply Hacc. rewrite Ho in Hfree. inversion Hfree; subst.
      apply in_or_app. right. now left.
Qed.

Lemma free_cell_offered b :
  geometry b -> data_1 b = None ->
  (claimed_cells (nodes b) (node_reference b) < length (node_reference b))%nat ->
  exists moves, possible_variations b = Ok moves /\ moves <> [].
Proof.
  intros (_ & Hnd & _) Hnone Hlt.
  assert (He : exists k r,
             In (k, r) (node_reference b)
             /\ is_marked (BoardNode.value (node_at (nodes b) r)) = false).
  { revert Hlt. generalize (node_reference b) as reg.
    induction reg as [| [k r] reg IH]; cbn; [lia |].
    destruct (is_marked _) eqn:E; intros Hlt.
    - destruct IH as (k' & r' & Hin & Hf); [lia |]. eauto 6.
    - eauto 6. }
  destruct He as (k & r & Hin & Hf).
  unfold possible_variations, game_over. rewrite Hnone. cbn.
  destruct (free_nodes_total (map fst (node_reference b)) b (fun _ H => H) [])
    as (res & -> & _ & Hres).
  exists res. split; [reflexivity |]. intros ->.
  apply (Hres k).
  - apply (in_map fst) in Hin. exact Hin.
  - unfold occupation_possible. rewrite (dict_get_NoDup _ _ _ Hnd Hin).
    unfold is_marked in Hf. now rewrite Hf.
Qed.

(** C9: on a board of any size that is not negative, a sequence of legal
    moves is never longer than the number of cells; as long as there is
    no winner it is shorter and a legal move is on offer; so a play
    cannot stop before the winner flag is set, and the flag is set at the
    latest when every cell has been claimed. *)
Theorem legal_play_ends (size : Z) (ms : list (string * string)) (b : t) :
  0 <= size ->
  played size ms b ->
  (length ms <= length (node_reference b))%nat
  /\ (data_1 b = None ->
      (length ms < length (node_reference b))%nat
      /\ exists moves, possible_variations b = Ok moves /\ moves <> [])
  /\ (length ms = length (node_reference b) -> game_over b = true).
Proof.
  intros Hsize Hp.
  pose proof (played_geometry size ms b Hsize Hp) as Hg.
  destruct (played_inv size ms b Hsize Hp) as [Hinv Hlen].
  assert (Hle : (claimed_cells (nodes b) (node_reference b)
                 <= length (node_reference b))%nat).
  { generalize (node_reference b) as reg.
    induction reg as [| e reg IH]; cbn; [lia |]. destruct (is_marked _); lia. }
  assert (Hopen : data_1 b = None ->
                  (claimed_cells (nodes b) (node_reference b)
                   < length (node_reference b))%nat).
  { intros Hnone.
    destruct (Nat.lt_ge_cases (claimed_cells (nodes b) (node_reference b))
                (length (node_reference b))) as [Hlt | Hge]; [exact Hlt |].
    exfalso. now apply (all_claimed_over b Hg Hinv Hge). }
  split; [lia |]. split.
  - intros Hnone. specialize (Hopen Hnone). split; [lia |].
    now apply free_cell_offered.
  - intros Hall. unfold game_over.
    destruct (data_1 b) eqn:E; [reflexivity |].
    specialize (Hopen eq_refl). lia.
Qed.

Lemma legal_play_ends_witness :
  0 <= 1
  /\ played 1 [("B", "p2")] (occupy_node "B" "p2" (board_of 1)).1
  /\ (1 <= length (node_reference (occupy_node "B" "p2" (board_of 1)).1))%nat.
Proof.
  assert (Hp : played 1 ([] ++ [("B", "p2")])
                 (occupy_node "B" "p2" (board_of 1)).1).
  { apply (played_move 1 [] (board_of 1) "B" "p2" ["A"; "B"; "C"]).
    - apply played_init. reflexivity.
    - reflexivity.
    - right; left; reflexivity.
    - right; reflexivity. }
  split; [lia |]. split; [exact Hp |].
  exact (proj1 (legal_play_ends 1 _ _ ltac:(lia) Hp)).
Defined.

End Play.

(** ** Ley-lines that are almost owned *)

Section AlmostOwns.

Lemma count_code_marks nodes code cells count :
  LeyLine.count_code nodes code cells count = count + marks nodes code cells.
Proof.
  revert count. induction cells as [| c cells IH]; intros count; cbn; [lia |].
  rewrite IH. destruct (is_int code _); lia.
Qed.

Lemma marks_bounds nodes code cells :
  0 <= marks nodes code cells <= Z.of_nat (length cells).
Proof.
  induction cells as [| c cells IH]; cbn [marks length]; [lia |].
  destruct (is_int code _); lia.
Qed.

(** X1: [almost_owns(player)] holds exactly when the player's marks on
    the line, less one, still reach half of the cells; so it holds only
    on lines of two cells or more on which the player is already at the
    threshold of ownership, and never on a line the player has yet to
    reach the threshold on. *)
Theorem almost_owns_threshold (nodes : list BoardNode.t) (player : string)
    (l : LeyLine.t) :
  let n := length (LeyLine.cells l) in
  let c := marks nodes (mark_of player) (LeyLine.cells l) in
  (LeyLine.almost_owns nodes player l = true <-> Z.of_nat n + 2 <= 2 * c)
  /\ (LeyLine.almost_owns nodes player l = true ->
      (2 <= n)%nat /\ at_least_half c n).
Proof.
  intros n c.
  assert (E : LeyLine.almost_owns nodes player l
              = LeyLine.half_reached (c - 1) n).
  { unfold LeyLine.almost_owns. rewrite count_code_marks, Z.add_0_l.
    fold (mark_of player). fold c. fold n.
    rewrite Z.div_1_r, Z.eqb_refl. reflexivity. }
  pose proof (marks_bounds nodes (mark_of player) (LeyLine.cells l)) as Hb.
  fold c n in Hb.
  rewrite E. split.
  - rewrite half_reached_Z. lia.
  - rewrite half_reached_Z, at_least_half_Z. lia.
Qed.

Lemma almost_owns_threshold_witness :
  LeyLine.almost_owns [BoardNode.mk (VInt 1) None; BoardNode.mk (VInt 1) None]
    "p1" shared_line = true
  /\ at_least_half 2 2.
Proof.
  split; [reflexivity |].
  apply (almost_owns_threshold
           [BoardNode.mk (VInt 1) None; BoardNode.mk (VInt 1) None]
           "p1" shared_line).
  reflexivity.
Defined.

End AlmostOwns.

(** ** The stack of the iterative search *)

Section StackLaws.

Import Stack.

Lemma remove_add v s : remove (add v s) = Ok (s, v).
Proof.
  destruct s as [c]. unfold remove, add. cbn [_content].
  rewrite last_snoc, removelast_last. reflexivity.
Qed.

(** X2: the stack is last in, first out: after the values [vs] are
    added one by one, as many calls of [remove] return them in reverse
    order and leave the stack as it was before. *)
Theorem stack_lifo (vs : list nat) (s : Stack.t) :
  pops (length vs) (foldl (fun s v => add v s) s vs) = Ok (s, rev vs)
  /\ get_size (foldl (fun s v => add v s) s vs)
     = (get_size s + length vs)%nat
  /\ get_content (foldl (fun s v => add v s) s vs) = get_content s ++ vs.
Proof.
  split; [| split].
  - induction vs as [| v vs IH] using rev_ind; [reflexivity |].
    rewrite foldl_app, length_app, Nat.add_comm, rev_unit. cbn [length Nat.add foldl pops].
    rewrite remove_add. cbn [bind]. rewrite IH. reflexivity.
  - revert s. induction vs as [| v vs IH]; intros s; cbn [foldl length]; [lia |].
    rewrite IH. unfold get_size, add. cbn. rewrite length_app. cbn. lia.
  - revert s. induction vs as [| v vs IH]; intros s; cbn [foldl].
    + now rewrite app_nil_r.
    + rewrite IH. unfold get_content, add. cbn. now rewrite <- app_assoc.
Qed.

(** X3: [remove] raises an [IndexError] exactly on the empty stack, the
    test of [is_empty] before the [pop] notwithstanding; on any other
    stack it returns the value that was added last. *)
Theorem stack_remove_empty (s : Stack.t) :
  (remove s = Raise IndexError <-> is_empty s = true)
  /\ (is_empty s = true <-> get_size s = 0%nat)
  /\ (is_empty s = false ->
      exists s' v, remove s = Ok (s', v) /\ s = add v s').
Proof.
  destruct s as [c]. unfold remove, is_empty, get_size, add. cbn [_content].
  destruct c as [| x c] using rev_ind.
  - cbn. repeat split; auto; discriminate.
  - rewrite last_snoc, removelast_last, length_app. cbn [length].
    rewrite Nat.add_comm. cbn.
    repeat split; try discriminate; try lia.
    intros _. exists (mk c), x. split; reflexivity.
Qed.

Lemma stack_remove_empty_witness :
  remove Stack.init = Raise IndexError
  /\ exists s' v, remove (add 5%nat Stack.init) = Ok (s', v).
Proof.
  split.
  - apply (stack_remove_empty Stack.init). reflexivity.
  - destruct (stack_remove_empty (add 5%nat Stack.init)) as (_ & _ & H).
    destruct (H eq_refl) as (s' & v & E & _). exists s', v. exact E.
Defined.

End StackLaws.

(** ** Rows and columns *)

Section Columns.

Import Board.

Context {A : Type}.
Implicit Types (a : list (list A)) (x : list A).

(** The rows that [top_to_line] returns are the columns of [a] that are
    not empty, one after the other. *)
Lemma top_to_line_from_columns a todo :
  forall index,
    top_to_line_from a todo index
    = map (column a) (seq index (Nat.min todo (maxlen a - index))).
Proof.
  induction todo as [| todo IH]; intros index; [reflexivity |].
  cbn [top_to_line_from]. rewrite IH.
  destruct (column a index) as [| v k] eqn:E.
  - apply column_nil in E.
    replace (maxlen a - index)%nat with 0%nat by lia.
    replace (maxlen a - S index)%nat with 0%nat by lia.
    now rewrite !Nat.min_0_r.
  - assert (H : (index < maxlen a)%nat).
    { destruct (le_lt_dec (maxlen a) index) as [Hle |]; [| assumption].
      apply column_nil in Hle. congruence. }
    replace (Nat.min (S todo) (maxlen a - index))
      with (S (Nat.min todo (maxlen a - S index))) by lia.
    cbn [seq map app]. now rewrite E.
Qed.

Lemma row_cells x :
  forall n, (length x <= n)%nat ->
    concat (map (fun i => if Nat.ltb i (length x)
                          then option_list (x !! i) else [])
              (seq 0 n))
    = x.
Proof.
  induction x as [| y x IH]; intros n Hn.
  - induction (seq 0 n) as [| i l IHl]; [reflexivity |]. cbn. exact IHl.
  - destruct n as [| n]; [cbn in Hn; lia |].
    cbn [seq map concat]. rewrite <- seq_shift, map_map.
    transitivity
      ([y] ++ concat (map (fun i => if Nat.ltb i (length x)
                                    then option_list (x !! i) else [])
                        (seq 0 n))); [reflexivity |].
    rewrite IH by (cbn in Hn; lia). reflexivity.
Qed.

Lemma columns_cells a :
  forall n, (maxlen a <= n)%nat ->
    Permutation (concat (map (column a) (seq 0 n))) (concat a).
Proof.
  induction a as [| x a IH]; intros n Hn.
  - induction (seq 0 n) as [| i l IHl]; [reflexivity |]. cbn. exact IHl.
  - unfold maxlen in Hn. cbn [map foldr] in Hn. fold (maxlen a) in Hn.
    cbn [concat]. rewrite <- (row_cells x n) at 2 by lia.
    rewrite <- (IH n) by lia.
    unfold column at 1. cbn [flat_map]. fold (column a).
    induction (seq 0 n) as [| i l IHl]; [reflexivity |].
    cbn [map concat]. rewrite IHl.
    rewrite <- !app_assoc. apply Permutation_app_head.
    rewrite !app_assoc. apply Permutation_app_tail.
    apply Permutation_app_comm.
Qed.

(** X4: called as [adjoin] calls it, with a width that is at least the
    greatest length of a list of [a] less one, [top_to_line] transposes
    [a]: its [i]-th row is the [i]-th column of [a], there is one row
    for each column, and together the rows hold the elements of [a],
    none lost and none twice. *)
Theorem top_to_line_transposes (a : list (list A)) (max_width : nat) :
  (maxlen a <= S max_width)%nat ->
  top_to_line a max_width 0 = map (column a) (seq 0 (maxlen a))
  /\ length (top_to_line a max_width 0) = maxlen a
  /\ Permutation (concat (top_to_line a max_width 0)) (concat a).
Proof.
  intros H.
  assert (E : top_to_line a max_width 0 = map (column a) (seq 0 (maxlen a))).
  { unfold top_to_line. rewrite top_to_line_from_columns. do 2 f_equal. lia. }
  rewrite E. split; [reflexivity |].
  split; [now rewrite length_map, length_seq |].
  now apply columns_cells.
Qed.

(** X5: [bottom_to_line] returns what [top_to_line] returns, except
    when it is called with the width 0 on lists that hold an element:
    then it returns no row at all.  With the greatest length of a list
    as the width, as the docstrings of both require, the two agree. *)
Theorem bottom_to_line_top_to_line (a : list (list A)) (max_width : nat) :
  (bottom_to_line a max_width 0 = top_to_line a max_width 0
   <-> (0 < max_width)%nat \/ maxlen a = 0%nat)
  /\ bottom_to_line a 0 0 = []
  /\ bottom_to_line a (maxlen a) 0 = top_to_line a (maxlen a) 0.
Proof.
  assert (Hpos : forall w, (0 < w)%nat ->
                           bottom_to_line a w 0 = top_to_line a w 0).
  { intros [| w] Hw; [lia |]. reflexivity. }
  assert (H0 : bottom_to_line a 0 0 = []) by reflexivity.
  assert (T0 : top_to_line a 0 0 = [] <-> maxlen a = 0%nat).
  { unfold top_to_line. rewrite top_to_line_from_columns.
    destruct (maxlen a) as [| m]; cbn; split; congruence. }
  split; [| split; [exact H0 |]].
  - destruct max_width as [| w].
    + rewrite H0. split.
      * intros E. right. now apply T0.
      * intros [Hw | Hm]; [lia |]. symmetry. now apply T0.
    + split; [intros _; left; lia | intros _; apply Hpos; lia].
  - destruct (maxlen a) as [| m] eqn:E; [| apply Hpos; lia].
    rewrite H0. symmetry. now apply T0.
Qed.

End Columns.

Lemma top_to_line_transposes_witness :
  Board.top_to_line [[1; 2; 3; 4]; [5; 6]] 3 0 = [[1; 5]; [2; 6]; [3]; [4]]
  /\ Permutation [1; 5; 2; 6; 3; 4] [1; 2; 3; 4; 5; 6].
Proof.
  destruct (top_to_line_transposes [[1; 2; 3; 4]; [5; 6]] 3) as (E & _ & P).
  - cbn. lia.
  - split; [exact E | exact P].
Defined.

(** ** Looking nodes up by value *)

Section Values.

Import Board.

Variable nodes : list BoardNode.t.

Lemma pyval_eqb_eq v w : pyval_eqb v w = true <-> v = w.
Proof.
  destruct v as [s | n], w as [s' | n']; cbn; try (split; discriminate).
  - rewrite String.eqb_eq. split; congruence.
  - rewrite Z.eqb_eq. split; congruence.
Qed.

Lemma pyval_eqb_refl v : pyval_eqb v v = true.
Proof. now apply pyval_eqb_eq. Qed.

Lemma with_value_app v l1 l2 :
  with_value nodes v (l1 ++ l2) = with_value nodes v l1 ++ with_value nodes v l2.
Proof. apply List.filter_app. Qed.

Lemma find_in_row v k :
  forall res,
    foldl (fun res u => if pyval_eqb (BoardNode.value (node_at nodes u)) v
                        then Some u else res) res k
    = match last (with_value nodes v k) with
      | Some u => Some u
      | None => res
      end.
Proof.
  induction k as [| u k IH] using rev_ind; intros res; [reflexivity |].
  rewrite foldl_app, with_value_app. cbn [foldl].
  unfold with_value at 2. cbn [List.filter]. unfold value_at.
  destruct (pyval_eqb _ v).
  - now rewrite last_snoc.
  - rewrite app_nil_r. apply IH.
Qed.

Lemma find_with_value_from v l :
  forall res,
    foldl
      (fun res k =>
         foldl (fun res u => if pyval_eqb (BoardNode.value (node_at nodes u)) v
                             then Some u else res) res k)
      res l
    = match last (with_value nodes v (concat l)) with
      | Some u => Some u
      | None => res
      end.
Proof.
  induction l as [| k l IH] using rev_ind; intros res; [reflexivity |].
  rewrite foldl_app, concat_app, with_value_app. cbn [foldl concat].
  rewrite app_nil_r, find_in_row, last_app, IH.
  destruct (last (with_value nodes v k)); reflexivity.
Qed.

Lemma with_value_In v l u :
  In u (with_value nodes v l) <-> In u l /\ value_at nodes u = v.
Proof.
  unfold with_value. rewrite List.filter_In, pyval_eqb_eq. reflexivity.
Qed.

(** Where values are distinct, a value is found once. *)
Lemma with_value_unique l u :
  NoDup (map (value_at nodes) l) -> In u l ->
  with_value nodes (value_at nodes u) l = [u].
Proof.
  induction l as [| x l IH]; intros Hnd Hin; [destruct Hin |].
  cbn [map] in Hnd. apply NoDup_cons in Hnd as [Hx Hnd].
  unfold with_value. cbn [List.filter]. fold (with_value nodes (value_at nodes u) l).
  destruct Hin as [-> | Hin].
  - rewrite pyval_eqb_refl. f_equal.
    destruct (with_value nodes (value_at nodes u) l) as [| y ys] eqn:E;
      [reflexivity |].
    assert (Hy : In y (with_value nodes (value_at nodes u) l))
      by (rewrite E; now left).
    apply with_value_In in Hy as [Hy Hv].
    exfalso. apply Hx. rewrite <- Hv. apply list_elem_of_In.
    now apply in_map.
  - destruct (pyval_eqb (value_at nodes x) (value_at nodes u)) eqn:E.
    + apply pyval_eqb_eq in E. exfalso. apply Hx. rewrite E.
      apply list_elem_of_In. now apply in_map.
    + now apply IH.
Qed.

Lemma find_with_value_eq l v :
  find_with_value nodes l v = last (with_value nodes v (concat l)).
Proof.
  unfold find_with_value. rewrite find_with_value_from.
  destruct (last _); reflexivity.
Qed.

Lemma find_with_value_own l u :
  NoDup (map (value_at nodes) (concat l)) -> In u (concat l) ->
  find_with_value nodes l (value_at nodes u) = Some u.
Proof.
  intros Hnd Hu. rewrite find_with_value_eq, with_value_unique by assumption.
  reflexivity.
Qed.

(** X6: [find_with_value(l, value)] returns the last node of [l], in
    reading order, whose value is [value], and [None] when no node has
    it; so a node it returns is in [l] and has that value, and where the
    values of [l] are distinct every node of [l] is found by its own
    value. *)
Theorem find_with_value_last (l : list (list nat)) (value : pyval) :
  find_with_value nodes l value = last (with_value nodes value (concat l))
  /\ (find_with_value nodes l value = None
      <-> forall u, In u (concat l) -> value_at nodes u <> value)
  /\ (forall u, find_with_value nodes l value = Some u ->
                In u (concat l) /\ value_at nodes u = value)
  /\ (NoDup (map (value_at nodes) (concat l)) ->
      forall u, In u (concat l) ->
                find_with_value nodes l (value_at nodes u) = Some u).
Proof.
  pose proof (find_with_value_eq l) as E.
  split; [apply E |]. split; [| split].
  - rewrite E, last_None. split.
    + intros H u Hu Hv.
      assert (Hin : In u (with_value nodes value (concat l)))
        by now apply with_value_In.
      rewrite H in Hin. destruct Hin.
    + intros H. destruct (with_value nodes value (concat l)) as [| u us] eqn:F;
        [reflexivity |].
      assert (Hin : In u (with_value nodes value (concat l)))
        by (rewrite F; now left).
      apply with_value_In in Hin as [Hin Hv]. now destruct (H u Hin).
  - intros u Hu. rewrite E in Hu. apply last_Some in Hu as (l' & Hl).
    apply with_value_In. rewrite Hl. apply in_or_app. right. now left.
  - intros Hnd u Hu. now apply find_with_value_own.
Qed.

(** X7: [organize_in_structures(l1, l2)] has the shape of [l2]; and a
    structure whose nodes have distinct values, organized after itself,
    comes back node for node. *)
Theorem organize_in_structures_shape (l1 l2 : list (list nat)) :
  map length (organize_in_structures nodes l1 l2) = map length l2
  /\ (NoDup (map (value_at nodes) (concat l2)) ->
      organize_in_structures nodes l2 l2 = map (map Some) l2).
Proof.
  split.
  - unfold organize_in_structures. rewrite map_map.
    apply map_ext. intros x. now rewrite length_map.
  - intros Hnd. unfold organize_in_structures.
    apply map_ext_in. intros x Hx. apply map_ext_in. intros u Hu.
    apply find_with_value_own; [exact Hnd |]. eapply In_concat; eauto.
Qed.

Lemma find_cells_from cells cont :
  forall res,
    foldl
      (fun res cell =>
         foldl (fun res x => foldl (fun res i => add_if nodes cell i res) res x)
           res cont)
      res cells
    = res ++ flat_map
               (fun cell => with_value nodes (value_at nodes cell) (concat cont))
               cells.
Proof.
  assert (Hrow : forall cell x res,
             foldl (fun res i => add_if nodes cell i res) res x
             = res ++ with_value nodes (value_at nodes cell) x).
  { intros cell. induction x as [| i x IH]; intros res; cbn [foldl].
    - now rewrite app_nil_r.
    - rewrite IH. unfold add_if, with_value. cbn [List.filter].
      unfold value_at.
      replace (pyval_eqb (BoardNode.value (node_at nodes i))
                 (BoardNode.value (node_at nodes cell)))
        with (pyval_eqb (BoardNode.value (node_at nodes cell))
                (BoardNode.value (node_at nodes i))).
      + destruct (pyval_eqb _ _); [now rewrite <- app_assoc | reflexivity].
      + destruct (pyval_eqb (BoardNode.value (node_at nodes cell)) _) eqn:E1,
          (pyval_eqb (BoardNode.value (node_at nodes i)) _) eqn:E2;
          try reflexivity.
        * apply pyval_eqb_eq in E1. rewrite E1, pyval_eqb_refl in E2.
          discriminate.
        * apply pyval_eqb_eq in E2. rewrite E2, pyval_eqb_refl in E1.
          discriminate. }
  assert (Hcont : forall cell cont res,
             foldl (fun res x => foldl (fun res i => add_if nodes cell i res) res x)
               res cont
             = res ++ with_value nodes (value_at nodes cell) (concat cont)).
  { intros cell. induction cont0 as [| x cont0 IH]; intros res; cbn [foldl concat].
    - now rewrite app_nil_r.
    - rewrite IH, Hrow, with_value_app. now rewrite <- app_assoc. }
  induction cells as [| cell cells IH]; intros res; cbn [foldl flat_map].
  - now rewrite app_nil_r.
  - rewrite IH, Hcont. now rewrite <- app_assoc.
Qed.

(** X8: [find_cells(cells, cont)] lists, for each cell in turn, the
    nodes of [cont] with the cell's value; where the values of [cont]
    are distinct and the cells are nodes of [cont], it is a copy of
    [cells]. *)
Theorem find_cells_copy (cells : list nat) (cont : list (list nat)) :
  find_cells nodes cells cont
  = flat_map (fun cell => with_value nodes (value_at nodes cell) (concat cont))
      cells
  /\ (NoDup (map (value_at nodes) (concat cont)) ->
      (forall cell, In cell cells -> In cell (concat cont)) ->
      find_cells nodes cells cont = cells).
Proof.
  assert (E : find_cells nodes cells cont
              = flat_map
                  (fun cell => with_value nodes (value_at nodes cell) (concat cont))
                  cells)
    by (unfold find_cells; now rewrite find_cells_from).
  split; [exact E |].
  intros Hnd Hin. rewrite E. clear E.
  induction cells as [| cell cells IH]; [reflexivity |].
  cbn [flat_map]. rewrite with_value_unique; [| assumption | apply Hin; now left].
  cbn. f_equal. apply IH. intros c Hc. apply Hin. now right.
Qed.

End Values.

Lemma find_with_value_last_witness :
  Board.find_with_value
    [BoardNode.mk (VStr "A") None; BoardNode.mk (VStr "B") None;
     BoardNode.mk (VInt 1) None]
    [[0; 1]; [2]]%nat (VStr "B")
  = Some 1%nat.
Proof.
  destruct (find_with_value_last
              [BoardNode.mk (VStr "A") None; BoardNode.mk (VStr "B") None;
               BoardNode.mk (VInt 1) None] [[0; 1]; [2]]%nat (VInt 0))
    as (_ & _ & _ & H).
  apply (H ltac:(refine (bool_decide_unpack _ _); vm_compute; exact I) 1%nat).
  cbn. tauto.
Defined.

Lemma organize_in_structures_shape_witness :
  Board.organize_in_structures
    [BoardNode.mk (VStr "A") None; BoardNode.mk (VStr "B") None;
     BoardNode.mk (VInt 1) None]
    [[0; 1]; [2]]%nat [[0; 1]; [2]]%nat
  = [[Some 0; Some 1]; [Some 2]]%nat.
Proof.
  apply (organize_in_structures_shape
           [BoardNode.mk (VStr "A") None; BoardNode.mk (VStr "B") None;
            BoardNode.mk (VInt 1) None] [] [[0; 1]; [2]]%nat).
  refine (bool_decide_unpack _ _). vm_compute. exact I.
Defined.

Lemma find_cells_copy_witness :
  Board.find_cells
    [BoardNode.mk (VStr "A") None; BoardNode.mk (VStr "B") None;
     BoardNode.mk (VInt 1) None]
    [2; 0]%nat [[0; 1]; [2]]%nat
  = [2; 0]%nat.
Proof.
  apply (find_cells_copy
           [BoardNode.mk (VStr "A") None; BoardNode.mk (VStr "B") None;
            BoardNode.mk (VInt 1) None] [2; 0]%nat [[0; 1]; [2]]%nat).
  - refine (bool_decide_unpack _ _). vm_compute. exact I.
  - cbn. tauto.
Defined.

(** ** The fresh board: its dimensions, labels and moves *)

Section FreshBoard.

Import Board.

Lemma sum_seq_3 k : (2 * list_sum (seq 3 k) = k * (k + 5))%nat.
Proof.
  induction k as [| k IH]; [reflexivity |].
  rewrite seq_S, list_sum_app.
  change (list_sum [(3 + k)%nat]) with (3 + k + 0)%nat. nia.
Qed.

Lemma widths_sum N :
  (1 <= N)%nat -> (2 * list_sum (widths N) = N * (N + 5))%nat.
Proof.
  intros HN. unfold widths.
  change (list_sum (2%nat :: seq 3 (N - 1) ++ [N]))
    with (2 + list_sum (seq 3 (N - 1) ++ [N]))%nat.
  rewrite list_sum_app. change (list_sum [N]) with (N + 0)%nat.
  pose proof (sum_seq_3 (N - 1)) as H.
  destruct N as [| N]; [lia |]. cbn [Nat.sub] in *.
  rewrite Nat.sub_0_r in *. nia.
Qed.

Lemma cell_count_sum (content : list (list nat)) :
  cell_count content = list_sum (map length content).
Proof.
  unfold cell_count. induction content as [| l content IH]; [reflexivity |].
  cbn. rewrite length_app, IH. reflexivity.
Qed.

(** X9: the board of size [size >= 1] has [size + 1] layers, of 2, 3,
    ..., [size + 1] and last [size] cells; [size + 1] ley-lines in each
    of the three directions; and [size * (size + 5) / 2] cells, each
    under a label of its own. *)
Theorem board_dimensions (size : Z) (b : Board.t) :
  1 <= size ->
  init size = Ok b ->
  map length (_content b) = widths (Z.to_nat size)
  /\ length (upw_leys b) = Z.to_nat (size + 1)
  /\ length (downw_leys b) = Z.to_nat (size + 1)
  /\ length (horiz_leys b) = Z.to_nat (size + 1)
  /\ total_leys b = Z.to_nat (3 * (size + 1))
  /\ map snd (node_reference b) = concat (_content b)
  /\ 2 * Z.of_nat (length (node_reference b)) = size * (size + 5).
Proof.
  intros Hsize Hb.
  destruct (Z.eq_dec size 1) as [-> | H1].
  { vm_compute in Hb. injection Hb as <-. vm_compute. repeat split. }
  assert (H2 : 2 <= size) by lia.
  destruct (generate_layers_shape size H2)
    as (nodes0 & content & Hg & Hw & Hu & Hv).
  destruct (widths_split content (Z.to_nat size))
    as (upper & base & Hc & Hun & Hbase & Hmu & Hmd & Hne); [lia | exact Hw |].
  destruct (name_layers_spec content nodes0 Hu) as (Hs & _).
  destruct (adjoin_u_ok size upper base) as (upw & Hau & Hlu & _);
    [lia | exact Hun | lia |].
  destruct (adjoin_d_ok size content) as (downw & Had & Hld & _);
    [lia | subst content; destruct upper; discriminate |].
  rewrite <- Hc in Hau.
  apply init_inv in Hb as (nodes0' & content' & upw' & downw' & Hg' & Hau'
                           & Had' & ->).
  rewrite Hg in Hg'. injection Hg' as <- <-.
  rewrite Hau in Hau'. injection Hau' as <-.
  rewrite Had in Had'. injection Had' as <-.
  assert (Hlen : length content = S (Z.to_nat size)).
  { rewrite <- (length_map length), Hw. unfold widths. cbn [length].
    rewrite length_app, length_seq. cbn. lia. }
  unfold total_leys. cbn [_content upw_leys downw_leys horiz_leys node_reference].
  rewrite !length_map.
  split; [exact Hw |]. split; [lia |]. split; [lia |]. split; [lia |].
  split; [lia |]. split; [exact Hs |].
  rewrite <- (length_map snd), Hs. fold (cell_count content).
  rewrite cell_count_sum, Hw.
  pose proof (widths_sum (Z.to_nat size)) as Hsum. nia.
Qed.

Lemma board_dimensions_witness :
  length (upw_leys (board_of 2)) = 3%nat
  /\ total_leys (board_of 2) = 9%nat
  /\ 2 * Z.of_nat (length (node_reference (board_of 2))) = 14.
Proof.
  destruct (board_dimensions 2 (board_of 2)) as (_ & H1 & _ & _ & H2 & _ & H3).
  - lia.
  - reflexivity.
  - auto.
Defined.

Lemma nth_label_inj k k' : nth_label k = nth_label k' -> k = k'.
Proof.
  unfold nth_label. intros H.
  apply label_inj in H as [Hm Hd];
    [| apply Nat.mod_upper_bound; lia | apply Nat.mod_upper_bound; lia].
  rewrite (Nat.div_mod_eq k 26), (Nat.div_mod_eq k' 26). lia.
Qed.

Lemma name_node_labelled st n b :
  labelled st n -> labelled (name_node st b) (S n).
Proof.
  intros (Hkeys & Hpos).
  assert (Hname :
    exists i a,
      (if Nat.eqb (index st) (length alphabet)
       then (O, S (add_on st)) else (index st, add_on st)) = (i, a)
      /\ i = (n mod 26)%nat /\ a = (n / 26)%nat).
  { change (length alphabet) with 26%nat.
    destruct Hpos as [(-> & Hi & Ha) | (Hn & Hi & Ha)].
    - rewrite Hi, Ha. exists 0%nat, 0%nat. repeat split.
    - pose proof (Nat.div_mod_eq (n - 1) 26) as E1.
      pose proof (Nat.mod_upper_bound (n - 1) 26) as B1.
      pose proof (Nat.div_mod_eq n 26) as E2.
      pose proof (Nat.mod_upper_bound n 26) as B2.
      destruct (Nat.eqb_spec (index st) 26) as [E | E]; eexists _, _;
        (split; [reflexivity |]); nia. }
  destruct Hname as (i & a & Hsel & -> & ->).
  unfold name_node. rewrite Hsel. fold (label (n mod 26) (n / 26)).
  fold (nth_label n). unfold labelled. cbn [registry index add_on].
  split.
  - rewrite dict_set_fresh.
    + rewrite map_app, Hkeys, seq_S, map_app. reflexivity.
    + rewrite Hkeys. intros Hin. apply in_map_iff in Hin as (k & Hk & Hin).
      apply nth_label_inj in Hk. apply in_seq in Hin. lia.
  - right. cbn [Nat.sub]. rewrite Nat.sub_0_r. repeat split; lia.
Qed.

Lemma name_row_labelled l :
  forall st n, labelled st n -> labelled (foldl name_node st l) (n + length l).
Proof.
  induction l as [| b l IH]; intros st n H; cbn [foldl length].
  - now rewrite Nat.add_0_r.
  - replace (n + S (length l))%nat with (S n + length l)%nat by lia.
    apply IH. now apply name_node_labelled.
Qed.

Lemma name_rows_labelled content :
  forall st n,
    labelled st n ->
    labelled (foldl (fun st l => foldl name_node st l) st content)
      (n + cell_count content).
Proof.
  unfold cell_count.
  induction content as [| l content IH]; intros st n H; cbn [foldl concat].
  - cbn. now rewrite Nat.add_0_r.
  - rewrite length_app, Nat.add_assoc. apply IH. now apply name_row_labelled.
Qed.

Lemma init_labels size b :
  init size = Ok b ->
  map fst (node_reference b)
  = map nth_label (seq 0 (cell_count (_content b))).
Proof.
  intros Hb.
  apply init_inv in Hb as (nodes0 & content & upw & downw & _ & _ & _ & ->).
  cbn [node_reference _content]. unfold name_layers. cbn [snd].
  destruct (name_rows_labelled content (mk_naming 0 0 nodes0 []) 0) as [H _].
  - split; [reflexivity | left; repeat split].
  - exact H.
Qed.

(** X10: the cells of a board are labelled in reading order with the
    letters A to Z, then A' to Z', then with two ticks, and so on: the
    [k]-th label is the letter number [k mod 26] followed by [k / 26]
    ticks, and no two cells share a label. *)
Theorem labels_in_order (size : Z) (b : Board.t) :
  init size = Ok b ->
  map fst (node_reference b)
  = map nth_label (seq 0 (cell_count (_content b)))
  /\ NoDup (map fst (node_reference b))
  /\ length (node_reference b) = cell_count (_content b).
Proof.
  intros Hb. pose proof (init_labels size b Hb) as E.
  split; [exact E |]. split.
  - rewrite E. apply NoDup_fmap_2; [| apply NoDup_seq].
    intros k k'. apply nth_label_inj.
  - rewrite <- (length_map fst), E, length_map, length_seq. reflexivity.
Qed.

Lemma labels_in_order_witness :
  map fst (node_reference (board_of 7))
  = map nth_label (seq 0 42)
  /\ nth_label 27 = "B'".
Proof.
  destruct (labels_in_order 7 (board_of 7)) as (E & _).
  - vm_compute. reflexivity.
  - split; [exact E | reflexivity].
Defined.

Lemma init_Ok_size size b : init size = Ok b -> 0 <= size.
Proof.
  intros H. destruct (Z.lt_ge_cases size 0) as [Hneg |]; [| assumption].
  rewrite init_negative in H by assumption. discriminate.
Qed.

Lemma init_fresh size b : init size = Ok b -> geometry b /\ untouched b.
Proof.
  intros H. pose proof (init_Ok_size _ _ H) as Hs.
  destruct (init_total size Hs) as (b' & Hb' & Hg & Hu).
  rewrite H in Hb'. injection Hb' as <-. now split.
Qed.

Lemma free_nodes_all b keys :
  (forall k, In k keys -> occupation_possible k b = Ok true) ->
  forall acc, free_nodes keys b acc = Ok (acc ++ keys).
Proof.
  induction keys as [| k keys IH]; intros H acc; cbn [free_nodes].
  - now rewrite app_nil_r.
  - rewrite (H k) by now left. cbn [bind].
    rewrite IH by (intros; apply H; now right).
    now rewrite <- app_assoc.
Qed.

(** X11: on a board as the constructor returns it nothing is claimed
    and nothing is won: every label is a possible move, in the order of
    naming, no line has an owner and neither player is a winner. *)
Theorem fresh_board_moves (size : Z) (b : Board.t) :
  init size = Ok b ->
  possible_variations b = Ok (map fst (node_reference b))
  /\ (forall node, In node (map fst (node_reference b)) ->
                   occupation_possible node b = Ok true)
  /\ game_over b = false
  /\ claimed_leys b = (0, 0)
  /\ winner "p1" b = false /\ winner "p2" b = false.
Proof.
  intros Hb. destruct (init_fresh _ _ Hb) as (Hg & Hn & Ht & Hd & _).
  assert (Hfree : forall node, In node (map fst (node_reference b)) ->
                               occupation_possible node b = Ok true).
  { intros node Hin. unfold occupation_possible.
    destruct (dict_get node (node_reference b)) as [r |] eqn:E.
    - destruct (Hn r) as (s & Hv). now rewrite Hv.
    - apply dict_get_None in E. contradiction. }
  assert (Hover : game_over b = false) by (unfold game_over; now rewrite Hd).
  assert (Hc : claimed_leys b = (0, 0))
    by (rewrite claimed_leys_owned, !owned_none by assumption; reflexivity).
  assert (Hlen : (0 < total_leys b)%nat).
  { unfold total_leys. destruct Hg as (Hc0 & _).
    destruct (_content b); [contradiction | cbn; lia]. }
  split; [| split; [exact Hfree |]; split; [exact Hover |]; split; [exact Hc |]].
  - unfold possible_variations. rewrite Hover. cbn [negb].
    now rewrite free_nodes_all.
  - unfold winner. rewrite Hc.
    assert (Hh : LeyLine.half_reached 0 (total_leys b) = false)
      by (apply half_reached_false; lia).
    rewrite Hh, !andb_false_r. split; reflexivity.
Qed.

Lemma fresh_board_moves_witness :
  possible_variations (board_of 2)
  = Ok ["A"; "B"; "C"; "D"; "E"; "F"; "G"].
Proof.
  destruct (fresh_board_moves 2 (board_of 2)) as (E & _).
  - reflexivity.
  - exact E.
Defined.

End FreshBoard.

(** ** The course of a game on the board *)

Section Course.

Import Board.

Lemma perform_data_1 b a p :
  data_1 b = Some p -> data_1 (perform b a) = Some p.
Proof.
  intros H. destruct a as [node player |]; cbn [perform]; [| exact H].
  destruct (dict_get node (node_reference b)) as [r |] eqn:E.
  - destruct (occupy_node_registered node player b r E)
      as (_ & _ & _ & _ & [Hd | [Hd _]] & _); congruence.
  - unfold occupy_node. cbn. rewrite E. exact H.
Qed.

Lemma perform_registry b a : node_reference (perform b a) = node_reference b.
Proof.
  destruct a as [node player |]; cbn [perform]; [| reflexivity].
  apply (occupy_node_static node player b).
Qed.

Lemma is_marked_mark_of player : is_marked (VInt (mark_of player)) = true.
Proof. unfold mark_of. destruct (String.eqb player "p1"); reflexivity. Qed.

Lemma perform_marked b a r :
  is_marked (value_at (nodes b) r) = true ->
  is_marked (value_at (nodes (perform b a)) r) = true.
Proof.
  intros H. destruct a as [node player |]; cbn [perform]; [| exact H].
  destruct (dict_get node (node_reference b)) as [r' |] eqn:E.
  - destruct (occupy_node_registered node player b r' E) as (-> & _).
    unfold value_at. rewrite node_at_marked.
    destruct (decide _); [apply is_marked_mark_of | exact H].
  - unfold occupy_node. cbn. rewrite E. exact H.
Qed.

(** X12: once a board has a winner, nothing changes that: whatever calls
    of [occupy_node] and re-evaluations follow, for either player and
    on any cell, the winner stays the same, the game stays over and no
    move is offered. *)
Theorem winner_is_final (b : Board.t) (p : string) (actions : list action) :
  data_1 b = Some p ->
  let b' := foldl perform b actions in
  data_1 b' = Some p
  /\ game_over b' = true
  /\ possible_variations b' = Ok []
  /\ forall q, total_winner q b' = String.eqb p q.
Proof.
  intros H b'.
  assert (Hd : data_1 b' = Some p).
  { subst b'. revert b H. induction actions as [| a actions IH]; intros b H;
      cbn [foldl]; [exact H |].
    apply IH. now apply perform_data_1. }
  assert (Ho : game_over b' = true) by (unfold game_over; now rewrite Hd).
  split; [exact Hd |]. split; [exact Ho |].
  split; [now apply possible_variations_over |].
  intros q. unfold total_winner. now rewrite Hd.
Qed.

Lemma winner_is_final_witness :
  data_1 (foldl perform (board_of 1)
            [Occupy "A" "p1"; Occupy "B" "p2"; Occupy "C" "p2"])
  = Some "p1".
Proof.
  apply (winner_is_final (perform (board_of 1) (Occupy "A" "p1")) "p1"
           [Occupy "B" "p2"; Occupy "C" "p2"]).
  reflexivity.
Defined.

(** X13: a cell that [occupy_node] has claimed carries the mark of the
    player, 1 for 'p1' and 2 for any other name, and is never offered
    again: whatever happens to the board afterwards,
    [occupation_possible] says no and [possible_variations] leaves the
    label out. *)
Theorem claimed_cell_not_offered (b : Board.t) (node player : string) (r : nat)
    (actions : list action) :
  geometry b ->
  dict_get node (node_reference b) = Some r ->
  let b1 := (occupy_node node player b).1 in
  let b' := foldl perform b1 actions in
  value_at (nodes b1) r = VInt (if String.eqb player "p1" then 1 else 2)
  /\ occupation_possible node b' = Ok false
  /\ forall moves, possible_variations b' = Ok moves -> ~ In node moves.
Proof.
  intros Hg Hr b1 b'.
  assert (Hlt : (r < length (nodes b))%nat).
  { destruct Hg as (_ & _ & Hrefs & _). rewrite Forall_forall in Hrefs.
    apply dict_get_Some_In in Hr. apply list_elem_of_In in Hr.
    apply (Hrefs _ Hr). }
  assert (H1 : value_at (nodes b1) r = VInt (mark_of player)).
  { subst b1. destruct (occupy_node_registered node player b r Hr) as (-> & _).
    unfold value_at. now rewrite node_at_insert. }
  assert (Hinv : node_reference b' = node_reference b
                 /\ is_marked (value_at (nodes b') r) = true).
  { assert (H0 : node_reference b1 = node_reference b
                 /\ is_marked (value_at (nodes b1) r) = true).
    { split; [apply (occupy_node_static node player b) |].
      rewrite H1. apply is_marked_mark_of. }
    subst b'. clearbody b1. clear H1. revert b1 H0.
    induction actions as [| a actions IH]; intros b1 [Hreg Hm]; cbn [foldl];
      [now split |].
    apply IH. split; [now rewrite perform_registry | now apply perform_marked]. }
  destruct Hinv as [Hreg Hm].
  assert (Ho : occupation_possible node b' = Ok false).
  { unfold occupation_possible. rewrite Hreg, Hr.
    unfold is_marked, value_at in Hm. now rewrite Hm. }
  split; [exact H1 |]. split; [exact Ho |].
  intros moves Hmoves Hin.
  destruct (legal_move b' moves node Hmoves Hin) as (_ & r' & Hr' & Hfree).
  rewrite Hreg, Hr in Hr'. injection Hr' as <-.
  unfold value_at in Hm. congruence.
Qed.

Lemma claimed_cell_not_offered_witness :
  occupation_possible "B"
    (foldl perform (occupy_node "B" "p2" (board_of 2)).1 [Occupy "A" "p1"])
  = Ok false.
Proof.
  apply (claimed_cell_not_offered (board_of 2) "B" "p2" 1%nat [Occupy "A" "p1"]).
  - destruct (init_fresh 2 (board_of 2)) as [Hg _]; [reflexivity | exact Hg].
  - reflexivity.
Defined.

Lemma occupy_node_flag node player b r :
  dict_get node (node_reference b) = Some r ->
  data_1 b = None ->
  let b' := (occupy_node node player b).1 in
  data_1 b' = if winner player b' then Some player else None.
Proof.
  intros Hr Hd. unfold occupy_node.
  cbn [node_reference set_moves_history]. rewrite Hr.
  set (self := calculate_all _).
  assert (Ho : game_over self = false)
    by (unfold game_over; subst self; cbn; now rewrite Hd).
  assert (Hs : data_1 self = None) by (subst self; cbn; exact Hd).
  rewrite Ho, andb_true_r. cbn [fst negb].
  destruct (winner player self) eqn:E.
  - change (winner player (set_data_1 (Some player) self))
      with (winner player self).
    now rewrite E.
  - now rewrite E.
Qed.

(** What the winner flag of a played board means. *)
Lemma played_flag size ms b :
  played size ms b ->
  forall p, data_1 b = Some p ->
    is_player p /\ winner p b = true
    /\ exists ms' node, ms = ms' ++ [(node, p)].
Proof.
  induction 1 as [b H | ms b node player moves Hp IH Hm Hin Hpl]; intros p Hd.
  - destruct (init_fresh _ _ H) as (_ & _ & _ & Hn & _). congruence.
  - destruct (legal_move b moves node Hm Hin) as (Hnone & r & Hr & _).
    pose proof (occupy_node_flag node player b r Hr Hnone) as Hf.
    cbv zeta in Hf. rewrite Hd in Hf.
    destruct (winner player (occupy_node node player b).1) eqn:Hw;
      [| discriminate].
    injection Hf as ->. split; [exact Hpl |]. split; [exact Hw |].
    now exists ms, node.
Qed.

(** X14: on a board reached by legal moves the winner flag and the count
    of ley-lines agree: the game is over exactly when [winner] holds of
    one of the two players, and the player whom [total_winner] names is
    a player of whom [winner] holds and who made the last move. *)
Theorem flag_agrees_with_count (size : Z) (ms : list (string * string))
    (b : Board.t) :
  0 <= size ->
  played size ms b ->
  (game_over b = true <-> winner "p1" b = true \/ winner "p2" b = true)
  /\ forall p,
       total_winner p b = true ->
       is_player p /\ winner p b = true
       /\ exists ms' node, ms = ms' ++ [(node, p)].
Proof.
  intros Hsize Hp. split.
  - split.
    + unfold game_over. destruct (data_1 b) as [p |] eqn:Hd; [| discriminate].
      intros _. destruct (played_flag _ _ _ Hp p Hd) as ([-> | ->] & Hw & _); auto.
    + intros Hw. destruct (game_over b) eqn:Ho; [reflexivity |].
      assert (Hd : data_1 b = None)
        by (unfold game_over in Ho; destruct (data_1 b); [discriminate | auto]).
      destruct (played_inv _ _ _ Hsize Hp) as ((_ & _ & Hhalf) & _).
      destruct (Hhalf Hd) as [H1 H2].
      destruct Hw as [Hw | Hw];
        rewrite winner_spec in Hw by (unfold is_player; auto);
        apply half_reached_spec in Hw; contradiction.
  - intros p Ht. unfold total_winner in Ht.
    destruct (data_1 b) as [q |] eqn:Hd; [| discriminate].
    apply String.eqb_eq in Ht. subst q. now apply (played_flag _ _ _ Hp).
Qed.

Lemma flag_agrees_with_count_witness :
  game_over (occupy_node "A" "p1" (board_of 1)).1 = true
  <-> winner "p1" (occupy_node "A" "p1" (board_of 1)).1 = true
      \/ winner "p2" (occupy_node "A" "p1" (board_of 1)).1 = true.
Proof.
  apply (flag_agrees_with_count 1 ([] ++ [("A", "p1")])).
  - lia.
  - apply (played_move 1 [] (board_of 1) "A" "p1" ["A"; "B"; "C"]).
    + apply played_init. reflexivity.
    + reflexivity.
    + now left.
    + now left.
Defined.

(** X15: a board reached by legal moves is copied faithfully, but one
    call of [occupy_node] with a label that is not on the board spoils
    it for good: the call has entered the label in the history, and
    [produce_copy], which replays the history, raises the same
    [KeyError]. *)
Theorem copy_after_failed_move (size : Z) (ms : list (string * string))
    (b : Board.t) (node player : string) :
  played size ms b ->
  ~ In node (map fst (node_reference b)) ->
  produce_copy b = Ok b
  /\ (occupy_node node player b).2 = Raise KeyError
  /\ produce_copy (occupy_node node player b).1 = Raise KeyError.
Proof.
  intros Hp Hnot.
  pose proof (produce_copy_played _ _ _ Hp) as Hcopy.
  destruct (played_replay _ _ _ Hp) as (Hs & Hh & b0 & H0 & Hr).
  apply dict_get_None in Hnot.
  assert (E : occupy_node node player b
              = (set_moves_history (moves_history b ++ [(node, player)]) b,
                 Raise KeyError)).
  { unfold occupy_node. cbn. now rewrite Hnot. }
  split; [exact Hcopy |]. rewrite E. split; [reflexivity |].
  unfold produce_copy. cbn [fst]. cbn [data_0 moves_history set_moves_history].
  rewrite Hs, H0, Hh. cbn [bind]. rewrite replay_app, Hr. cbn [bind replay].
  cbn [fst snd]. now rewrite E.
Qed.

Lemma copy_after_failed_move_witness :
  produce_copy (occupy_node "Z" "p1" (board_of 1)).1 = Raise KeyError.
Proof.
  apply (copy_after_failed_move 1 [] (board_of 1) "Z" "p1").
  - apply played_init. reflexivity.
  - cbn. intros [H | [H | [H | []]]]; discriminate.
Defined.

Lemma child_states_spec player b moves :
  produce_copy b = Ok b ->
  (forall m, In m moves -> In m (map fst (node_reference b))) ->
  forall states,
    child_states moves player b states
    = Ok (states ++ map (fun m => (occupy_node m player b).1) moves).
Proof.
  intros Hcopy. induction moves as [| m moves IH]; intros Hin states;
    cbn [child_states map].
  - now rewrite app_nil_r.
  - rewrite Hcopy. cbn [bind].
    pose proof (occupy_node_Ok m player b (Hin m (or_introl eq_refl))) as Hok.
    destruct (occupy_node m player b) as [b' res] eqn:E. cbn [snd] in Hok.
    subst res. cbn [bind fst].
    rewrite IH by (intros; apply Hin; now right).
    now rewrite <- app_assoc.
Qed.

(** X16: on a board reached by legal moves [generate_child_states]
    returns one board for each possible move, in the order of
    [possible_variations]: the board as it is after that move by
    [player]; the receiver is left alone, and when the game is over the
    list is empty. *)
Theorem generate_child_states_moves (size : Z) (ms : list (string * string))
    (b : Board.t) (player : string) (moves : list string) :
  played size ms b ->
  possible_variations b = Ok moves ->
  generate_child_states player b
  = Ok (map (fun m => (occupy_node m player b).1) moves)
  /\ (game_over b = true -> generate_child_states player b = Ok []).
Proof.
  intros Hp Hm.
  assert (E : generate_child_states player b
              = Ok (map (fun m => (occupy_node m player b).1) moves)).
  { unfold generate_child_states. rewrite Hm. cbn [bind].
    rewrite child_states_spec; [reflexivity | |].
    - now apply (produce_copy_played size ms).
    - intros m Hin. now apply (possible_variations_In b moves). }
  split; [exact E |].
  intros Ho. rewrite possible_variations_over in Hm by assumption.
  injection Hm as <-. exact E.
Qed.

Lemma generate_child_states_moves_witness :
  generate_child_states "p1" (board_of 1)
  = Ok [(occupy_node "A" "p1" (board_of 1)).1;
        (occupy_node "B" "p1" (board_of 1)).1;
        (occupy_node "C" "p1" (board_of 1)).1].
Proof.
  apply (generate_child_states_moves 1 [] (board_of 1) "p1" ["A"; "B"; "C"]).
  - apply played_init. reflexivity.
  - reflexivity.
Defined.

End Course.

(** ** Game states in the store *)

Section Store.

Import StonehengeState StonehengeGame Stonehenge Strategy.

Lemma grows_refl w : grows w w.
Proof. repeat split; reflexivity. Qed.

Lemma grows_trans w1 w2 w3 : grows w1 w2 -> grows w2 w3 -> grows w1 w3.
Proof.
  intros (Hs & Hb & Ht & Hz) (Hs' & Hb' & Ht' & Hz'). repeat split.
  - now transitivity (states w2).
  - now transitivity (boards w2).
  - congruence.
  - congruence.
Qed.

Lemma prefix_lookup {A} (l l' : list A) i :
  l `prefix_of` l' -> (i < length l)%nat -> l' !! i = l !! i.
Proof. intros [k ->] H. now apply lookup_app_l. Qed.

Lemma grows_state_at w w' s :
  grows w w' -> (s < length (states w))%nat -> state_at w' s = state_at w s.
Proof.
  intros (Hs & _) H. unfold state_at. now rewrite (prefix_lookup _ _ _ Hs H).
Qed.

Lemma grows_board_at w w' r :
  grows w w' -> (r < length (boards w))%nat -> board_at w' r = board_at w r.
Proof.
  intros (_ & Hb & _) H. unfold board_at. now rewrite (prefix_lookup _ _ _ Hb H).
Qed.

Lemma is_state_grows w w' s t b :
  grows w w' -> is_state w s t b -> is_state w' s t b.
Proof.
  intros Hg ((Hs & Hb & ms & Hp) & Ht & Hbd).
  pose proof Hg as (Hps & Hpb & _).
  apply prefix_length in Hps, Hpb.
  pose proof (grows_state_at _ _ _ Hg Hs) as Es.
  unfold is_state, state_ok. rewrite Es.
  rewrite (grows_board_at _ _ _ Hg Hb).
  repeat split; try assumption; try lia. now exists ms.
Qed.

Lemma possible_variations_total b :
  exists moves, Board.possible_variations b = Ok moves.
Proof.
  unfold Board.possible_variations. destruct (negb (Board.game_over b)).
  - destruct (free_nodes_total (map fst (Board.node_reference b)) b
                (fun k H => H) []) as (res & H & _).
    now exists res.
  - now exists [].
Qed.

Lemma moves_of_spec b : Board.possible_variations b = Ok (moves_of b).
Proof.
  unfold moves_of. destruct (possible_variations_total b) as (moves & ->).
  reflexivity.
Qed.

Lemma get_possible_moves_state w s t b :
  is_state w s t b -> get_possible_moves s w = (w, Ok (moves_of b)).
Proof.
  intros (_ & _ & <-). unfold get_possible_moves. now rewrite moves_of_spec.
Qed.

(** [make_move] on a state of the game, for a move that its board
    offers. *)
Lemma make_move_grows w s t b m :
  is_state w s t b -> In m (moves_of b) ->
  exists w' c,
    make_move s m w = (w', Ok c)
    /\ grows w w' /\ game w' = game w
    /\ is_state w' c (negb t) (after (player_of t) b m).
Proof.
  intros ((Hs & Hb & ms & Hp) & <- & <-) Hin.
  set (st := state_at w s) in *. set (b := board_at w (board st)) in *.
  set (player := player_of (p1_turn st)).
  pose proof (moves_of_spec b) as Hm.
  pose proof (possible_variations_In b _ m Hm Hin) as Hkey.
  pose proof (produce_copy_played _ _ _ Hp) as Hcopy.
  destruct (played_replay _ _ _ Hp) as (_ & _ & b0 & H0 & _).
  pose proof (occupy_node_Ok m player b Hkey) as Hocc.
  pose proof (make_move_run w s m b0 Hs Hb H0 Hcopy Hocc) as Hrun.
  fold st b player in Hrun.
  unfold after. fold player.
  set (b' := (Board.occupy_node m player b).1) in *.
  set (w' := mkWorld (boards w ++ [b0; b'])
               (states w ++ [StonehengeState.mk (negb (p1_turn st)) (size st)
                               (S (length (boards w)))])
               (trees w) (game w)) in *.
  assert (En : state_at w' (length (states w))
               = StonehengeState.mk (negb (p1_turn st)) (size st)
                   (S (length (boards w)))).
  { unfold state_at, w'. cbn. now rewrite lookup_end. }
  assert (Eb : board_at w' (S (length (boards w))) = b').
  { unfold board_at, w'. cbn.
    change (boards w ++ [b0; b']) with (boards w ++ [b0] ++ [b']).
    rewrite app_assoc.
    replace (S (length (boards w))) with (length (boards w ++ [b0]))
      by (rewrite length_app; cbn; lia).
    now rewrite lookup_end. }
  exists w', (length (states w)).
  split; [exact Hrun |].
  split.
  { unfold grows, w'. cbn.
    split; [eexists; reflexivity |]. split; [eexists; reflexivity |].
    split; reflexivity. }
  split; [reflexivity |].
  unfold is_state, state_ok. rewrite En. cbn [board size p1_turn]. rewrite Eb.
  unfold w'. cbn [states boards]. rewrite !length_app. cbn [length].
  repeat split; try lia.
  exists (ms ++ [(m, player)]).
  apply (played_move _ ms b m player (moves_of b)); try assumption.
  unfold player, player_of, is_player. destruct (p1_turn st); auto.
Qed.

(** Running a computation over a list, when each run succeeds and
    keeps the relation [R] to the store before. *)
Lemma mapM_total {A B} (R : World -> World -> Prop)
    (Q : World -> A -> B -> Prop) (f : A -> M B) :
  (forall w, R w w) ->
  (forall w1 w2 w3, R w1 w2 -> R w2 w3 -> R w1 w3) ->
  (forall w w' a b, R w w' -> Q w a b -> Q w' a b) ->
  forall l w0,
    (forall a w, In a l -> R w0 w ->
                 exists w' b, f a w = (w', Ok b) /\ R w w' /\ Q w' a b) ->
    exists w' bs, mapM f l w0 = (w', Ok bs) /\ R w0 w' /\ Forall2 (Q w') l bs.
Proof.
  intros Hrefl Htrans Hstable.
  induction l as [| a l IH]; intros w0 Hstep; cbn [mapM].
  - exists w0, []. repeat split; [apply Hrefl | constructor].
  - destruct (Hstep a w0 (or_introl eq_refl) (Hrefl w0))
      as (w1 & b & Hf & HR1 & HQ).
    destruct (IH w1) as (w2 & bs & Hm & HR2 & HQs).
    { intros a' w Hin HR. apply Hstep; [now right |]. eauto. }
    exists w2, (b :: bs).
    rewrite (bindM_run _ _ _ _ _ Hf), (bindM_run _ _ _ _ _ Hm).
    repeat split; eauto.
Qed.

Lemma bindM_Ok {A B} (m : M A) (k : A -> M B) w w' b :
  bindM m k w = (w', Ok b) ->
  exists w1 a, m w = (w1, Ok a) /\ k a w1 = (w', Ok b).
Proof.
  unfold bindM. destruct (m w) as [w1 [a | e |]]; try discriminate. eauto.
Qed.

(** The same for runs that are only known to have returned. *)
Lemma mapM_inv {A B} (R : World -> World -> Prop)
    (Q : World -> A -> B -> Prop) (f : A -> M B) :
  (forall w, R w w) ->
  (forall w1 w2 w3, R w1 w2 -> R w2 w3 -> R w1 w3) ->
  (forall w w' a b, R w w' -> Q w a b -> Q w' a b) ->
  forall l w0 w' bs,
    (forall a w w1 b, In a l -> R w0 w -> f a w = (w1, Ok b) ->
                      R w w1 /\ Q w1 a b) ->
    mapM f l w0 = (w', Ok bs) ->
    R w0 w' /\ Forall2 (Q w') l bs.
Proof.
  intros Hrefl Htrans Hstable.
  induction l as [| a l IH]; intros w0 w' bs Hstep; cbn [mapM].
  - unfold ret. intros [= <- <-]. split; [apply Hrefl | constructor].
  - intros H. apply bindM_Ok in H as (w1 & b & Hf & H).
    apply bindM_Ok in H as (w2 & bs' & Hm & H).
    unfold ret in H. injection H as <- <-.
    destruct (Hstep a w0 w1 b (or_introl eq_refl) (Hrefl w0) Hf) as [HR1 HQ].
    destruct (IH w1 w2 bs') as [HR2 HQs]; [| exact Hm |].
    { intros a' w w3 b' Hin HR. apply Hstep; [now right |]. eauto. }
    split; eauto.
Qed.

(** The children of a state of the game, one for each move. *)
Lemma mapM_make_move w s t b ms :
  is_state w s t b -> (forall m, In m ms -> In m (moves_of b)) ->
  exists w' cs,
    mapM (make_move s) ms w = (w', Ok cs)
    /\ (grows w w' /\ game w' = game w)
    /\ Forall2 (fun m c => is_state w' c (negb t) (after (player_of t) b m))
         ms cs.
Proof.
  intros Hst Hin.
  apply (mapM_total (fun w w' => grows w w' /\ game w' = game w)
           (fun w m c => is_state w c (negb t) (after (player_of t) b m))).
  - intros w0. split; [apply grows_refl | reflexivity].
  - intros w1 w2 w3 [H1 G1] [H2 G2].
    split; [eapply grows_trans; eauto | congruence].
  - intros w0 w1 m c [H _]. now apply is_state_grows.
  - intros m w0 Hm [Hg Hgame].
    destruct (make_move_grows w0 s t b m) as (w1 & c & Hrun & Hg1 & Hgame1 & Hc);
      [now apply (is_state_grows w) | now apply Hin |].
    exists w1, c. auto.
Qed.

End Store.

(** ** The rough outcome of a state *)

Section RoughOutcome.

Import StonehengeState StonehengeGame Stonehenge Strategy.

(** A run that ends in the store it began in. *)
Local Ltac stays :=
  split; [reflexivity | split; [apply grows_refl | reflexivity]].

Lemma shape_new_outcomes_run w other t b1 ms cs :
  Forall2 (fun m c => is_state w c t (after other b1 m)) ms cs ->
  forall acc,
    shape_new_outcomes cs other acc w
    = (w, Ok (acc ++ map (fun m => if wins_with other b1 m
                                   then VStr other else VInt 0) ms)).
Proof.
  intros H acc. unfold shape_new_outcomes, gets. do 2 f_equal.
  revert acc. induction H as [| m c ms cs (_ & _ & Hb) _ IH]; intros acc;
    cbn [foldl map].
  - now rewrite app_nil_r.
  - rewrite IH, Hb. unfold wins_with.
    destruct (Board.is_total_winner other (after other b1 m));
      now rewrite <- app_assoc.
Qed.

Lemma contains_answers other (p : string -> bool) l :
  contains other (map (fun m => if p m then VStr other else VInt 0) l)
  = existsb p l.
Proof.
  unfold contains. induction l as [| m l IH]; [reflexivity |].
  cbn [map existsb]. rewrite IH. destruct (p m); cbn [pyval_eqb orb].
  - now rewrite String.eqb_refl.
  - reflexivity.
Qed.

Lemma forallb_answers other cur b l :
  forallb (contains other) (map (fun m => answers other (after cur b m)) l)
  = forallb
      (fun m => existsb (wins_with other (after cur b m))
                  (moves_of (after cur b m)))
      l.
Proof.
  induction l as [| m l IH]; [reflexivity |].
  cbn [map forallb]. rewrite IH. unfold answers at 1.
  now rewrite contains_answers.
Qed.

Lemma player_of_other t : other_of (player_of t) = player_of (negb t).
Proof. destruct t; reflexivity. Qed.

(** The loop of [rough_outcome] over the children of a state. *)
Lemma rough_children_run t b ms cs :
  let cur := player_of t in
  let other := player_of (negb t) in
  forall w gc,
    Forall2 (fun m c => is_state w c (negb t) (after cur b m)) ms cs ->
    exists w',
      rough_children cur other cs gc w
      = (w',
         Ok (if existsb (wins_with cur b) ms then inl 1
             else inr (gc ++ map (fun m => answers other (after cur b m)) ms)))
      /\ grows w w' /\ game w' = game w.
Proof.
  intros cur other w gc H. revert cs w gc H.
  induction ms as [| m ms IH]; intros cs w gc H.
  - inversion H; subst. exists w. cbn. rewrite app_nil_r. stays.
  - inversion H as [| ? c ? cs' Hc Hcs]; subst. clear H.
    cbn [rough_children existsb map]. rewrite bindM_gets.
    pose proof Hc as (_ & _ & Hb). rewrite Hb.
    fold (wins_with cur b m).
    destruct (wins_with cur b m) eqn:Hw.
    { exists w. cbn. stays. }
    cbn [orb].
    rewrite (bindM_run _ _ _ _ _
               (get_possible_moves_state w c _ _ Hc)).
    rewrite bindM_gets, Hb.
    set (b1 := after cur b m) in *.
    assert (Hnew : exists w1,
               (if negb (Board.game_over b1)
                   && negb (match moves_of b1 with [] => true | _ => false end)
                then
                  exec new_children <- mapM (make_move c) (moves_of b1);
                  shape_new_outcomes new_children other []
                else ret []) w
               = (w1, Ok (answers other b1))
               /\ grows w w1 /\ game w1 = game w).
    { destruct (negb (Board.game_over b1)
                && negb (match moves_of b1 with [] => true | _ => false end))
        eqn:Hcond.
      - destruct (mapM_make_move w c (negb t) b1 (moves_of b1) Hc (fun _ H => H))
          as (w1 & cs2 & Hrun & [Hg Hgame] & Hcs2).
        exists w1. rewrite (bindM_run _ _ _ _ _ Hrun).
        rewrite negb_involutive in Hcs2.
        rewrite (shape_new_outcomes_run w1 other t b1 (moves_of b1) cs2 Hcs2).
        split; [reflexivity | split; assumption].
      - exists w. unfold ret, answers.
        assert (Hnil : moves_of b1 = []).
        { apply andb_false_iff in Hcond as [Ho | Hm].
          - apply negb_false_iff in Ho. unfold moves_of.
            now rewrite possible_variations_over.
          - destruct (moves_of b1); [reflexivity | discriminate]. }
        rewrite Hnil. stays. }
    destruct Hnew as (w1 & Hrun & Hg & Hgame).
    rewrite (bindM_run _ _ _ _ _ Hrun).
    destruct (IH cs' w1 (gc ++ [answers other b1])) as (w2 & Hrest & Hg2 & Hgame2).
    { eapply Forall2_impl; [exact Hcs |]. intros m' c' Hst.
      now apply (is_state_grows w). }
    exists w2. rewrite Hrest, <- app_assoc.
    split; [reflexivity |].
    split; [eapply grows_trans; eauto | congruence].
Qed.

(** [rough_outcome] on a state of the game returns the rough value of
    its board and leaves the objects of the store as they are. *)
Lemma rough_outcome_run w s t b :
  is_state w s t b ->
  exists w',
    rough_outcome s w = (w', Ok (rough_value t b))
    /\ grows w w' /\ game w' = game w.
Proof.
  intros Hst. pose proof Hst as (_ & Ht & Hb).
  unfold rough_outcome, rough_value. rewrite bindM_gets, Ht.
  fold (player_of t). fold (other_of (player_of t)). rewrite player_of_other.
  rewrite bindM_gets, Hb.
  destruct (Board.game_over b) eqn:Ho.
  { exists w. stays. }
  rewrite (bindM_run _ _ _ _ _ (get_possible_moves_state w s _ _ Hst)).
  destruct (mapM_make_move w s t b (moves_of b) Hst (fun _ H => H))
    as (w1 & cs & Hrun & [Hg Hgame] & Hcs).
  rewrite (bindM_run _ _ _ _ _ Hrun).
  destruct (rough_children_run t b (moves_of b) cs w1 [] Hcs)
    as (w2 & Hloop & Hg2 & Hgame2).
  rewrite (bindM_run _ _ _ _ _ Hloop).
  exists w2.
  split; [| split; [eapply grows_trans; eauto | congruence]].
  destruct (existsb (wins_with (player_of t) b) (moves_of b)); [reflexivity |].
  cbn [app].
  rewrite forallb_answers.
  destruct (forallb _ (moves_of b)); [reflexivity |].
  destruct (existsb _ _); reflexivity.
Qed.

(** X17: on a state of the game [rough_outcome] returns, and leaves the
    game and every object that was in the store as they were.  The
    result is -1 when the game is over; 1 exactly when the game is not
    over and some possible move makes the player to move the winner at
    once; else -1 when to every possible move the other player has an
    answer that wins at once, and 0 if not. *)
Theorem rough_outcome_value (w : World) (s : nat) (turn : bool) (b : Board.t) :
  is_state w s turn b ->
  exists w' v,
    rough_outcome s w = (w', Ok v)
    /\ grows w w' /\ game w' = game w
    /\ v = rough_value turn b
    /\ (v = -1 \/ v = 0 \/ v = 1)
    /\ (Board.game_over b = true -> v = -1)
    /\ (v = 1 <->
        Board.game_over b = false
        /\ exists m, In m (moves_of b)
                     /\ wins_with (player_of turn) b m = true).
Proof.
  intros Hst. destruct (rough_outcome_run w s turn b Hst) as (w' & Hrun & Hg & Hgame).
  exists w', (rough_value turn b).
  split; [exact Hrun |]. split; [exact Hg |]. split; [exact Hgame |].
  split; [reflexivity |]. unfold rough_value.
  destruct (Board.game_over b).
  { split; [auto |]. split; [auto |].
    split; [discriminate | intros [? _]; discriminate]. }
  destruct (existsb (wins_with (player_of turn) b) (moves_of b)) eqn:E.
  - split; [auto |]. split; [discriminate |].
    split; [| reflexivity]. intros _. split; [reflexivity |].
    apply existsb_exists in E. exact E.
  - assert (Hno : ~ exists m, In m (moves_of b)
                              /\ wins_with (player_of turn) b m = true).
    { intros Hex. apply existsb_exists in Hex. congruence. }
    destruct (forallb _ (moves_of b)).
    + split; [auto |]. split; [discriminate |].
      split; [discriminate | intros [_ Hex]; contradiction].
    + split; [auto |]. split; [discriminate |].
      split; [discriminate | intros [_ Hex]; contradiction].
Qed.

Lemma rough_outcome_value_witness :
  exists w',
    rough_outcome 0 (StonehengeGame_init true 1 empty_world).1 = (w', Ok 1).
Proof.
  destruct (rough_outcome_value (StonehengeGame_init true 1 empty_world).1
              0%nat true (board_of 1))
    as (w' & v & Hrun & _ & _ & Hv & _).
  - split; [| split; reflexivity].
    split; [vm_compute; lia |]. split; [vm_compute; lia |].
    exists []. apply played_init. reflexivity.
  - exists w'. rewrite Hrun, Hv. reflexivity.
Defined.

End RoughOutcome.

(** ** The strategy that looks two moves ahead *)

Section RoughStrategy.

Import StonehengeState StonehengeGame Stonehenge Strategy.

Lemma rough_value_range t b :
  rough_value t b = -1 \/ rough_value t b = 0 \/ rough_value t b = 1.
Proof.
  unfold rough_value.
  destruct (Board.game_over b); [auto |].
  destruct (existsb _ _); [auto |].
  destruct (forallb _ _); auto.
Qed.

(** The loop of [rough_outcome_strategy] on a state of the game. *)
Lemma rough_moves_run s t b ms :
  (forall m, In m ms -> In m (moves_of b)) ->
  forall w best_move best_outcome,
    is_state w s t b ->
    exists w',
      rough_moves s ms best_move best_outcome w
      = (w', Ok (best_of (guessed_score t b) ms best_move best_outcome))
      /\ grows w w' /\ game w' = game w.
Proof.
  induction ms as [| m ms IH]; intros Hin w bm bo Hst; cbn [rough_moves best_of].
  - exists w. split; [reflexivity | split; [apply grows_refl | reflexivity]].
  - destruct (make_move_grows w s t b m Hst (Hin m (or_introl eq_refl)))
      as (w1 & c & Hrun & Hg1 & Hgame1 & Hc).
    destruct (rough_outcome_run w1 c _ _ Hc) as (w2 & Hrough & Hg2 & Hgame2).
    rewrite (bindM_run _ _ _ _ _ Hrun), (bindM_run _ _ _ _ _ Hrough).
    fold (guessed_score t b m).
    assert (Hst2 : is_state w2 s t b).
    { apply (is_state_grows w1); [assumption |].
      now apply (is_state_grows w). }
    assert (Hrest : forall m', In m' ms -> In m' (moves_of b))
      by (intros; apply Hin; now right).
    destruct (guessed_score t b m >? bo);
      [destruct (IH Hrest w2 (Some m) (guessed_score t b m) Hst2)
         as (w3 & Hloop & Hg3 & Hgame3)
      | destruct (IH Hrest w2 bm bo Hst2) as (w3 & Hloop & Hg3 & Hgame3)];
      exists w3; (split; [exact Hloop |]);
      (split; [eapply grows_trans; [| exact Hg3]; eapply grows_trans; eauto
              | congruence]).
Qed.

Lemma best_of_Some (score : string -> Z) ms :
  forall m0,
    exists m,
      best_of score ms (Some m0) (score m0) = Some m
      /\ (m = m0 \/ In m ms)
      /\ score m0 <= score m
      /\ forall m', In m' ms -> score m' <= score m.
Proof.
  induction ms as [| m1 ms IH]; intros m0; cbn [best_of].
  - exists m0. repeat split; auto; try lia. intros m' [].
  - destruct (score m1 >? score m0) eqn:E.
    + destruct (IH m1) as (m & Hb & Hin & Hle & Hall).
      exists m. split; [exact Hb |].
      split; [right; destruct Hin; [left; congruence | now right] |].
      split; [lia |].
      intros m' [<- | Hm']; [exact Hle | now apply Hall].
    + destruct (IH m0) as (m & Hb & Hin & Hle & Hall).
      exists m. split; [exact Hb |].
      split; [destruct Hin; [now left | right; now right] |].
      split; [exact Hle |].
      intros m' [<- | Hm']; [lia | now apply Hall].
Qed.

(** X18: on a state of the game [rough_outcome_strategy] returns, and
    leaves the game and the objects of the store as they were.  It
    returns [None] exactly when the state offers no move, as when the
    game is over; else a possible move whose guessed score, the negated
    rough outcome of the state it leads to, is the greatest of all. *)
Theorem rough_outcome_strategy_best (w : World) (turn : bool) (b : Board.t) :
  is_state w (current_state (game w)) turn b ->
  exists w' r,
    rough_outcome_strategy w = (w', Ok r)
    /\ grows w w' /\ game w' = game w
    /\ (r = None <-> moves_of b = [])
    /\ (Board.game_over b = true -> r = None)
    /\ forall m,
         r = Some m ->
         In m (moves_of b)
         /\ forall m', In m' (moves_of b) ->
                       guessed_score turn b m' <= guessed_score turn b m.
Proof.
  intros Hst.
  destruct (rough_moves_run (current_state (game w)) turn b (moves_of b)
              (fun _ H => H) w None (-2) Hst) as (w' & Hrun & Hg & Hgame).
  exists w', (best_of (guessed_score turn b) (moves_of b) None (-2)).
  split.
  { unfold rough_outcome_strategy. rewrite bindM_gets.
    rewrite (bindM_run _ _ _ _ _ (get_possible_moves_state w _ _ _ Hst)).
    exact Hrun. }
  split; [exact Hg |]. split; [exact Hgame |].
  assert (Hover : Board.game_over b = true -> moves_of b = []).
  { intros Ho. unfold moves_of. now rewrite possible_variations_over. }
  destruct (moves_of b) as [| m1 ms] eqn:Em.
  - cbn. repeat split; auto; discriminate.
  - assert (Hfirst : (guessed_score turn b m1 >? -2) = true).
    { unfold guessed_score.
      destruct (rough_value_range (negb turn) (after (player_of turn) b m1))
        as [-> | [-> | ->]]; reflexivity. }
    cbn [best_of]. rewrite Hfirst.
    destruct (best_of_Some (guessed_score turn b) ms m1)
      as (m & Hb & Hin & Hle & Hall).
    rewrite Hb.
    split; [split; discriminate |].
    split; [intros Ho; specialize (Hover Ho); discriminate |].
    intros m' [= <-].
    split; [destruct Hin; [left; congruence | now right] |].
    intros m'' [<- | Hm'']; [exact Hle | now apply Hall].
Qed.

Lemma rough_outcome_strategy_best_witness :
  exists w' r,
    rough_outcome_strategy (StonehengeGame_init true 2 empty_world).1
    = (w', Ok r)
    /\ game w' = game (StonehengeGame_init true 2 empty_world).1
    /\ r <> None.
Proof.
  destruct (rough_outcome_strategy_best (StonehengeGame_init true 2 empty_world).1
              true (board_of 2))
    as (w' & r & Hrun & _ & Hgame & Hnone & _).
  - split; [| split; reflexivity].
    split; [vm_compute; lia |]. split; [vm_compute; lia |].
    exists []. apply played_init. reflexivity.
  - exists w', r. split; [exact Hrun |]. split; [exact Hgame |].
    intros Hr. apply Hnone in Hr. vm_compute in Hr. discriminate.
Defined.

End RoughStrategy.

(** ** Finished games and the value of a state *)

Section NoDraw.

Import StonehengeState StonehengeGame Stonehenge Strategy.

Lemma is_state_same w w' s t b :
  states w' = states w -> boards w' = boards w ->
  is_state w s t b -> is_state w' s t b.
Proof.
  intros Hs Hb. unfold is_state, state_ok, state_at, board_at.
  now rewrite Hs, Hb.
Qed.

Lemma in_play_same w w' s :
  states w' = states w -> boards w' = boards w -> in_play w s -> in_play w' s.
Proof.
  intros Hs Hb (t & b & Hst & Hturn). exists t, b.
  split; [now apply (is_state_same w) | exact Hturn].
Qed.

Lemma in_play_grows w w' s : grows w w' -> in_play w s -> in_play w' s.
Proof.
  intros Hg (t & b & Hst & Hturn). exists t, b.
  split; [now apply (is_state_grows w) | exact Hturn].
Qed.

(** After a possible move the winner, if there is one, is the player
    who made it. *)
Lemma after_winner t b m p :
  In m (moves_of b) ->
  Board.data_1 (after (player_of t) b m) = Some p -> p = player_of t.
Proof.
  intros Hin Hd.
  destruct (legal_move b _ m (moves_of_spec b) Hin) as (Hnone & r & Hr & _).
  pose proof (occupy_node_flag m (player_of t) b r Hr Hnone) as Hf.
  cbv zeta in Hf. unfold after in Hd. rewrite Hd in Hf.
  destruct (Board.winner _ _); congruence.
Qed.

Lemma make_move_in_play w s moves m w' c :
  in_play w s ->
  get_possible_moves s w = (w, Ok moves) -> In m moves ->
  make_move s m w = (w', Ok c) ->
  in_play w' c.
Proof.
  intros (t & b & Hst & _) Hmoves Hin Hrun.
  rewrite (get_possible_moves_state w s t b Hst) in Hmoves.
  injection Hmoves as <-.
  destruct (make_move_grows w s t b m Hst Hin) as (w1 & c1 & Hrun1 & _ & _ & Hc).
  rewrite Hrun in Hrun1. injection Hrun1 as <- <-.
  exists (negb t), (after (player_of t) b m). split; [exact Hc |].
  intros p Hp. rewrite negb_involutive. now apply (after_winner t b m).
Qed.

Lemma plies_in_play k w0 s0 w s :
  plies k w0 s0 w s -> in_play w0 s0 -> in_play w s.
Proof.
  induction 1 as [| k w0 s0 w s moves m w' s' _ IH Hm Hin Hrun]; intros H0;
    [exact H0 |].
  exact (make_move_in_play w s moves m w' s' (IH H0) Hm Hin Hrun).
Qed.

Lemma Forall2_In_r {A B} (P : A -> B -> Prop) l l' y :
  Forall2 P l l' -> In y l' -> exists x, In x l /\ P x y.
Proof.
  induction 1 as [| x y' l l' Hxy _ IH]; intros Hin; [destruct Hin |].
  destruct Hin as [<- | Hin].
  - exists x. split; [now left | exact Hxy].
  - destruct (IH Hin) as (x' & Hx' & HP). exists x'. split; [now right | exact HP].
Qed.

Lemma game_init_in_play p1_starts size w0 :
  StonehengeGame_init p1_starts size empty_world = (w0, Ok tt) ->
  in_play w0 (current_state (game w0)).
Proof.
  unfold StonehengeGame_init. intros H.
  apply bindM_Ok in H as (w1 & s & Hs & H).
  unfold modify in H. injection H as <-.
  unfold StonehengeState_init in Hs.
  apply bindM_Ok in Hs as (w2 & b0 & Hb0 & Hs).
  unfold lift in Hb0. injection Hb0 as <- Hb0.
  cbv in Hs. injection Hs as <- <-.
  destruct (init_fresh _ _ Hb0) as (_ & _ & _ & Hd & _).
  exists p1_starts, b0. split.
  - split; [| split; reflexivity].
    split; [cbn; lia |]. split; [cbn; lia |].
    exists []. now apply played_init.
  - intros p Hp. change (Board.data_1 b0 = Some p) in Hp. congruence.
Qed.

(** A finished state is lost for the player to move. *)
Lemma expander_leaf fuel w s :
  in_play w s -> is_over s w = true ->
  expander (S fuel) s w = ((set_current_state s w).1, Ok (-1)).
Proof.
  intros (t & b & (_ & Ht & Hb) & Hturn) Hover.
  cbn [expander]. unfold set_current_state at 1. rewrite bindM_modify.
  set (w1 := set_game _ w).
  change ((set_current_state s w).1) with w1.
  rewrite bindM_gets. change (state_at w1 s) with (state_at w s). rewrite Ht.
  rewrite bindM_gets. change (is_over s w1) with (is_over s w). rewrite Hover.
  unfold is_over in Hover. rewrite Hb in Hover.
  unfold Board.game_over in Hover.
  destruct (Board.data_1 b) as [p |] eqn:Hd; [| discriminate].
  specialize (Hturn p eq_refl). subst p.
  rewrite bindM_gets.
  assert (Ew : forall q, is_winner q w1
                         = String.eqb (player_of (negb t)) q).
  { intros q. unfold is_winner.
    change (board_at w1 (board (state_at w1 (current_state (game w1)))))
      with (board_at w (board (state_at w s))).
    rewrite Hb. unfold Board.total_winner. now rewrite Hd. }
  rewrite Ew.
  replace (player_of (negb t) =? player_of t)%string with false
    by (destruct t; reflexivity).
  rewrite bindM_gets, Ew.
  replace (player_of (negb t) =? other_of (player_of t))%string with true
    by (destruct t; reflexivity).
  reflexivity.
Qed.

(** X19: a game that has been played to its end from a fresh start is
    lost for the player whose turn it is: the winner is the player who
    made the last move, and [expander] values the state at -1, never at
    0 or 1, and leaves it as the current state of the game. *)
Theorem finished_game_is_lost (p1_starts : bool) (size : Z) (k : nat)
    (w0 w : World) (s : nat) :
  StonehengeGame_init p1_starts size empty_world = (w0, Ok tt) ->
  plies k w0 (current_state (game w0)) w s ->
  is_over s w = true ->
  let st := state_at w s in
  Board.total_winner (player_of (negb (p1_turn st))) (board_at w (board st))
  = true
  /\ Board.total_winner (player_of (p1_turn st)) (board_at w (board st))
     = false
  /\ forall fuel,
       expander (S fuel) s w = ((set_current_state s w).1, Ok (-1)).
Proof.
  intros Hinit Hplies Hover st.
  pose proof (plies_in_play _ _ _ _ _ Hplies (game_init_in_play _ _ _ Hinit))
    as Hplay.
  split; [| split; [| intros fuel; now apply expander_leaf]].
  all: destruct Hplay as (t & b & (_ & Ht & Hb) & Hturn);
    fold st in Ht, Hb; rewrite Ht, Hb;
    unfold is_over in Hover; fold st in Hover; rewrite Hb in Hover;
    unfold Board.game_over in Hover; unfold Board.total_winner;
    destruct (Board.data_1 b) as [p |]; [| discriminate];
    rewrite (Hturn p eq_refl); destruct t; reflexivity.
Qed.

Lemma finished_game_is_lost_witness :
  expander 1 1 (make_move 0 "A" (StonehengeGame_init true 1 empty_world).1).1
  = ((set_current_state 1
        (make_move 0 "A" (StonehengeGame_init true 1 empty_world).1).1).1,
     Ok (-1)).
Proof.
  apply (finished_game_is_lost true 1 1
           (StonehengeGame_init true 1 empty_world).1
           (make_move 0 "A" (StonehengeGame_init true 1 empty_world).1).1 1%nat).
  - reflexivity.
  - apply (plies_S 0 _ _ (StonehengeGame_init true 1 empty_world).1 0%nat
             ["A"; "B"; "C"] "A").
    + apply plies_O.
    + reflexivity.
    + now left.
    + reflexivity.
  - reflexivity.
Defined.

Lemma py_max_sign scores v :
  Forall (fun x => x = 1 \/ x = -1) scores ->
  py_max Z.max scores = Ok v -> v = 1 \/ v = -1.
Proof.
  destruct scores as [| x l]; [discriminate |].
  intros H. apply Forall_cons in H as [Hx Hl]. cbn [py_max]. intros [= <-].
  revert x Hx. induction Hl as [| y l Hy _ IH]; intros x Hx; cbn [foldl];
    [exact Hx |].
  apply IH. lia.
Qed.

(** The value that [expander] returns for a state in play. *)
Lemma expander_sign fuel :
  forall s w w' v,
    in_play w s -> expander fuel s w = (w', Ok v) ->
    grows w w' /\ (v = 1 \/ v = -1).
Proof.
  induction fuel as [| fuel IH]; intros s w w' v Hplay Hrun; [discriminate |].
  destruct (is_over s w) eqn:Hover.
  { rewrite expander_leaf in Hrun by assumption. injection Hrun as <- <-.
    split; [| now right]. repeat split; reflexivity. }
  destruct Hplay as (t & b & Hst & Hturn).
  cbn [expander] in Hrun. unfold set_current_state at 1 in Hrun.
  rewrite bindM_modify in Hrun. set (w1 := set_game _ w) in Hrun.
  assert (Hst1 : is_state w1 s t b) by now apply (is_state_same w).
  assert (Hg1 : grows w w1) by (repeat split; reflexivity).
  rewrite bindM_gets in Hrun. rewrite bindM_gets in Hrun.
  change (is_over s w1) with (is_over s w) in Hrun. rewrite Hover in Hrun.
  rewrite (bindM_run _ _ _ _ _ (get_possible_moves_state w1 s t b Hst1)) in Hrun.
  destruct (mapM_make_move w1 s t b (moves_of b) Hst1 (fun _ H => H))
    as (w2 & cs & Hmake & [Hg2 _] & Hcs).
  rewrite (bindM_run _ _ _ _ _ Hmake) in Hrun.
  apply bindM_Ok in Hrun as (w3 & scores & Hscores & Hmax).
  unfold lift in Hmax. injection Hmax as <- Hmax.
  assert (Hplay2 : forall c, In c cs -> in_play w2 c).
  { intros c Hin.
    destruct (Forall2_In_r _ _ _ _ Hcs Hin) as (m & Hm & Hc).
    exists (negb t), (after (player_of t) b m). split; [exact Hc |].
    intros p Hp. rewrite negb_involutive. now apply (after_winner t b m). }
  destruct (mapM_inv grows (fun _ (_ : nat) x => x = 1 \/ x = -1)
              (fun x => exec v <- expander fuel x; ret (-1 * v))
              grows_refl grows_trans (fun _ _ _ _ _ H => H)
              cs w2 w3 scores) as [Hg3 Hall]; [| exact Hscores |].
  { intros c wa wb x Hin Hg Hc.
    apply bindM_Ok in Hc as (wc & v' & Hv' & Hret).
    unfold ret in Hret. injection Hret as <- <-.
    destruct (IH c wa wc v') as [Hgc Hsign]; [| exact Hv' |].
    - apply (in_play_grows w2); [exact Hg | now apply Hplay2].
    - split; [exact Hgc | lia]. }
  split; [eapply grows_trans; [exact Hg1 |]; eapply grows_trans; eauto |].
  apply (py_max_sign scores); [| exact Hmax].
  clear -Hall. induction Hall; constructor; auto.
Qed.

Lemma played_size size ms b : played size ms b -> 0 <= size.
Proof. induction 1 as [b H |]; [now apply (init_Ok_size size b) | assumption]. Qed.

Lemma claimed_cells_le nodes reg :
  (claimed_cells nodes reg <= length reg)%nat.
Proof.
  induction reg as [| e reg IH]; cbn; [lia |]. destruct (is_marked _); lia.
Qed.

(** While there is no winner, a cell is free and a move is offered. *)
Lemma open_board size ms b :
  played size ms b -> Board.data_1 b = None ->
  (0 < free_cells b)%nat /\ moves_of b <> [].
Proof.
  intros Hp Hnone. pose proof (played_size _ _ _ Hp) as Hsize.
  pose proof (played_geometry size ms b Hsize Hp) as Hg.
  destruct (played_inv size ms b Hsize Hp) as [Hinv _].
  assert (Hlt : (claimed_cells (Board.nodes b) (Board.node_reference b)
                 < length (Board.node_reference b))%nat).
  { destruct (Nat.lt_ge_cases
                (claimed_cells (Board.nodes b) (Board.node_reference b))
                (length (Board.node_reference b))) as [Hlt | Hge]; [exact Hlt |].
    exfalso. now apply (all_claimed_over b Hg Hinv Hge). }
  split; [unfold free_cells; lia |].
  destruct (free_cell_offered b Hg Hnone Hlt) as (moves & Hm & Hne).
  unfold moves_of. now rewrite Hm.
Qed.

(** Every move claims a free cell. *)
Lemma move_claims size ms b player m :
  played size ms b -> In m (moves_of b) -> is_player player ->
  (free_cells (after player b m) < free_cells b)%nat.
Proof.
  intros Hp Hin Hpl. pose proof (played_size _ _ _ Hp) as Hsize.
  pose proof (played_geometry size ms b Hsize Hp) as Hg.
  destruct (legal_move b _ m (moves_of_spec b) Hin) as (_ & r & Hr & Hfree).
  destruct (occupy_node_registered m player b r Hr) as (En & _).
  destruct (occupy_node_static m player b) as (_ & _ & Er & _).
  unfold free_cells, after. rewrite En, Er.
  destruct Hg as (_ & _ & Hv & _).
  pose proof (dict_get_Some_In _ _ _ Hr) as Hinr.
  rewrite Forall_forall in Hv.
  pose proof (Hv _ (proj2 (list_elem_of_In _ _) Hinr)) as Hrl. cbn in Hrl.
  destruct (claimed_cells_step (Board.nodes b) r (mark_of player)
              (Board.node_reference b)) as [_ Hs]; try assumption.
  { unfold mark_of. destruct (String.eqb player "p1"); auto. }
  specialize (Hs (in_map snd _ _ Hinr)). cbn in Hs.
  pose proof (claimed_cells_le
                (<[r := BoardNode.set_value (VInt (mark_of player))
                          (node_at (Board.nodes b) r)]> (Board.nodes b))
                (Board.node_reference b)).
  lia.
Qed.

Lemma is_player_player_of t : is_player (player_of t).
Proof. destruct t; [now left | now right]. Qed.

(** With more fuel than the board has free cells, [expander] returns. *)
Lemma expander_total fuel :
  forall s w t b,
    is_state w s t b ->
    (forall p, Board.data_1 b = Some p -> p = player_of (negb t)) ->
    (free_cells b < fuel)%nat ->
    exists w' v, expander fuel s w = (w', Ok v) /\ grows w w'.
Proof.
  induction fuel as [| fuel IH]; intros s w t b Hst Hturn Hfuel; [lia |].
  assert (Hplay : in_play w s) by (exists t, b; now split).
  destruct (is_over s w) eqn:Hover.
  { rewrite expander_leaf by assumption. eexists _, _.
    split; [reflexivity |]. repeat split; reflexivity. }
  pose proof Hst as ((_ & _ & ms & Hp) & Ht & Hb).
  rewrite Hb in Hp.
  assert (Hnone : Board.data_1 b = None).
  { unfold is_over, Board.game_over in Hover. rewrite Hb in Hover.
    destruct (Board.data_1 b); [discriminate | reflexivity]. }
  destruct (open_board _ _ _ Hp Hnone) as [_ Hmoves].
  cbn [expander]. unfold set_current_state at 1.
  rewrite bindM_modify. set (w1 := set_game _ w).
  assert (Hst1 : is_state w1 s t b) by now apply (is_state_same w).
  assert (Hg1 : grows w w1) by (repeat split; reflexivity).
  rewrite bindM_gets. rewrite bindM_gets.
  change (is_over s w1) with (is_over s w). rewrite Hover.
  rewrite (bindM_run _ _ _ _ _ (get_possible_moves_state w1 s t b Hst1)).
  destruct (mapM_make_move w1 s t b (moves_of b) Hst1 (fun _ H => H))
    as (w2 & cs & Hmake & [Hg2 _] & Hcs).
  rewrite (bindM_run _ _ _ _ _ Hmake).
  destruct (mapM_total grows (fun _ (_ : nat) (_ : Z) => True)
              (fun x => exec v <- expander fuel x; ret (-1 * v))
              grows_refl grows_trans (fun _ _ _ _ _ H => H) cs w2)
    as (w3 & scores & Hscores & Hg3 & Hall).
  { intros c wa Hin Hg.
    destruct (Forall2_In_r _ _ _ _ Hcs Hin) as (m & Hm & Hc).
    destruct (IH c wa (negb t) (after (player_of t) b m))
      as (wb & v & Hv & Hgb).
    - now apply (is_state_grows w2).
    - intros p Hd. rewrite negb_involutive. now apply (after_winner t b m).
    - pose proof (move_claims _ _ _ (player_of t) m Hp Hm
                    (is_player_player_of t)). lia.
    - exists wb, (-1 * v). rewrite (bindM_run _ _ _ _ _ Hv).
      split; [reflexivity | split; [exact Hgb | exact I]]. }
  rewrite (bindM_run _ _ _ _ _ Hscores).
  destruct scores as [| x scores].
  { apply Forall2_length in Hall, Hcs.
    destruct (moves_of b); [contradiction | destruct cs; discriminate]. }
  exists w3, (foldl Z.max x scores). split; [reflexivity |].
  eapply grows_trans; [exact Hg1 |]. eapply grows_trans; eauto.
Qed.

(** X20: the game has no draw, and the search knows it: for a state
    reached by play from a fresh start, whatever [expander] returns is
    1 or -1, never 0; and it does return, without changing a state or a
    board that was there, when it is given more fuel than the board has
    free cells. *)
Theorem expander_no_draw (p1_starts : bool) (size : Z) (k : nat)
    (w0 w : World) (s : nat) :
  StonehengeGame_init p1_starts size empty_world = (w0, Ok tt) ->
  plies k w0 (current_state (game w0)) w s ->
  (forall fuel w' v,
     expander fuel s w = (w', Ok v) -> grows w w' /\ (v = 1 \/ v = -1))
  /\ forall fuel,
       (free_cells (board_at w (board (state_at w s))) < fuel)%nat ->
       exists w' v, expander fuel s w = (w', Ok v) /\ (v = 1 \/ v = -1).
Proof.
  intros Hinit Hplies.
  pose proof (plies_in_play _ _ _ _ _ Hplies (game_init_in_play _ _ _ Hinit))
    as Hplay.
  split.
  - intros fuel w' v Hrun. now apply (expander_sign fuel s w).
  - intros fuel Hfuel. pose proof Hplay as (t & b & Hst & Hturn).
    pose proof Hst as (_ & _ & Hb). rewrite Hb in Hfuel.
    destruct (expander_total fuel s w t b Hst Hturn Hfuel) as (w' & v & Hrun & _).
    exists w', v. split; [exact Hrun |].
    now apply (expander_sign fuel s w w' v).
Qed.

Lemma expander_no_draw_witness :
  exists w' v,
    expander 4 0 (StonehengeGame_init true 1 empty_world).1 = (w', Ok v)
    /\ (v = 1 \/ v = -1).
Proof.
  apply (expander_no_draw true 1 0 (StonehengeGame_init true 1 empty_world).1
           (StonehengeGame_init true 1 empty_world).1 0%nat).
  - reflexivity.
  - apply plies_O.
  - vm_compute. lia.
Defined.

End NoDraw.

(** ** The recursive search on an unfinished game *)

Section RecursiveSearch.

Import StonehengeState StonehengeGame Stonehenge Strategy.

Lemma dict_set_keys {V} k (v : V) d k' :
  In k' (map fst (dict_set k v d)) <-> k' = k \/ In k' (map fst d).
Proof.
  induction d as [| [k0 v0] d IH]; cbn [dict_set map fst In].
  - split; [intros [<- | []]; auto | intros [-> | []]; auto].
  - destruct (String.eqb_spec k k0) as [-> | Hne]; cbn [map fst In].
    + split; [tauto | intros [-> | H]; tauto].
    + rewrite IH. split; [intros [H | [H | H]]; auto | tauto].
Qed.

Lemma dict_set_nonempty {V} k (v : V) d : dict_set k v d <> [].
Proof.
  destruct d as [| [k0 v0] d]; cbn; [discriminate |].
  destruct (String.eqb k k0); discriminate.
Qed.

(** The first loop of [recursive_minimax_strategy] on a state in play. *)
Lemma resulting_pairs_loop_run fuel s t b ms :
  (forall p, Board.data_1 b = Some p -> p = player_of (negb t)) ->
  (free_cells b <= fuel)%nat ->
  (forall m, In m ms -> In m (moves_of b)) ->
  forall w pairs,
    is_state w s t b ->
    exists w' pairs',
      resulting_pairs_loop fuel s ms pairs w = (w', Ok pairs')
      /\ grows w w'
      /\ (forall k, In k (map fst pairs') -> In k (map fst pairs) \/ In k ms)
      /\ (ms <> [] \/ pairs <> [] -> pairs' <> []).
Proof.
  intros Hturn Hfuel. induction ms as [| m ms IH]; intros Hin w pairs Hst;
    cbn [resulting_pairs_loop].
  - exists w, pairs. split; [reflexivity |]. split; [apply grows_refl |].
    split; [auto |]. intros [H | H]; [congruence | exact H].
  - pose proof Hst as ((_ & _ & hist & Hp) & _ & Hb). rewrite Hb in Hp.
    destruct (make_move_grows w s t b m Hst (Hin m (or_introl eq_refl)))
      as (w1 & c & Hrun & Hg1 & _ & Hc).
    destruct (expander_total fuel c w1 (negb t) (after (player_of t) b m) Hc)
      as (w2 & v & Hv & Hg2).
    { intros p Hd. rewrite negb_involutive.
      apply (after_winner t b m); [apply Hin; now left | exact Hd]. }
    { pose proof (move_claims _ _ _ (player_of t) m Hp
                    (Hin m (or_introl eq_refl)) (is_player_player_of t)).
      lia. }
    rewrite (bindM_run _ _ _ _ _ Hrun), (bindM_run _ _ _ _ _ Hv).
    destruct (IH (fun m' H => Hin m' (or_intror H)) w2
                (dict_set m (-1 * v) pairs))
      as (w3 & pairs' & Hloop & Hg3 & Hkeys & Hne).
    { apply (is_state_grows w1); [assumption |]. now apply (is_state_grows w). }
    exists w3, pairs'. split; [exact Hloop |].
    split; [eapply grows_trans; [exact Hg1 |]; eapply grows_trans; eauto |].
    split.
    + intros k Hk. destruct (Hkeys k Hk) as [H | H]; [| right; now right].
      apply dict_set_keys in H as [-> | H]; [right; now left | now left].
    + intros _. apply Hne. right. apply dict_set_nonempty.
Qed.

Lemma foldl_max_spec l :
  forall x,
    In (foldl Z.max x l) (x :: l)
    /\ forall y, In y (x :: l) -> y <= foldl Z.max x l.
Proof.
  induction l as [| z l IH]; intros x; cbn [foldl].
  - split; [now left | intros y [<- | []]; lia].
  - destruct (IH (Z.max x z)) as [Hin Hle]. split.
    + destruct Hin as [Hin | Hin]; [| right; now right].
      rewrite <- Hin. destruct (Z.max_spec x z) as [[_ ->] | [_ ->]];
        [right; now left | now left].
    + pose proof (Hle (Z.max x z) (or_introl eq_refl)) as Hxz.
      intros y [Hy | [Hy | Hy]]; [lia | lia | apply Hle; now right].
Qed.

Lemma maximal_moves_In pairs maximum m :
  In m (maximal_moves pairs maximum) <-> In (m, maximum) pairs.
Proof.
  unfold maximal_moves. rewrite in_map_iff. split.
  - intros ([k v] & <- & Hin). apply list_elem_of_In in Hin.
    apply list_elem_of_filter in Hin as [Hv Hin]. cbn in Hv. subst v.
    now apply list_elem_of_In.
  - intros Hin. exists (m, maximum). split; [reflexivity |].
    apply list_elem_of_In. apply list_elem_of_filter. split; [reflexivity |].
    now apply list_elem_of_In.
Qed.

Lemma pick_run randint maximal w :
  (forall a b, a <= b -> a <= randint a b <= b) ->
  maximal <> [] ->
  exists m, pick randint maximal w = (w, Ok (VStr m)) /\ In m maximal.
Proof.
  intros Hrand Hne. unfold pick.
  destruct (py_index_nonneg maximal
              (randint 0 (Z.of_nat (length maximal) - 1))) as (m & Hm & Hin).
  { destruct maximal; [contradiction |].
    pose proof (Hrand 0 (Z.of_nat (length (s :: maximal)) - 1)).
    cbn [length] in *. lia. }
  exists m. rewrite Hm. split; [reflexivity | exact Hin].
Qed.

(** X21: on an unfinished game that has been played from a fresh start,
    with a random source that keeps to its range and as much fuel as
    the board has free cells, [recursive_minimax_strategy] returns a
    move: one that the state offers and whose value, the negated value
    of the state it leads to, is the greatest among the values of all
    moves.  It leaves the game as it found it, and the states and
    boards of the store untouched. *)
Theorem recursive_minimax_move (randint : Z -> Z -> Z) (p1_starts : bool)
    (size : Z) (k : nat) (w0 w : World) (s : nat) (fuel : nat) :
  (forall a b, a <= b -> a <= randint a b <= b) ->
  StonehengeGame_init p1_starts size empty_world = (w0, Ok tt) ->
  plies k w0 (current_state (game w0)) w s ->
  is_over s w = false ->
  (free_cells (board_at w (board (state_at w s))) <= fuel)%nat ->
  let g := (set_current_state s w).1 in
  exists w' m pairs maximum,
    recursive_minimax_strategy randint fuel g = (w', Ok (VStr m))
    /\ In m (moves_of (board_at w (board (state_at w s))))
    /\ game w' = game g
    /\ grows g w'
    /\ (resulting_pairs fuel g).2 = Ok pairs
    /\ In (m, maximum) pairs
    /\ forall k v, In (k, v) pairs -> v <= maximum.
Proof.
  intros Hrand Hinit Hplies Hover Hfuel g.
  pose proof (plies_in_play _ _ _ _ _ Hplies (game_init_in_play _ _ _ Hinit))
    as (t & b & Hst & Hturn).
  pose proof Hst as ((_ & _ & hist & Hp) & _ & Hb). rewrite Hb in *.
  assert (Hnone : Board.data_1 b = None).
  { unfold is_over, Board.game_over in Hover. rewrite Hb in Hover.
    destruct (Board.data_1 b); [discriminate | reflexivity]. }
  destruct (open_board _ _ _ Hp Hnone) as [_ Hmoves].
  assert (Hstg : is_state g s t b) by now apply (is_state_same w).
  destruct (resulting_pairs_loop_run fuel s t b (moves_of b) Hturn Hfuel
              (fun _ H => H) g [] Hstg)
    as (w1 & pairs & Hloop & Hg1 & Hkeys & Hne).
  specialize (Hne (or_introl Hmoves)).
  destruct pairs as [| [k0 v0] pairs'] eqn:Epairs; [contradiction |].
  rewrite <- Epairs in *.
  set (maximum := foldl Z.max v0 (map snd pairs')).
  assert (Hmax : py_max Z.max (map snd pairs) = Ok maximum)
    by (rewrite Epairs; reflexivity).
  destruct (foldl_max_spec (map snd pairs') v0) as [Hin Hle].
  fold maximum in Hin, Hle.
  change (v0 :: map snd pairs') with (map snd ((k0, v0) :: pairs')) in Hin, Hle.
  rewrite <- Epairs in Hin, Hle.
  apply in_map_iff in Hin as ([km vm] & Hvm & Hin). cbn in Hvm. subst vm.
  assert (Hmaximal : maximal_moves pairs maximum <> []).
  { intros Hnil. apply (maximal_moves_In pairs maximum km) in Hin.
    rewrite Hnil in Hin. destruct Hin. }
  set (w2 := (set_current_state s w1).1).
  destruct (pick_run randint (maximal_moves pairs maximum) w2 Hrand Hmaximal)
    as (m & Hpick & Hm).
  assert (Hrun : recursive_minimax_strategy randint fuel g = (w2, Ok (VStr m))).
  { unfold recursive_minimax_strategy. rewrite bindM_gets.
    change (current_state (game g)) with s.
    rewrite (bindM_run _ _ _ _ _ (get_possible_moves_state g s t b Hstg)).
    rewrite (bindM_run _ _ _ _ _ Hloop).
    rewrite Hmax, bindM_lift_Ok. unfold set_current_state at 1.
    rewrite bindM_modify. fold w2.
    destruct (maximal_moves pairs maximum); [contradiction | exact Hpick]. }
  exists w2, m, pairs, maximum.
  split; [exact Hrun |].
  split.
  { apply maximal_moves_In in Hm.
    destruct (Hkeys m (in_map fst _ _ Hm)) as [[] | H]. exact H. }
  destruct Hg1 as (Hs1 & Hb1 & Ht1 & Hz1).
  split; [unfold w2, set_current_state, modify, set_game; cbn; now rewrite Hz1 |].
  split; [repeat split; assumption |].
  split.
  { unfold resulting_pairs. rewrite bindM_gets.
    change (current_state (game g)) with s.
    rewrite (bindM_run _ _ _ _ _ (get_possible_moves_state g s t b Hstg)).
    now rewrite Hloop. }
  split; [now apply maximal_moves_In |].
  intros k' v' Hkv. apply Hle. apply in_map_iff. now exists (k', v').
Qed.

Lemma recursive_minimax_move_witness :
  exists w' m,
    recursive_minimax_strategy (fun a _ => a) 3
      (set_current_state 0 (StonehengeGame_init true 1 empty_world).1).1
    = (w', Ok (VStr m))
    /\ In m ["A"; "B"; "C"].
Proof.
  destruct (recursive_minimax_move (fun a _ => a) true 1 0
              (StonehengeGame_init true 1 empty_world).1
              (StonehengeGame_init true 1 empty_world).1 0%nat 3)
    as (w' & m & _ & _ & Hrun & Hm & _).
  - intros a b H. lia.
  - reflexivity.
  - apply plies_O.
  - reflexivity.
  - vm_compute. lia.
  - exists w', m. split; [exact Hrun | exact Hm].
Defined.

End RecursiveSearch.

(** ** The iterative search and the current state of the game *)

Section IterativeSearch.

Import StonehengeState StonehengeGame Stonehenge Strategy.

(** One step back through a run that has returned. *)
Local Ltac back H :=
  match type of H with
  | bindM (set_current_state _) _ _ = _ =>
      let Hset := fresh "Hset" in
      apply bindM_Ok in H as (? & ? & Hset & H)
  | bindM _ _ _ = _ => apply bindM_Ok in H as (? & ? & _ & H)
  | (if ?c then _ else _) _ = _ => destruct c
  | (match ?a with _ => _ end) _ = _ => destruct a
  end.

Lemma search_loop_restores randint fuel :
  forall cur s w w' v,
    search_loop randint fuel cur s w = (w', Ok v) ->
    current_state (game w') = cur.
Proof.
  induction fuel as [| fuel IH]; intros cur s w w' v H; [discriminate |].
  cbn [search_loop] in H. cbv zeta in H.
  repeat back H.
  all: try (eapply IH; eassumption).
  all: try discriminate.
  - unfold ret in H. injection H as <- _.
    unfold set_current_state, modify in *. now injection Hset as <- _.
  - match type of H with
    | pick _ ?maximal ?w1 = _ =>
        pose proof (pick_world randint maximal w1) as Hw; rewrite H in Hw
    end.
    cbn in Hw. subst w'.
    unfold set_current_state, modify in *. now injection Hset as <- _.
Qed.

Lemma recursive_restores randint fuel w w' v :
  recursive_minimax_strategy randint fuel w = (w', Ok v) ->
  current_state (game w') = current_state (game w).
Proof.
  unfold recursive_minimax_strategy. intros H.
  rewrite bindM_gets in H. repeat back H.
  - unfold ret in H. injection H as <- _.
    unfold set_current_state, modify in *. now injection Hset as <- _.
  - match type of H with
    | pick _ ?maximal ?w1 = _ =>
        pose proof (pick_world randint maximal w1) as Hw; rewrite H in Hw
    end.
    cbn in Hw. subst w'.
    unfold set_current_state, modify in *. now injection Hset as <- _.
Qed.

(** X22: both searches write [game.current_state] as they go, the
    recursive one at every state it values and the iterative one at
    every finished state; but whenever either of them returns, the
    current state of the game is again the one it was called with. *)
Theorem searches_restore_state (randint : Z -> Z -> Z) (fuel : nat)
    (w : World) :
  (forall v,
     (recursive_minimax_strategy randint fuel w).2 = Ok v ->
     current_state (game (recursive_minimax_strategy randint fuel w).1)
     = current_state (game w))
  /\ (forall v,
       (iterative_minimax_strategy randint fuel w).2 = Ok v ->
       current_state (game (iterative_minimax_strategy randint fuel w).1)
       = current_state (game w)).
Proof.
  split; intros v H.
  - destruct (recursive_minimax_strategy randint fuel w) as [w' r] eqn:E.
    cbn [fst snd] in *. subst r. exact (recursive_restores _ _ _ _ _ E).
  - destruct (iterative_minimax_strategy randint fuel w) as [w' r] eqn:E.
    cbn [fst snd] in *. subst r.
    unfold iterative_minimax_strategy in E.
    rewrite bindM_gets, bindM_new_tree in E.
    exact (search_loop_restores _ _ _ _ _ _ _ E).
Qed.

Lemma searches_restore_state_witness :
  current_state
    (game (iterative_minimax_strategy (fun a _ => a) 5
             (StonehengeGame_init true 1 empty_world).1).1)
  = 0%nat
  /\ current_state
       (game (recursive_minimax_strategy (fun a _ => a) 3
                (StonehengeGame_init true 1 empty_world).1).1)
     = 0%nat.
Proof.
  destruct (searches_restore_state (fun a _ => a) 5
              (StonehengeGame_init true 1 empty_world).1) as [_ Hit].
  destruct (searches_restore_state (fun a _ => a) 3
              (StonehengeGame_init true 1 empty_world).1) as [Hrec _].
  split.
  - apply (Hit (VStr "A")). vm_compute. reflexivity.
  - apply (Hrec (VStr "A")). vm_compute. reflexivity.
Defined.

End IterativeSearch.

(** ** Moves, new games and moves that are not offered *)

Section Unchecked.

Import StonehengeState StonehengeGame Stonehenge Strategy.

(** X23: [possible_variations] never raises, on any board; the moves
    it returns are the labels of the cells that carry no mark, and
    there are none once the board has a winner. *)
Theorem possible_moves_are_free_cells (b : Board.t) :
  exists moves,
    Board.possible_variations b = Ok moves
    /\ forall node,
         In node moves
         <-> Board.data_1 b = None
             /\ exists r,
                  dict_get node (Board.node_reference b) = Some r
                  /\ is_marked (value_at (Board.nodes b) r) = false.
Proof.
  destruct (possible_variations_total b) as (moves & Hm).
  exists moves. split; [exact Hm |]. intros node. split.
  - intros Hin. now apply (legal_move b moves node).
  - intros (Hnone & r & Hr & Hfree).
    unfold Board.possible_variations, Board.game_over in Hm.
    rewrite Hnone in Hm. cbn [negb] in Hm.
    destruct (free_nodes_total (map fst (Board.node_reference b)) b
                (fun k H => H) []) as (res & Hres & _ & Hall).
    rewrite Hm in Hres. injection Hres as <-.
    apply Hall.
    + apply dict_get_Some_In in Hr. now apply (in_map fst) in Hr.
    + unfold Board.occupation_possible. rewrite Hr.
      unfold is_marked, value_at in Hfree. now rewrite Hfree.
Qed.

(** X24: a new game of a size that is not negative has one new state
    for its current state, with the turn as asked, a new board of that
    size on which nothing is claimed, and the size recorded; for a
    negative size the constructor raises a [TypeError] and leaves the
    store as it was. *)
Theorem game_construction (p1_starts : bool) (size : Z) (w : World) :
  (0 <= size ->
   exists b0,
     Board.init size = Ok b0
     /\ untouched b0
     /\ StonehengeGame_init p1_starts size w
        = (mkWorld (boards w ++ [b0])
             (states w ++ [StonehengeState.mk p1_starts size (length (boards w))])
             (trees w)
             (StonehengeGame.mk (length (states w)) size),
           Ok tt)
     /\ is_state (StonehengeGame_init p1_starts size w).1
          (length (states w)) p1_starts b0)
  /\ (size < 0 ->
      StonehengeGame_init p1_starts size w = (w, Raise TypeError)).
Proof.
  split.
  - intros Hsize. destruct (init_total size Hsize) as (b0 & Hb0 & _ & Hu).
    exists b0. split; [exact Hb0 |]. split; [exact Hu |].
    assert (E : StonehengeGame_init p1_starts size w
                = (mkWorld (boards w ++ [b0])
                     (states w
                      ++ [StonehengeState.mk p1_starts size (length (boards w))])
                     (trees w)
                     (StonehengeGame.mk (length (states w)) size),
                   Ok tt)).
    { unfold StonehengeGame_init.
      rewrite (bindM_run _ _ _ _ _ (StonehengeState_init_run _ _ w b0 Hb0)).
      reflexivity. }
    split; [exact E |]. rewrite E. cbn [fst].
    set (w0 := mkWorld _ _ _ _).
    assert (En : state_at w0 (length (states w))
                 = StonehengeState.mk p1_starts size (length (boards w)))
      by (unfold state_at, w0; cbn; now rewrite lookup_end).
    assert (Eb : board_at w0 (length (boards w)) = b0)
      by (unfold board_at, w0; cbn; now rewrite lookup_end).
    unfold is_state, state_ok. rewrite En.
    cbn [StonehengeState.board StonehengeState.size StonehengeState.p1_turn].
    rewrite Eb. unfold w0. cbn [states boards]. rewrite !length_app.
    cbn [length].
    repeat split; try lia. exists []. now apply played_init.
  - intros Hneg. unfold StonehengeGame_init, StonehengeState_init.
    rewrite init_negative by assumption. reflexivity.
Qed.

Lemma game_construction_witness :
  StonehengeGame_init true (-1) empty_world = (empty_world, Raise TypeError)
  /\ exists b0, Board.init 3 = Ok b0 /\ untouched b0.
Proof.
  split.
  - apply (game_construction true (-1) empty_world). lia.
  - destruct (game_construction true 3 empty_world) as [H _].
    destruct H as (b0 & Hb0 & Hu & _); [lia |].
    exists b0. now split.
Defined.

Lemma bindM_raise {A B} (m : M A) (k : A -> M B) w w1 e :
  m w = (w1, Raise e) -> bindM m k w = (w1, Raise e).
Proof. intros H. unfold bindM. now rewrite H. Qed.

(** [make_move] with a label that the board does not have. *)
Lemma make_move_unknown w s move b0 :
  let st := state_at w s in
  let b := board_at w (board st) in
  let player := player_of (p1_turn st) in
  (s < length (states w))%nat ->
  (board st < length (boards w))%nat ->
  Board.init (size st) = Ok b0 ->
  Board.produce_copy b = Ok b ->
  ~ In move (map fst (Board.node_reference b)) ->
  make_move s move w
  = (mkWorld
       (boards w
        ++ [b0; Board.set_moves_history
                  (Board.moves_history b ++ [(move, player)]) b])
       (states w
        ++ [StonehengeState.mk (p1_turn st) (size st) (S (length (boards w)))])
       (trees w) (game w),
     Raise KeyError).
Proof.
  intros st b player Hs Hb Hinit Hcopy Hnot.
  assert (Es : forall bs t, state_at (mkWorld bs (states w ++ t) (trees w) (game w)) s = st).
  { intros. unfold state_at. cbn. now rewrite lookup_app_l. }
  assert (En : forall bs x,
             state_at (mkWorld bs (states w ++ [x]) (trees w) (game w))
               (length (states w)) = x).
  { intros. unfold state_at. cbn. now rewrite lookup_end. }
  set (n := length (states w)). set (c := length (boards w)).
  set (w1 := mkWorld (boards w ++ [b0])
               (states w ++ [StonehengeState.mk (p1_turn st) (size st) c])
               (trees w) (game w)).
  set (w2 := mkWorld (boards w ++ [b0; b])
               (states w ++ [StonehengeState.mk (p1_turn st) (size st) c])
               (trees w) (game w)).
  set (w3 := mkWorld (boards w ++ [b0; b])
               (states w ++ [StonehengeState.mk (p1_turn st) (size st) (S c)])
               (trees w) (game w)).
  set (b' := Board.set_moves_history
               (Board.moves_history b ++ [(move, player)]) b).
  set (w4 := mkWorld (boards w ++ [b0; b'])
               (states w ++ [StonehengeState.mk (p1_turn st) (size st) (S c)])
               (trees w) (game w)).
  assert (Eocc : Board.occupy_node move player b = (b', Raise KeyError)).
  { apply dict_get_None in Hnot. unfold Board.occupy_node. cbn.
    now rewrite Hnot. }
  assert (S2 : produce_copy (board st) w1 = (w2, Ok (S c))).
  { unfold produce_copy. rewrite bindM_gets.
    replace (board_at w1 (board st)) with b
      by (unfold board_at, w1; cbn; now rewrite lookup_app_l).
    fold b. rewrite Hcopy, bindM_lift_Ok. unfold new_board, w1, w2, set_boards.
    cbn. rewrite <- app_assoc, length_app. cbn. do 2 f_equal. subst c. lia. }
  assert (S3 : set_board n (S c) w2 = (w3, Ok tt)).
  { unfold set_board, modify, w2, w3, set_states. subst n. rewrite En. cbn.
    now rewrite insert_end. }
  assert (S4 : on_board (S c) (Board.occupy_node move player) w3
               = (w4, Raise KeyError)).
  { unfold on_board.
    replace (board_at w3 (S c)) with b.
    2:{ unfold board_at, w3. cbn. subst c.
        change (boards w ++ [b0; b]) with (boards w ++ [b0] ++ [b]).
        rewrite app_assoc.
        replace (S (length (boards w))) with (length (boards w ++ [b0]))
          by (rewrite length_app; cbn; lia).
        now rewrite lookup_end. }
    rewrite Eocc. unfold w3, w4, set_boards. cbn. subst c.
    change (boards w ++ [b0; b]) with (boards w ++ [b0] ++ [b]).
    change (boards w ++ [b0; b']) with (boards w ++ [b0] ++ [b']).
    rewrite !app_assoc.
    replace (S (length (boards w))) with (length (boards w ++ [b0]))
      by (rewrite length_app; cbn; lia).
    now rewrite insert_end. }
  assert (E1 : state_at w1 s = st) by apply Es.
  assert (E3 : state_at w3 n
               = StonehengeState.mk (p1_turn st) (size st) (S c)) by apply En.
  unfold make_move. rewrite bindM_gets. fold st.
  rewrite (bindM_run _ _ _ _ _ (StonehengeState_init_run _ _ w b0 Hinit)).
  fold n c w1. rewrite bindM_gets, E1.
  rewrite (bindM_run _ _ _ _ _ S2), (bindM_run _ _ _ _ _ S3).
  rewrite bindM_gets, E3. cbn [p1_turn board].
  replace (if p1_turn st
           then on_board (S c) (Board.occupy_node move "p1")
           else on_board (S c) (Board.occupy_node move "p2"))
    with (on_board (S c) (Board.occupy_node move player))
    by (unfold player, player_of; destruct (p1_turn st); reflexivity).
  now rewrite (bindM_raise _ _ _ _ _ S4).
Qed.

(** X25: [make_move] does not ask whether the move is possible.  On a
    state of the game every label of the board is accepted, be the cell
    claimed already or the game over: the new state has the board with
    the cell marked for the player to move, and the turn passes.  A
    label that the board does not have raises a [KeyError], after a
    state and two boards have been added to the store.  Either way the
    state that was given and its board stay as they were. *)
Theorem make_move_any_label (w : World) (s : nat) (turn : bool) (b : Board.t)
    (move : string) :
  is_state w s turn b ->
  let w' := (make_move s move w).1 in
  is_state w' s turn b
  /\ length (states w') = S (length (states w))
  /\ length (boards w') = S (S (length (boards w)))
  /\ game w' = game w
  /\ (In move (map fst (Board.node_reference b)) ->
      (make_move s move w).2 = Ok (length (states w))
      /\ p1_turn (state_at w' (length (states w))) = negb turn
      /\ board_at w' (board (state_at w' (length (states w))))
         = after (player_of turn) b move)
  /\ (~ In move (map fst (Board.node_reference b)) ->
      (make_move s move w).2 = Raise KeyError).
Proof.
  intros Hst w1. pose proof Hst as ((Hs & Hb & ms & Hp) & Ht & Hbd).
  pose proof Hp as Hcopy. rewrite Hbd in Hcopy.
  apply produce_copy_played in Hcopy.
  destruct (played_replay _ _ _ Hp) as (_ & _ & b0 & H0 & _).
  assert (Hsame : forall bs x,
             (length bs = 2)%nat ->
             is_state (mkWorld (boards w ++ bs) (states w ++ [x])
                         (trees w) (game w)) s turn b).
  { intros bs x _. apply (is_state_grows w); [| exact Hst].
    repeat split; cbn; try reflexivity; eexists; reflexivity. }
  destruct (in_dec String.string_dec move (map fst (Board.node_reference b)))
    as [Hin | Hnot].
  - pose proof (occupy_node_Ok move (player_of turn) b Hin) as Hocc.
    pose proof (make_move_run w s move b0 Hs Hb H0) as Hrun.
    cbv zeta in Hrun. rewrite Ht, Hbd in Hrun.
    specialize (Hrun Hcopy Hocc).
    set (b' := (Board.occupy_node move (player_of turn) b).1) in *.
    set (w' := mkWorld (boards w ++ [b0; b']) _ _ _) in Hrun.
    assert (En : state_at w' (length (states w))
                 = StonehengeState.mk (negb turn) (size (state_at w s))
                     (S (length (boards w))))
      by (unfold state_at, w'; cbn; now rewrite lookup_end).
    assert (Eb : board_at w' (S (length (boards w))) = b').
    { unfold board_at, w'. cbn.
      change (boards w ++ [b0; b']) with (boards w ++ [b0] ++ [b']).
      rewrite app_assoc.
      replace (S (length (boards w))) with (length (boards w ++ [b0]))
        by (rewrite length_app; cbn; lia).
      now rewrite lookup_end. }
    unfold w1. rewrite Hrun. cbn [fst snd].
    split; [now apply Hsame |].
    split; [unfold w'; cbn; rewrite length_app; cbn; lia |].
    split; [unfold w'; cbn; rewrite length_app; cbn; lia |].
    split; [reflexivity |].
    split; [| intros Hnot; contradiction]. intros _.
    rewrite En. cbn [p1_turn board]. rewrite Eb.
    split; [reflexivity |]. split; reflexivity.
  - pose proof (make_move_unknown w s move b0 Hs Hb H0) as Hrun.
    cbv zeta in Hrun. rewrite Ht, Hbd in Hrun.
    specialize (Hrun Hcopy Hnot).
    set (w' := mkWorld _ _ _ _) in Hrun.
    unfold w1. rewrite Hrun. cbn [fst snd].
    split; [now apply Hsame |].
    split; [unfold w'; cbn; rewrite length_app; cbn; lia |].
    split; [unfold w'; cbn; rewrite length_app; cbn; lia |].
    split; [reflexivity |].
    split; [intros Hin; contradiction | reflexivity].
Qed.

Lemma make_move_any_label_witness :
  (make_move 0 "Z" (StonehengeGame_init true 1 empty_world).1).2
  = Raise KeyError
  /\ (make_move 1 "A"
        (make_move 0 "A" (StonehengeGame_init true 1 empty_world).1).1).2
     = Ok 2%nat.
Proof.
  split.
  - destruct (make_move_any_label (StonehengeGame_init true 1 empty_world).1
                0%nat true (board_of 1) "Z") as (_ & _ & _ & _ & _ & H).
    + split; [| split; reflexivity].
      split; [vm_compute; lia |]. split; [vm_compute; lia |].
      exists []. apply played_init. reflexivity.
    + apply H. cbn. intros [E | [E | [E | []]]]; discriminate.
  - destruct (make_move_any_label
                (make_move 0 "A" (StonehengeGame_init true 1 empty_world).1).1
                1%nat false (after "p1" (board_of 1) "A") "A")
      as (_ & _ & _ & _ & H & _).
    + split; [| split; reflexivity].
      split; [vm_compute; lia |]. split; [vm_compute; lia |].
      exists ([] ++ [("A", "p1")]).
      apply (played_move 1 [] (board_of 1) "A" "p1" ["A"; "B"; "C"]).
      * apply played_init. reflexivity.
      * reflexivity.
      * now left.
      * now left.
    + apply H. cbn. now left.
Defined.

End Unchecked.

(** ** The longest list and the order of the layers *)

Section Longest.

Import Board.

Context {A : Type}.
Implicit Types (l n j : list (list A)).

(** The search of [max_len_list] after the indices below [k]. *)
Lemma max_len_fold l k :
  (k <= length l)%nat ->
  exists mi mr,
    foldl
      (fun '(max_ind, max_res) i =>
         let len := Z.of_nat (length (default [] (l !! i))) in
         if len >? max_res then (i, len) else (max_ind, max_res))
      (O, -1) (seq 0 k)
    = (mi, mr)
    /\ (k = 0%nat /\ mi = 0%nat /\ mr = -1
        \/ (mi < k)%nat /\ mr = Z.of_nat (len_at l mi)
           /\ (forall i, (i < k)%nat -> (len_at l i <= len_at l mi)%nat)
           /\ (forall i, (i < mi)%nat -> (len_at l i < len_at l mi)%nat)).
Proof.
  induction k as [| k IH]; intros Hk.
  - exists 0%nat, (-1). split; [reflexivity | left; auto].
  - destruct IH as (mi & mr & Hfold & Hinv); [lia |].
    rewrite seq_S, foldl_app, Hfold. cbn [foldl Nat.add].
    fold (len_at l k).
    destruct (Z.of_nat (len_at l k) >? mr) eqn:E.
    + exists k, (Z.of_nat (len_at l k)). split; [reflexivity |]. right.
      split; [lia |]. split; [reflexivity |].
      destruct Hinv as [(-> & -> & ->) | (Hmi & -> & Hall & Hfirst)].
      * split; intros i Hi; [assert (i = 0%nat) as -> by lia; lia | lia].
      * split; intros i Hi.
        -- destruct (decide (i = k)) as [-> | Hne]; [lia |].
           specialize (Hall i). lia.
        -- specialize (Hall i). lia.
    + exists mi, mr. split; [reflexivity |]. right.
      destruct Hinv as [(-> & -> & ->) | (Hmi & -> & Hall & Hfirst)]; [lia |].
      split; [lia |]. split; [reflexivity |].
      split; [| exact Hfirst].
      intros i Hi. destruct (decide (i = k)) as [-> | Hne]; [lia |].
      apply Hall. lia.
Qed.

Lemma max_len_list_spec l :
  l <> [] ->
  (max_len_list l < length l)%nat
  /\ (forall i, (len_at l i <= len_at l (max_len_list l))%nat)
  /\ (forall i, (i < max_len_list l)%nat ->
                (len_at l i < len_at l (max_len_list l))%nat).
Proof.
  intros Hne.
  destruct (max_len_fold l (length l) (le_n _)) as (mi & mr & Hfold & Hinv).
  assert (E : max_len_list l = mi).
  { unfold max_len_list, range. rewrite Nat.sub_0_r.
    cbv zeta in Hfold |- *. now rewrite Hfold. }
  rewrite E.
  destruct Hinv as [(H0 & _) | (Hmi & _ & Hall & Hfirst)].
  { destruct l; [contradiction | discriminate]. }
  split; [exact Hmi |]. split; [| exact Hfirst].
  intros i. destruct (le_lt_dec (length l) i) as [Hge | Hlt]; [| now apply Hall].
  unfold len_at at 1. rewrite lookup_ge_None_2 by assumption. cbn. lia.
Qed.

(** X26: [max_len_list(l)] is the index of the first of the longest
    lists of [l]: no list of [l] is longer than the one at that index
    and every list before it is shorter; for the empty list it is 0. *)
Theorem max_len_list_first_longest (l : list (list A)) :
  (l = [] -> max_len_list l = 0%nat)
  /\ (l <> [] ->
      exists x,
        l !! max_len_list l = Some x
        /\ (forall y, In y l -> (length y <= length x)%nat)
        /\ (forall i y, (i < max_len_list l)%nat -> l !! i = Some y ->
                        (length y < length x)%nat)).
Proof.
  split; [intros ->; reflexivity |].
  intros Hne. destruct (max_len_list_spec l Hne) as (Hlt & Hall & Hfirst).
  destruct (lookup_lt_is_Some_2 l _ Hlt) as (x & Hx).
  assert (Ex : len_at l (max_len_list l) = length x)
    by (unfold len_at; now rewrite Hx).
  exists x. split; [exact Hx |]. split.
  - intros y Hy. apply list_elem_of_In in Hy.
    apply list_elem_of_lookup in Hy as (i & Hi).
    specialize (Hall i). unfold len_at at 1 in Hall. rewrite Hi in Hall.
    cbn in Hall. lia.
  - intros i y Hi Hy. specialize (Hfirst i Hi).
    unfold len_at at 1 in Hfirst. rewrite Hy in Hfirst. cbn in Hfirst. lia.
Qed.

Lemma longest_to_shortest_snoc j x :
  longest_to_shortest j ->
  (forall a, In a j -> (length x <= length a)%nat) ->
  longest_to_shortest (j ++ [x]).
Proof.
  unfold longest_to_shortest.
  induction 1 as [| a j Hs IH Ha]; intros Hx; cbn [app].
  - repeat constructor.
  - constructor.
    + apply IH. intros; apply Hx; now right.
    + apply Forall_app. split; [exact Ha |].
      constructor; [apply Hx; now left | constructor].
Qed.

Lemma longest_first_sorted counts :
  forall n j,
    length counts = length n ->
    longest_to_shortest j ->
    (forall a b, In a j -> In b n -> (length b <= length a)%nat) ->
    exists j',
      longest_first counts n j = Ok j'
      /\ Permutation j' (j ++ n)
      /\ longest_to_shortest j'.
Proof.
  induction counts as [| c counts IH]; intros n j Hlen Hs Hge;
    cbn [longest_first].
  - destruct n; [| discriminate]. exists j. rewrite app_nil_r. auto.
  - assert (Hne : n <> []) by (intros ->; discriminate).
    destruct (max_len_list_spec n Hne) as (Hlt & Hall & _).
    destruct (lookup_lt_is_Some_2 n _ Hlt) as (x & Hx). rewrite Hx.
    assert (Hmax : forall b, In b n -> (length b <= length x)%nat).
    { intros b Hb. apply list_elem_of_In in Hb.
      apply list_elem_of_lookup in Hb as (i & Hi).
      specialize (Hall i). unfold len_at in Hall. rewrite Hi, Hx in Hall.
      exact Hall. }
    assert (Hxn : In x n)
      by (apply list_elem_of_In; eapply list_elem_of_lookup_2; eauto).
    destruct (IH (delete (max_len_list n) n) (j ++ [x]))
      as (j' & Hrun & Hperm & Hs').
    + rewrite length_delete by (now exists x).
      cbn [length] in Hlen. lia.
    + apply longest_to_shortest_snoc; [exact Hs |].
      intros a Ha. now apply Hge.
    + intros a b Ha Hb. apply list_elem_of_In in Hb.
      apply list_elem_of_delete_inv in Hb. apply list_elem_of_In in Hb.
      apply in_app_or in Ha as [Ha | [<- | []]]; [now apply Hge |].
      now apply Hmax.
    + exists j'. split; [exact Hrun |]. split; [| exact Hs'].
      rewrite Hperm, <- app_assoc. apply Permutation_app_head. cbn [app].
      symmetry. now apply delete_Permutation.
Qed.

(** X27: the first loop of the downward branch of [adjoin] sorts: it
    returns the layers it is given, each once, with the longest first
    and no layer before a longer one. *)
Theorem longest_first_sorts (n : list (list A)) :
  exists j,
    longest_first (range 0 (length n)) n [] = Ok j
    /\ Permutation j n
    /\ longest_to_shortest j.
Proof.
  destruct (longest_first_sorted (range 0 (length n)) n []) as (j & H & Hp & Hs).
  - unfold range. now rewrite length_seq, Nat.sub_0_r.
  - constructor.
  - intros a b [].
  - exists j. auto.
Qed.

End Longest.

Lemma max_len_list_first_longest_witness :
  exists x,
    [[1; 2]; [3; 4; 5]; [6; 7; 8]] !! Board.max_len_list [[1; 2]; [3; 4; 5]; [6; 7; 8]]
    = Some x
    /\ forall y, In y [[1; 2]; [3; 4; 5]; [6; 7; 8]] ->
                 (length y <= length x)%nat.
Proof.
  destruct (max_len_list_first_longest [[1; 2]; [3; 4; 5]; [6; 7; 8]]) as [_ H].
  destruct H as (x & Hx & Hall & _); [discriminate |].
  exists x. split; assumption.
Defined.

(** ** The value of a state, and the recursive search in general *)

Section Minimax.

Import StonehengeState StonehengeGame Stonehenge Strategy.













(** *** The store during the iterative search *)



Lemma grows_reaches w w' : grows w w' -> reaches w w'.
Proof.
  intros (Hs & Hb & Ht & Hz). repeat split; try assumption. rewrite Ht. lia.
Qed.







(** *** The passes of the loop *)








(** *** The children of a tree *)



(** *** The search below a tree *)








End Minimax.
